(** * LexiconDecoder: a shallow embedding of

      src/libraries/decoder/LexiconDecoder.cpp

    The decoder object is a record; every member function is a function from
    decoder to decoder.  A member function whose C++ body can run into
    undefined behaviour (a read outside [emissions] or [transitions_], a
    dangling trie pointer, a null candidate pointer, [find(..)->second] on a
    missing frame) returns [option]: [None] is that failure.

    Conventions.
    - [double] and [float] values are IEEE binary64 numbers ([float] of
      [PrimFloat]); a C++ [float] is carried as the double it converts to,
      and arithmetic on two [float]s rounds to binary32 ([float_sub]).
    - [int] is [Z]; signed overflow is not modelled, and a statement about
      the frame counters names the range ([inInt]) in which the two agree.
    - A [const TrieNode*] is the address of the node (a [Z]); the lexicon is
      the store that maps addresses to nodes.  Pointer comparison is address
      comparison.
    - A [const LexiconDecoderState*] into the previous frame (the [parent]
      field) is the slot of that state in the previous frame's vector;
      [nullptr] is [None].
    - [candidatePtrs_] holds pointers to pairwise distinct elements of
      [candidates_]; it is carried as the list of the pointed-to records, a
      write through [candidatePtrs_[k]] being a write to the k-th record.
      The staged records are not read again once the pointers are taken
      ([candidatesReset] clears them before the next frame is staged), and
      [candidates_] keeps them as they were staged, also where a merge
      writes a score and a parent through a pointer.
    - [std::sort] and [std::partial_sort] are the operations of the class
      [Algorithm], whichever implementation the program is linked with; what
      the standard promises of them is the class [AlgorithmSpec]. *)

From Stdlib Require Import ZArith Floats SpecFloat Lia.
From stdpp Require Import gmap list sorting.

Local Open Scope Z_scope.

(** ** Scoring primitives *)

Definition kNegativeInfinity : float := neg_infinity.

(** [std::max(a, b)] is [(a < b) ? b : a]. *)
Definition std_max (a b : float) : float :=
  if PrimFloat.ltb a b then b else a.

(** [(float)x]: a [double] converted to [float], that is rounded to the
    nearest binary32 number, ties to even; a [float] is carried as the
    [double] of the same value. *)
Definition to_float (x : float) : float :=
  match Prim2SF x with
  | S754_finite s m e =>
      SF2Prim (binary_normalize 24 128 (cond_Zopp s (Z.pos m)) e s)
  | _ => x
  end.

(** [a - b] on two [float]s: their difference in [double] arithmetic,
    rounded to [float]. *)
Definition float_sub (a b : float) : float := to_float (PrimFloat.sub a b).

(** [<cmath>]: the two transcendental functions that log-add uses. *)
Class Libm := {
  std_exp : float → float;
  std_log1p : float → float
}.

(** Modelled from the spec: [log_add] of Utils.h (section 4.1): "returns
    max(a,b) + log1p(exp(−|a−b|)), with either input equal to −∞ passing the
    other through". *)
Definition log_add `{Libm} (a b : float) : float :=
  if PrimFloat.eqb a kNegativeInfinity then b
  else if PrimFloat.eqb b kNegativeInfinity then a
  else PrimFloat.add (std_max a b)
         (std_log1p (std_exp (PrimFloat.opp (PrimFloat.abs (PrimFloat.sub a b))))).

(** Modelled from the spec: [isValidCandidate] of Utils.h (sections 4.1 and
    4.2).  The first argument is passed by reference: the running best
    becomes "the maximum score ever offered", this score included, and the
    verdict is "score ≥ best − thr and score > −∞" against it. *)
Definition isValidCandidate (bestScore score beamThreshold : float)
  : bool * float :=
  let best := std_max bestScore score in
  (PrimFloat.leb (PrimFloat.sub best beamThreshold) score
     && PrimFloat.ltb kNegativeInfinity score,
   best).

(** ** Data model *)

(** Modelled from the spec: [CriterionType] of Utils.h, "one of CTC, ASG". *)
Inductive CriterionType := ASG | CTC.

Definition isCTC (c : CriterionType) : bool :=
  match c with CTC => true | ASG => false end.
Definition isASG (c : CriterionType) : bool :=
  match c with ASG => true | CTC => false end.

(** Modelled from the spec: [DecoderOptions] of Utils.h (section 6). *)
Record DecoderOptions := {
  beamSize : Z;
  beamSizeToken : Z;
  beamThreshold : float;
  lmWeight : float;
  wordScore : float;
  unkScore : float;
  silScore : float;
  logAdd : bool;
  criterionType : CriterionType
}.

(** Modelled from the spec: [TrieNode] and [Trie] of Trie.h (sections 3 and
    6): children by token, terminal word labels, best completion score (a
    [float]). *)
Record TrieNode := {
  children : gmap Z Z;
  labels : list Z;
  maxScore : float
}.

Record Trie := {
  getRoot : Z;
  nodes : gmap Z TrieNode
}.

(** Modelled from the spec: the language-model contract of LM.h (section 6):
    [start], [score], [finish] and the state's own [compare]; the scores are
    [float]s. *)
Class LM := {
  LMStatePtr : Type;
  lm_start : bool → LMStatePtr;
  lm_score : LMStatePtr → Z → LMStatePtr * float;
  lm_finish : LMStatePtr → LMStatePtr * float;
  lm_compare : LMStatePtr → LMStatePtr → Z
}.

(** [LexiconDecoderState], with the constructor's argument order
    (lmState, lex, parent, score, token, word, prevBlank = false). *)
Record LexiconDecoderState `{LM} := mkState {
  lmState : LMStatePtr;
  lex : Z;
  parent : option nat;
  score : float;
  token : Z;
  word : Z;
  prevBlank : bool
}.

(** Modelled from the spec: [DecodeResult] of Utils.h (section 6); the default
    constructed result is the empty one. *)
Record DecodeResult := {
  res_score : float;
  res_words : list Z;
  res_tokens : list Z
}.

Definition emptyDecodeResult : DecodeResult :=
  {| res_score := 0%float; res_words := []; res_tokens := [] |}.

(** The decoder object. *)
Record LexiconDecoder `{LM} := {
  opt_ : DecoderOptions;
  lexicon_ : Trie;
  sil_ : Z;
  blank_ : Z;
  unk_ : Z;
  transitions_ : list float;
  isLmToken_ : bool;
  candidates_ : list LexiconDecoderState;
  candidatePtrs_ : list LexiconDecoderState;
  candidatesBestScore_ : float;
  hyp_ : gmap Z (list LexiconDecoderState);
  nDecodedFrames_ : Z;
  nPrunedFrames_ : Z
}.

(** ** [<algorithm>] *)

(** [std::sort(first, last, comp)] and
    [std::partial_sort(first, first + middle, last, comp)] of the standard
    library; [comp a b] says that [a] goes before [b].  The standard leaves
    the relative order of elements that [comp] does not separate, and for
    [std::partial_sort] the order of the elements from [middle] on, to the
    implementation. *)
Class Algorithm := {
  std_sort : ∀ {A}, (A → A → bool) → list A → list A;
  std_partial_sort : ∀ {A}, (A → A → bool) → nat → list A → list A
}.

(** Reading [a[i]] of a C array or [std::vector] with an [int] index. *)
Definition read {A} (a : list A) (i : Z) : option A :=
  if i <? 0 then None else a !! Z.to_nat i.

Section Decoder.
Context `{lm_ : LM} `{libm : Libm} `{alg : Algorithm}.

Local Abbreviation State := LexiconDecoderState.
Local Abbreviation Decoder := LexiconDecoder.

(** *** Field updates of the decoder object *)

Definition set_candidates (best : float) (cs ptrs : list State) (d : Decoder)
  : Decoder :=
  {| opt_ := opt_ d; lexicon_ := lexicon_ d; sil_ := sil_ d;
     blank_ := blank_ d; unk_ := unk_ d; transitions_ := transitions_ d;
     isLmToken_ := isLmToken_ d;
     candidates_ := cs; candidatePtrs_ := ptrs; candidatesBestScore_ := best;
     hyp_ := hyp_ d; nDecodedFrames_ := nDecodedFrames_ d;
     nPrunedFrames_ := nPrunedFrames_ d |}.

Definition set_hyp (h : gmap Z (list State)) (d : Decoder) : Decoder :=
  {| opt_ := opt_ d; lexicon_ := lexicon_ d; sil_ := sil_ d;
     blank_ := blank_ d; unk_ := unk_ d; transitions_ := transitions_ d;
     isLmToken_ := isLmToken_ d;
     candidates_ := candidates_ d; candidatePtrs_ := candidatePtrs_ d;
     candidatesBestScore_ := candidatesBestScore_ d;
     hyp_ := h; nDecodedFrames_ := nDecodedFrames_ d;
     nPrunedFrames_ := nPrunedFrames_ d |}.

Definition set_frames (nDecoded nPruned : Z) (d : Decoder) : Decoder :=
  {| opt_ := opt_ d; lexicon_ := lexicon_ d; sil_ := sil_ d;
     blank_ := blank_ d; unk_ := unk_ d; transitions_ := transitions_ d;
     isLmToken_ := isLmToken_ d;
     candidates_ := candidates_ d; candidatePtrs_ := candidatePtrs_ d;
     candidatesBestScore_ := candidatesBestScore_ d;
     hyp_ := hyp_ d; nDecodedFrames_ := nDecoded;
     nPrunedFrames_ := nPruned |}.

(** [hyp_[k]] of [std::unordered_map]: a missing key is first inserted with
    an empty vector. *)
Definition hyp_touch (k : Z) (h : gmap Z (list State)) : gmap Z (list State) :=
  match h !! k with
  | Some _ => h
  | None => <[k := []]> h
  end.

Definition hyp_at (k : Z) (h : gmap Z (list State)) : list State :=
  default [] (h !! k).

(** *** Candidate buffer *)

Definition candidatesReset (d : Decoder) : Decoder :=
  set_candidates kNegativeInfinity [] [] d.

(** Modelled from the spec: [mergeStates] of Utils.h (sections 3, 4.2, 6):
    the scores are combined by log-add, or by max when [logAdd] is off, and
    the parent of the higher-scoring of the two is retained. *)
Definition mergeStates (oldNode newNode : State) (logAdd : bool) : State :=
  {| lmState := lmState oldNode;
     lex := lex oldNode;
     parent := if PrimFloat.ltb (score oldNode) (score newNode)
               then parent newNode else parent oldNode;
     score := if logAdd then log_add (score oldNode) (score newNode)
              else std_max (score oldNode) (score newNode);
     token := token oldNode;
     word := word oldNode;
     prevBlank := prevBlank oldNode |}.

(** The lambda [compareNodesShortList] of [mergeCandidates]. *)
Definition compareNodesShortList (node1 node2 : State) : bool :=
  let lmCmp := lm_compare (lmState node1) (lmState node2) in
  if negb (lmCmp =? 0) then lmCmp >? 0
  else if negb (lex node1 =? lex node2) then lex node1 >? lex node2
  else if negb (token node1 =? token node2) then token node1 >? token node2
  else if negb (eqb (prevBlank node1) (prevBlank node2))
       then prevBlank node1 && negb (prevBlank node2)
  else PrimFloat.ltb (score node2) (score node1).

(** The test of the sweep in [mergeCandidates]: candidate [c] does not
    share the equivalence key of the last kept one. *)
Definition distinctNodes (c last : State) : bool :=
  negb (lm_compare (lmState c) (lmState last) =? 0)
  || negb (lex c =? lex last)
  || negb (token c =? token last)
  || negb (eqb (prevBlank c) (prevBlank last)).

(** The loop [for (i = 1; ...)] of [mergeCandidates]: [last] is
    [candidatePtrs_[nHypAfterMerging - 1]], [kept] the entries before it
    (latest first), [rest] the entries from [i] on. *)
Fixpoint mergeSweep (logAdd : bool) (last : State) (kept rest : list State)
  : list State :=
  match rest with
  | [] => reverse (last :: kept)
  | c :: rest' =>
      if distinctNodes c last
      then mergeSweep logAdd c (last :: kept) rest'
      else mergeSweep logAdd (mergeStates last c logAdd) kept rest'
  end.

(** [mergeCandidates].  On an empty [candidatePtrs_] the C++ code resizes
    the vector to one null pointer and returns; the pointer array of the
    model holds no null pointer, and [None] stands for this array, which
    [storeTopCandidates] goes on to dereference. *)
Definition mergeCandidates (d : Decoder) : option Decoder :=
  match std_sort compareNodesShortList (candidatePtrs_ d) with
  | [] => None
  | first :: rest =>
      Some (set_candidates (candidatesBestScore_ d) (candidates_ d)
              (mergeSweep (logAdd (opt_ d)) first [] rest) d)
  end.

Definition candidatesAdd (c : State) (d : Decoder) : Decoder :=
  let '(valid, best) :=
    isValidCandidate (candidatesBestScore_ d) (score c)
      (beamThreshold (opt_ d)) in
  set_candidates best
    (if valid then candidates_ d ++ [c] else candidates_ d)
    (candidatePtrs_ d) d.

(** Modelled from the spec: [pruneCandidates] of Utils.h (section 4.2, step
    1): pointers to the staged entries whose score ≥ threshold are appended
    to the pointer array. *)
Definition pruneCandidates (ptrs candidates : list State) (threshold : float)
  : list State :=
  ptrs ++ filter (λ c, PrimFloat.leb threshold (score c) = true) candidates.

Definition compareNodeScore (node1 node2 : State) : bool :=
  PrimFloat.ltb (score node2) (score node1).

(** Modelled from the spec: [storeTopCandidates] of Utils.h (section 4.2,
    steps 3 and 4): at most [beamSize] entries are selected by score and
    copied out, in descending score order when [returnSorted]; "otherwise
    any order suffices", and the entries are left as they stand when all of
    them fit.  The result is (nextHyp, candidatePtrs). *)
Definition storeTopCandidates (ptrs : list State) (beamSize : Z)
    (returnSorted : bool) : list State * list State :=
  let nValidHyp := Z.of_nat (length ptrs) in
  let finalSize := Z.min nValidHyp beamSize in
  let ptrs' := if returnSorted || (beamSize <? nValidHyp)
               then std_sort compareNodeScore ptrs else ptrs in
  (take (Z.to_nat finalSize) ptrs', ptrs').

(** [candidatesStore(hyp_[k], returnSorted)]. *)
Definition candidatesStore (k : Z) (returnSorted : bool) (d : Decoder)
  : option Decoder :=
  match candidates_ d with
  | [] => Some (set_hyp (<[k := []]> (hyp_ d)) d)
  | _ :: _ =>
      let d1 :=
        set_candidates (candidatesBestScore_ d) (candidates_ d)
          (pruneCandidates (candidatePtrs_ d) (candidates_ d)
             (PrimFloat.sub (candidatesBestScore_ d)
                (beamThreshold (opt_ d)))) d in
      d2 ← mergeCandidates d1;
      let '(nextHyp, ptrs) :=
        storeTopCandidates (candidatePtrs_ d2) (beamSize (opt_ d2))
          returnSorted in
      Some (set_hyp (<[k := nextHyp]> (hyp_ d2))
              (set_candidates (candidatesBestScore_ d2) (candidates_ d2)
                 ptrs d2))
  end.

(** *** Control flow helpers *)

(** A [for] loop over [l] whose body may fail. *)
Fixpoint forM {S A} (body : A → S → option S) (l : list A) (s : S)
  : option S :=
  match l with
  | [] => Some s
  | a :: l' => s' ← body a s; forM body l' s'
  end.

(** The candidates that a loop offers, one list per iteration. *)
Definition collect {A B} (f : A → option (list B)) (l : list A)
  : option (list B) :=
  @List.concat B <$> mapM f l.

(** *** decodeBegin *)

Definition decodeBegin (d : Decoder) : Decoder :=
  set_frames 0 0
    (set_hyp
       {[ 0 := [ mkState _ (lm_start false) (getRoot (lexicon_ d)) None
                   0%float (sil_ d) (-1) false ] ]}
       d).

(** *** decodeStep *)

(** The block "Extend hyp_ buffer". *)
Definition extendHyp (bound : Z) (h : gmap Z (list State))
  : gmap Z (list State) :=
  let n := Z.of_nat (size h) in
  if n <? bound then foldl (λ h i, hyp_touch i h) h (seqZ n (bound - n))
  else h.

(** [idx] after [std::iota] and the [std::partial_sort] by descending
    emission: the first [beamSizeToken] entries are the best tokens in
    order (the entries behind them are never read).  The comparator reads
    the whole row [t] of [emissions]. *)
Definition tokenOrder (emissions : list float) (t N beamSizeToken : Z)
  : option (list Z) :=
  let idx := seqZ 0 N in
  if beamSizeToken <? N then
    if beamSizeToken <? 0 then None
    else
      row ← mapM (λ l, read emissions (t * N + l)) idx;
      Some (std_partial_sort
              (λ l r, PrimFloat.ltb (default 0%float (read row r))
                        (default 0%float (read row l)))
              (Z.to_nat beamSizeToken) idx)
  else Some idx.

(** The acoustic part of the score in rules (1) and (2):
    [prevHyp.score + emissions[t * N + n]], plus the transition under ASG
    after the first frame, plus the silence bonus. *)
Definition acousticScore (d : Decoder) (emissions : list float) (t N : Z)
    (prevHyp : State) (n : Z) : option float :=
  e ← read emissions (t * N + n);
  let score := PrimFloat.add (score prevHyp) e in
  score ←
    (if (0 <? nDecodedFrames_ d + t) && isASG (criterionType (opt_ d))
     then tr ← read (transitions_ d) (n * N + token prevHyp);
          Some (PrimFloat.add score tr)
     else Some score);
  Some (if n =? sil_ d then PrimFloat.add score (silScore (opt_ d))
        else score).

(** Body of the loop "(1) Try children" for token [n]; [j] is the slot of
    [prevHyp] in its frame.  The result lists the calls of [candidatesAdd]
    in program order. *)
Definition tryChildren (d : Decoder) (emissions : list float) (t N : Z)
    (j : nat) (prevHyp : State) (lexMaxScore : float) (n : Z)
  : option (list State) :=
  prevNode ← nodes (lexicon_ d) !! lex prevHyp;
  match children prevNode !! n with
  | None => Some []
  | Some lexPtr =>
      lexNode ← nodes (lexicon_ d) !! lexPtr;
      score ← acousticScore d emissions t N prevHyp n;
      let o := opt_ d in
      let tokenLm := lm_score (lmState prevHyp) n in
      let eat :=
        if (negb (isCTC (criterionType o)) || prevBlank prevHyp
            || negb (n =? token prevHyp))
           && negb (bool_decide (children lexNode = ∅))
        then
          let '(lmState, lmScore) :=
            if isLmToken_ d then tokenLm
            else (lmState prevHyp,
                  float_sub (maxScore lexNode) lexMaxScore) in
          [ mkState _ lmState lexPtr (Some j)
              (PrimFloat.add score (PrimFloat.mul (lmWeight o) lmScore))
              n (-1) false ]
        else [] in
      let wordOf (label : Z) (bonus : float) :=
        let '(lmState, lmScore) :=
          if isLmToken_ d then tokenLm
          else let lmReturn := lm_score (lmState prevHyp) label in
               (lmReturn.1, float_sub lmReturn.2 lexMaxScore) in
        mkState _ lmState (getRoot (lexicon_ d)) (Some j)
          (PrimFloat.add
             (PrimFloat.add score (PrimFloat.mul (lmWeight o) lmScore))
             bonus)
          n label false in
      let trueWords :=
        (λ label, wordOf label (wordScore o)) <$> labels lexNode in
      let unknown :=
        if bool_decide (labels lexNode = [])
           && PrimFloat.ltb kNegativeInfinity (unkScore o)
        then [ wordOf (unk_ d) (unkScore o) ]
        else [] in
      Some (eat ++ trueWords ++ unknown)
  end.

(** "(2) Try same lexicon node". *)
Definition trySameNode (d : Decoder) (emissions : list float) (t N : Z)
    (j : nat) (prevHyp : State) : option (list State) :=
  if negb (isCTC (criterionType (opt_ d))) || negb (prevBlank prevHyp) then
    let n := token prevHyp in
    score ← acousticScore d emissions t N prevHyp n;
    Some [ mkState _ (lmState prevHyp) (lex prevHyp) (Some j) score n (-1)
             false ]
  else Some [].

(** "(3) CTC only, try blank". *)
Definition tryBlank (d : Decoder) (emissions : list float) (t N : Z)
    (j : nat) (prevHyp : State) : option (list State) :=
  if isCTC (criterionType (opt_ d)) then
    let n := blank_ d in
    e ← read emissions (t * N + n);
    Some [ mkState _ (lmState prevHyp) (lex prevHyp) (Some j)
             (PrimFloat.add (score prevHyp) e) n (-1) true ]
  else Some [].

(** Body of the loop over [hyp_[startFrame + t]]: every call of
    [candidatesAdd] made for [prevHyp], in program order. *)
Definition expandHyp (d : Decoder) (emissions : list float) (t N : Z)
    (idx : list Z) (j : nat) (prevHyp : State) : option (list State) :=
  lexMaxScore ←
    (if lex prevHyp =? getRoot (lexicon_ d) then Some (to_float 0)
     else to_float ∘ maxScore <$> nodes (lexicon_ d) !! lex prevHyp);
  r1 ← collect (tryChildren d emissions t N j prevHyp lexMaxScore)
         (take (Z.to_nat (Z.min (beamSizeToken (opt_ d)) N)) idx);
  r2 ← trySameNode d emissions t N j prevHyp;
  r3 ← tryBlank d emissions t N j prevHyp;
  Some (r1 ++ r2 ++ r3).

(** Body of the loop over [t].  The LM is a pure function here, so
    [updateLMCache] has nothing to update. *)
Definition decodeFrame (emissions : list float) (N startFrame : Z) (t : Z)
    (d : Decoder) : option Decoder :=
  idx ← tokenOrder emissions t N (beamSizeToken (opt_ d));
  let d := candidatesReset d in
  let d := set_hyp (hyp_touch (startFrame + t) (hyp_ d)) d in
  offered ← collect (λ jp, expandHyp d emissions t N idx jp.1 jp.2)
              (imap pair (hyp_at (startFrame + t) (hyp_ d)));
  candidatesStore (startFrame + t + 1) false
    (foldl (λ d c, candidatesAdd c d) d offered).

(** [std::vector<size_t> idx(N)] throws on a negative [N]. *)
Definition decodeStep (emissions : list float) (T N : Z) (d : Decoder)
  : option Decoder :=
  let startFrame := nDecodedFrames_ d - nPrunedFrames_ d in
  let d := set_hyp (extendHyp (startFrame + T + 2) (hyp_ d)) d in
  if N <? 0 then None
  else
    d ← forM (decodeFrame emissions N startFrame) (seqZ 0 T) d;
    Some (set_frames (nDecodedFrames_ d + T) (nPrunedFrames_ d) d).

(** *** decodeEnd *)

(** The calls of [candidatesAdd] in the second loop of [decodeEnd]. *)
Definition finishHyps (d : Decoder) (hasNiceEnding : bool)
    (prev : list State) : list State :=
  mjoin (imap (λ j prevHyp,
    if negb hasNiceEnding || (lex prevHyp =? getRoot (lexicon_ d)) then
      let lmStateScorePair := lm_finish (lmState prevHyp) in
      [ mkState _ lmStateScorePair.1 (lex prevHyp) (Some j)
          (PrimFloat.add (score prevHyp)
             (PrimFloat.mul (lmWeight (opt_ d)) lmStateScorePair.2))
          (sil_ d) (-1) false ]
    else []) prev).

Definition decodeEnd (d : Decoder) : option Decoder :=
  let d := candidatesReset d in
  let k := nDecodedFrames_ d - nPrunedFrames_ d in
  let d := set_hyp (hyp_touch k (hyp_ d)) d in
  let prev := hyp_at k (hyp_ d) in
  let hasNiceEnding :=
    existsb (λ prevHyp, lex prevHyp =? getRoot (lexicon_ d)) prev in
  let d := foldl (λ d c, candidatesAdd c d) d
             (finishHyps d hasNiceEnding prev) in
  d ← candidatesStore (k + 1) true d;
  Some (set_frames (nDecodedFrames_ d + 1) (nPrunedFrames_ d) d).

(** *** Backtracking *)

(** The state that [node->parent] points to, [node] being in frame
    [frame]. *)
Definition parentOf (h : gmap Z (list State)) (frame : Z) (node : State)
  : option State :=
  j ← parent node; prev ← h !! (frame - 1); prev !! j.

Fixpoint ancestor (h : gmap Z (list State)) (frame : Z) (node : State)
    (n : nat) : option State :=
  match n with
  | O => Some node
  | S n' => p ← parentOf h frame node; ancestor h (frame - 1) p n'
  end.

(** Modelled from the spec: [findBestAncestor] of Utils.h (section 4.6):
    the highest-scoring state of the frame is taken and its
    [lookBack]-th ancestor returned, null when the frame is empty or the
    parent chain ends before. *)
Definition findBestAncestor (h : gmap Z (list State)) (frame : Z)
    (finalHyps : list State) (lookBack : Z) : option State :=
  match finalHyps with
  | [] => None
  | first :: others =>
      ancestor h frame
        (foldl (λ best node,
                  if PrimFloat.ltb (score best) (score node) then node
                  else best) first others)
        (Z.to_nat lookBack)
  end.

(** The parent chain of [node], latest state first; [frame] counts the
    frames left below [node]. *)
Fixpoint parentChain (h : gmap Z (list State)) (frame : nat) (node : State)
  : list State :=
  node ::
  match frame with
  | O => []
  | S frame' =>
      match parentOf h (Z.of_nat frame) node with
      | Some p => parentChain h frame' p
      | None => []
      end
  end.

(** Modelled from the spec: [getHypothesis] of Utils.h (sections 4.6 and
    7): the parent pointers are walked back from [node], the token and word
    fields collected and reversed; without a node the result is empty. *)
Definition getHypothesis (h : gmap Z (list State)) (node : option State)
    (finalFrame : Z) : DecodeResult :=
  match node with
  | None => emptyDecodeResult
  | Some n =>
      let path := reverse (parentChain h (Z.to_nat finalFrame) n) in
      {| res_score := score n;
         res_words := word <$> path;
         res_tokens := token <$> path |}
  end.

Definition getBestHypothesis (lookBack : Z) (d : Decoder)
  : option DecodeResult :=
  let k := nDecodedFrames_ d - nPrunedFrames_ d in
  if k - lookBack <? 1 then Some emptyDecodeResult
  else
    finalHyps ← hyp_ d !! k;
    Some (getHypothesis (hyp_ d)
            (findBestAncestor (hyp_ d) k finalHyps lookBack)
            (k - lookBack)).

(** Modelled from the spec: [getAllHypothesis] of Utils.h (section 4.6):
    [getHypothesis] mapped over the frame. *)
Definition getAllHypothesis (h : gmap Z (list State))
    (finalHyps : list State) (finalFrame : Z) : list DecodeResult :=
  (λ node, getHypothesis h (Some node) finalFrame) <$> finalHyps.

Definition getAllFinalHypothesis (d : Decoder) : option (list DecodeResult) :=
  let finalFrame := nDecodedFrames_ d - nPrunedFrames_ d in
  if finalFrame <? 1 then Some []
  else
    finalHyps ← hyp_ d !! finalFrame;
    Some (getAllHypothesis (hyp_ d) finalHyps finalFrame).

Definition nHypothesis (d : Decoder) : option Z :=
  finalHyps ← hyp_ d !! (nDecodedFrames_ d - nPrunedFrames_ d);
  Some (Z.of_nat (length finalHyps)).

Definition nDecodedFramesInBuffer (d : Decoder) : Z :=
  nDecodedFrames_ d - nPrunedFrames_ d + 1.

(** *** prune *)

(** Modelled from the spec: [pruneAndNormalize] of Utils.h (section 4.4):
    the frames before [startFrame] are dropped, frame [startFrame + i]
    becoming frame [i], and the score of the best ancestor at [startFrame]
    is subtracted from every remaining state's score. *)
Definition pruneAndNormalize (h : gmap Z (list State))
    (startFrame lookBack : Z) : option (gmap Z (list State)) :=
  a ← findBestAncestor h (startFrame + lookBack)
        (hyp_at (startFrame + lookBack) h) lookBack;
  let rebase (s : State) :=
    mkState _ (lmState s) (lex s) (parent s)
      (PrimFloat.sub (score s) (score a)) (token s) (word s) (prevBlank s) in
  Some (list_to_map
          ((λ i, (i, rebase <$> hyp_at (i + startFrame) h))
             <$> seqZ 0 (lookBack + 1))).

Definition prune (lookBack : Z) (d : Decoder) : option Decoder :=
  let k := nDecodedFrames_ d - nPrunedFrames_ d in
  if k - lookBack <? 1 then Some d
  else
    finalHyps ← hyp_ d !! k;
    match findBestAncestor (hyp_ d) k finalHyps lookBack with
    | None => Some d
    | Some bestNode =>
        let startFrame := k - lookBack in
        if startFrame <? 1 then Some d
        else
          h ← pruneAndNormalize (hyp_ d) startFrame lookBack;
          Some (set_frames (nDecodedFrames_ d)
                  (nDecodedFrames_ d - lookBack) (set_hyp h d))
    end.

(** *** Driving the decoder *)

(** The calls that produce frames. *)
Inductive Call :=
| Step (emissions : list float) (T N : Z)
| End_.

Definition runCall (c : Call) (d : Decoder) : option Decoder :=
  match c with
  | Step emissions T N => decodeStep emissions T N d
  | End_ => decodeEnd d
  end.

(** [decodeBegin], then the calls in order. *)
Definition decode (calls : list Call) (d : Decoder) : option Decoder :=
  forM runCall calls (decodeBegin d).

(** Frame [k] is one that call [c] produces when made on [d]. *)
Definition producedFrame (c : Call) (d : Decoder) (k : Z) : Prop :=
  let startFrame := nDecodedFrames_ d - nPrunedFrames_ d in
  match c with
  | Step _ T _ => startFrame + 1 ≤ k ≤ startFrame + T
  | End_ => k = startFrame + 1
  end.

End Decoder.

(** ** Vocabulary of the specification *)

(** The contract of [LMState::compare] (section 6: "an opaque state handle
    supports a total order and equality"): a three-way comparison. *)
Class LMOrder `{LM} : Prop := {
  lm_compare_flip : ∀ a b, 0 < lm_compare a b ↔ lm_compare b a < 0;
  lm_compare_trans :
    ∀ a b c, 0 ≤ lm_compare a b → 0 ≤ lm_compare b c → 0 ≤ lm_compare a c
}.

(** What is asked of [std::sort] and [std::partial_sort]: the result is a
    permutation of the input, and for a comparator that never puts two
    elements each before the other no element is directly followed by one
    that goes before it, for [std::partial_sort] among the first [middle]
    elements.  The standard promises this for a strict weak ordering; it is
    asked here of every such comparator, as an insertion sort gives it, so
    that scores that are NaN are covered. *)
Class AlgorithmSpec `{Algorithm} : Prop := {
  std_sort_Permutation :
    ∀ {A} (comp : A → A → bool) (l : list A), std_sort comp l ≡ₚ l;
  std_sort_ordered :
    ∀ {A} (comp : A → A → bool) (l : list A),
      (∀ x y, comp x y = true → comp y x = false) →
      Sorted (λ x y, comp y x = false) (std_sort comp l);
  std_partial_sort_Permutation :
    ∀ {A} (comp : A → A → bool) (middle : nat) (l : list A),
      std_partial_sort comp middle l ≡ₚ l;
  std_partial_sort_ordered :
    ∀ {A} (comp : A → A → bool) (middle : nat) (l : list A),
      (∀ x y, comp x y = true → comp y x = false) →
      Sorted (λ x y, comp y x = false)
        (take middle (std_partial_sort comp middle l))
}.

(** Two three-way results combined lexicographically. *)
Definition lexCmp (x y : Z) : Z := if x =? 0 then y else x.

Section Vocabulary.
Context `{lm_ : LM}.

(** The equivalence key (lm state by the LM's compare, lex identity, token,
    prevBlank) compared component by component. *)
Definition keyCmp (a b : LexiconDecoderState) : Z :=
  lexCmp (lm_compare (lmState a) (lmState b))
    (lexCmp (lex a - lex b)
       (lexCmp (token a - token b)
          (Z.b2z (prevBlank a) - Z.b2z (prevBlank b)))).

Definition keyGe (a b : LexiconDecoderState) : Prop := 0 ≤ keyCmp a b.
Definition keyGt (a b : LexiconDecoderState) : Prop := 0 < keyCmp a b.

Definition sameKey (a b : LexiconDecoderState) : Prop :=
  lm_compare (lmState a) (lmState b) = 0 ∧ lex a = lex b
  ∧ token a = token b ∧ prevBlank a = prevBlank b.

(** No two states of a frame share the equivalence key. *)
Definition keysUnique (frame : list LexiconDecoderState) : Prop :=
  ∀ i j a b, frame !! i = Some a → frame !! j = Some b → i ≠ j →
             ¬ sameKey a b.

(** Descending score order: no state scores less than its successor. *)
Definition scoreSorted (frame : list LexiconDecoderState) : Prop :=
  Sorted (λ a b, PrimFloat.ltb (score a) (score b) = false) frame.

(** [s] agrees with [c] on every field but score and parent. *)
Definition sameFields (s c : LexiconDecoderState) : Prop :=
  lmState s = lmState c ∧ lex s = lex c ∧ token s = token c
  ∧ word s = word c ∧ prevBlank s = prevBlank c.

(** [x] is built from the records of [pool]: every field but score and parent
    is that of one of them, and so is the parent. *)
Definition builtFrom (pool : list LexiconDecoderState)
    (x : LexiconDecoderState) : Prop :=
  ∃ c c', c ∈ pool ∧ c' ∈ pool ∧ sameFields x c ∧ parent x = parent c'.

(** Two decoder objects were constructed with the same arguments. *)
Definition sameConfig (d d' : LexiconDecoder) : Prop :=
  opt_ d = opt_ d' ∧ lexicon_ d = lexicon_ d' ∧ sil_ d = sil_ d'
  ∧ blank_ d = blank_ d' ∧ unk_ d = unk_ d'
  ∧ transitions_ d = transitions_ d' ∧ isLmToken_ d = isLmToken_ d'.

(** Two decoder objects hold the same hypothesis buffer and frame counters. *)
Definition sameBeams (d d' : LexiconDecoder) : Prop :=
  hyp_ d = hyp_ d' ∧ nDecodedFrames_ d = nDecodedFrames_ d'
  ∧ nPrunedFrames_ d = nPrunedFrames_ d'.

(** The outcomes of one call sequence on two decoder instances are the
    same: both fail, or both return and hold the same beams. *)
Definition sameOutcome (r r' : option LexiconDecoder) : Prop :=
  match r, r' with
  | Some d, Some d' => sameConfig d d' ∧ sameBeams d d'
  | None, None => True
  | _, _ => False
  end.

(** The arguments of a call are well formed for decoder [d]: a step has
    T ≥ 0 and N ≥ 0, and when the token beam is narrower than N, so that the
    emissions are read to order the tokens, [beamSizeToken] is not negative
    and [emissions] holds the T × N matrix. *)
Definition wellFormedCall (d : LexiconDecoder) (c : Call) : Prop :=
  match c with
  | Step emissions T N =>
      0 ≤ T ∧ 0 ≤ N
      ∧ (beamSizeToken (opt_ d) < N →
         0 ≤ beamSizeToken (opt_ d) ∧ T * N ≤ Z.of_nat (length emissions))
  | End_ => True
  end.

(** A beam threshold that never cuts the best score off: [s - thr ≤ s] in
    double arithmetic for every score above −∞.  A threshold that is
    negative, infinite or NaN is not of this kind. *)
Definition soundThreshold (thr : float) : Prop :=
  ∀ s, PrimFloat.ltb kNegativeInfinity s = true →
       PrimFloat.leb (PrimFloat.sub s thr) s = true.

(** The staging buffer, when not empty, holds a candidate that the pruning
    of [candidatesStore] keeps. *)
Definition bestStaged (d : LexiconDecoder) : Prop :=
  candidates_ d ≠ [] →
  ∃ c, c ∈ candidates_ d
       ∧ PrimFloat.leb
           (PrimFloat.sub (candidatesBestScore_ d) (beamThreshold (opt_ d)))
           (score c) = true.

(** Every child pointer of the trie, and its root, points to a node. *)
Definition closedTrie (tr : Trie) : Prop :=
  is_Some (nodes tr !! getRoot tr)
  ∧ ∀ a node n c, nodes tr !! a = Some node → children node !! n = Some c →
                  is_Some (nodes tr !! c).

(** A state whose lex points into the trie and whose token is one of the N
    tokens. *)
Definition wellFormedState (tr : Trie) (N : Z) (s : LexiconDecoderState)
  : Prop :=
  is_Some (nodes tr !! lex s) ∧ 0 ≤ token s < N.

(** A decoder object that is well formed for emissions over N tokens. *)
Definition wellFormedDecoder (N : Z) (d : LexiconDecoder) : Prop :=
  closedTrie (lexicon_ d)
  ∧ 0 ≤ sil_ d < N
  ∧ (criterionType (opt_ d) = CTC → 0 ≤ blank_ d < N)
  ∧ (criterionType (opt_ d) = ASG →
     N * N ≤ Z.of_nat (length (transitions_ d)))
  ∧ 0 ≤ beamSizeToken (opt_ d)
  ∧ soundThreshold (beamThreshold (opt_ d)).

(** A call whose step, if it is one, brings the T × N emissions. *)
Definition completeCall (N : Z) (c : Call) : Prop :=
  match c with
  | Step emissions T N' =>
      N' = N ∧ 0 ≤ T ∧ 0 ≤ N ∧ T * N ≤ Z.of_nat (length emissions)
  | End_ => True
  end.

(** The frame the decoder currently stands on. *)
Definition currentFrame (d : LexiconDecoder) : Z :=
  nDecodedFrames_ d - nPrunedFrames_ d.

(** The number of frames a call decodes. *)
Definition framesOf (c : Call) : Z :=
  match c with
  | Step _ T _ => T
  | End_ => 1
  end.

Definition totalFrames (calls : list Call) : Z :=
  foldr (λ c n, framesOf c + n) 0 calls.

(** The range of [int], within which the integers of the model are those
    of the program. *)
Definition INT_MIN : Z := -2147483648.
Definition INT_MAX : Z := 2147483647.

Definition inInt (z : Z) : Prop := INT_MIN ≤ z ≤ INT_MAX.

(** The indices [t * N + n] and [n * N + prevIdx] that a step computes for
    its T frames over N tokens stay within [int]. *)
Definition indicesInInt (c : Call) : Prop :=
  match c with
  | Step _ T N => 0 ≤ T ∧ 0 ≤ N ∧ T * N ≤ INT_MAX ∧ N * N ≤ INT_MAX
  | End_ => True
  end.

(** Every frame from 0 to the current one is in the buffer. *)
Definition bufferComplete (d : LexiconDecoder) : Prop :=
  ∀ k, 0 ≤ k ≤ currentFrame d → is_Some (hyp_ d !! k).

(** What [decodeStep] and [decodeEnd] offer for a previous state [p], read
    off the key fields and the word of the candidate [c]: rule (2), rule
    (3), the extension of [decodeEnd], and the three offers of rule (1). *)
Inductive offered (d : LexiconDecoder) (p c : LexiconDecoderState) : Prop :=
| offered_same :
    lmState c = lmState p → lex c = lex p → token c = token p →
    word c = -1 → prevBlank c = false →
    (criterionType (opt_ d) = CTC → prevBlank p = false) →
    offered d p c
| offered_blank :
    lmState c = lmState p → lex c = lex p → token c = blank_ d →
    word c = -1 → prevBlank c = true →
    criterionType (opt_ d) = CTC →
    offered d p c
| offered_finish :
    lmState c = (lm_finish (lmState p)).1 → lex c = lex p →
    token c = sil_ d → word c = -1 → prevBlank c = false →
    offered d p c
| offered_continue (node childNode : TrieNode) :
    nodes (lexicon_ d) !! lex p = Some node →
    children node !! token c = Some (lex c) →
    nodes (lexicon_ d) !! lex c = Some childNode →
    children childNode ≠ ∅ →
    word c = -1 → prevBlank c = false →
    (criterionType (opt_ d) = CTC →
     prevBlank p = true ∨ token c ≠ token p) →
    offered d p c
| offered_word (node : TrieNode) (child : Z) (childNode : TrieNode) :
    nodes (lexicon_ d) !! lex p = Some node →
    children node !! token c = Some child →
    nodes (lexicon_ d) !! child = Some childNode →
    lex c = getRoot (lexicon_ d) →
    word c ∈ labels childNode → prevBlank c = false →
    offered d p c
| offered_unknown (node : TrieNode) (child : Z) (childNode : TrieNode) :
    nodes (lexicon_ d) !! lex p = Some node →
    children node !! token c = Some child →
    nodes (lexicon_ d) !! child = Some childNode →
    lex c = getRoot (lexicon_ d) →
    word c = unk_ d → labels childNode = [] →
    PrimFloat.ltb kNegativeInfinity (unkScore (opt_ d)) = true →
    prevBlank c = false →
    offered d p c.

(** State [s] hangs on the frame [prev]: its fields are those of an offer
    for a state of [prev], and its parent is a slot of [prev]. *)
Definition linkedTo (d : LexiconDecoder) (prev : list LexiconDecoderState)
    (s : LexiconDecoderState) : Prop :=
  (∃ j p, prev !! j = Some p ∧ offered d p s)
  ∧ (∃ j p, prev !! j = Some p ∧ parent s = Some j).

(** Every state of the frames 1 .. current has its parent in the frame
    before. *)
Definition chained (d : LexiconDecoder) : Prop :=
  ∀ k frame s, 1 ≤ k ≤ currentFrame d → hyp_ d !! k = Some frame →
               s ∈ frame → is_Some (parentOf (hyp_ d) k s).

(** The decoder object constructed with other [blank], [unk] and
    [transitions] arguments. *)
Definition withArguments (blank unk : Z) (transitions : list float)
    (d : LexiconDecoder) : LexiconDecoder :=
  {| opt_ := opt_ d; lexicon_ := lexicon_ d; sil_ := sil_ d;
     blank_ := blank; unk_ := unk; transitions_ := transitions;
     isLmToken_ := isLmToken_ d;
     candidates_ := candidates_ d; candidatePtrs_ := candidatePtrs_ d;
     candidatesBestScore_ := candidatesBestScore_ d;
     hyp_ := hyp_ d; nDecodedFrames_ := nDecodedFrames_ d;
     nPrunedFrames_ := nPrunedFrames_ d |}.

(** The arguments differ from those of [d] only where the options of [d]
    make them irrelevant: [blank] outside CTC, [transitions] outside ASG,
    [unk] when [unkScore] is not above -∞. *)
Definition irrelevantFor (d : LexiconDecoder) (blank unk : Z)
    (transitions : list float) : Prop :=
  (criterionType (opt_ d) = CTC → blank = blank_ d)
  ∧ (criterionType (opt_ d) = ASG → transitions = transitions_ d)
  ∧ (PrimFloat.ltb kNegativeInfinity (unkScore (opt_ d)) = true →
     unk = unk_ d).

(** Two decoder objects that differ at most in which empty frames [hyp_]
    holds: each frame reads the same in both, and so does every other
    member. *)
Definition sameFrames (d d' : LexiconDecoder) : Prop :=
  sameConfig d d'
  ∧ candidates_ d = candidates_ d'
  ∧ candidatePtrs_ d = candidatePtrs_ d'
  ∧ candidatesBestScore_ d = candidatesBestScore_ d'
  ∧ nDecodedFrames_ d = nDecodedFrames_ d'
  ∧ nPrunedFrames_ d = nPrunedFrames_ d'
  ∧ ∀ k, hyp_at k (hyp_ d) = hyp_at k (hyp_ d').

(** [d'] is [d] seen δ frames later: [nDecodedFrames_] is δ ahead, every
    frame reads the same, and so does every other member. *)
Definition shiftedBy (δ : Z) (d d' : LexiconDecoder) : Prop :=
  sameConfig d d'
  ∧ candidates_ d' = candidates_ d
  ∧ candidatePtrs_ d' = candidatePtrs_ d
  ∧ candidatesBestScore_ d' = candidatesBestScore_ d
  ∧ nDecodedFrames_ d' = nDecodedFrames_ d + δ
  ∧ nPrunedFrames_ d' = nPrunedFrames_ d
  ∧ ∀ k, hyp_at k (hyp_ d') = hyp_at k (hyp_ d).

End Vocabulary.

(** ** Example instances *)

(** An insertion sort that keeps the order of the elements that [comp] does
    not separate, and one that reverses it. *)
Fixpoint sort_insert {A} (comp : A → A → bool) (x : A) (l : list A) : list A :=
  match l with
  | [] => [x]
  | y :: l' => if comp y x then y :: sort_insert comp x l' else x :: l
  end.

Definition insertion_sort {A} (comp : A → A → bool) (l : list A) : list A :=
  foldr (sort_insert comp) [] l.

Fixpoint sort_insert_last {A} (comp : A → A → bool) (x : A) (l : list A)
  : list A :=
  match l with
  | [] => [x]
  | y :: l' => if comp x y then x :: l else y :: sort_insert_last comp x l'
  end.

Definition insertion_sort_last {A} (comp : A → A → bool) (l : list A)
  : list A :=
  foldr (sort_insert_last comp) [] l.

Definition insertionSort : Algorithm := {|
  std_sort := @insertion_sort;
  std_partial_sort := λ A comp _, insertion_sort comp
|}.

Definition lastInsertionSort : Algorithm := {|
  std_sort := @insertion_sort_last;
  std_partial_sort := λ A comp _, insertion_sort_last comp
|}.

(** A word LM that remembers the last word: every word costs 0.5. *)
Definition lastWordLM : LM := {|
  LMStatePtr := Z;
  lm_start := λ _, -1;
  lm_score := λ _ w, (w, (-0.5)%float);
  lm_finish := λ s, (s, 0%float);
  lm_compare := λ a b, a - b
|}.

(** [exp] and [log1p] by truncated series, for the examples only: the
    argument of [exp] is halved [n] times and the result squared back. *)
Fixpoint exp_series (n : nat) (x : float) : float :=
  match n with
  | O =>
      foldr (λ k acc, PrimFloat.add 1 (PrimFloat.mul (PrimFloat.div x k) acc))
        1%float
        [1; 2; 3; 4; 5; 6; 7; 8; 9; 10; 11; 12; 13; 14]%float
  | S n' =>
      let h := exp_series n' (PrimFloat.div x 2) in PrimFloat.mul h h
  end.

Definition log1p_series (y : float) : float :=
  let z := PrimFloat.div y (PrimFloat.add 2 y) in
  let z2 := PrimFloat.mul z z in
  PrimFloat.mul (PrimFloat.mul 2 z)
    (foldr (λ k acc, PrimFloat.add (PrimFloat.div 1 k) (PrimFloat.mul z2 acc))
       0%float
       [1; 3; 5; 7; 9; 11; 13; 15; 17; 19; 21; 23]%float).

Definition seriesLibm : Libm := {|
  std_exp := exp_series 10;
  std_log1p := log1p_series
|}.

(** CTC over the tokens sil = 0, blank = 1, x = 2; the lexicon spells word 7
    as "x" and word 8 as "xx". *)
Definition ctcOptions : DecoderOptions := {|
  beamSize := 4;
  beamSizeToken := 3;
  beamThreshold := 100%float;
  lmWeight := 1%float;
  wordScore := 1%float;
  unkScore := neg_infinity;
  silScore := 0%float;
  logAdd := true;
  criterionType := CTC
|}.

Definition xTrie : Trie := {|
  getRoot := 100;
  nodes := {[ 100 := {| children := {[ 2 := 101 ]}; labels := [];
                        maxScore := (-0.5)%float |};
              101 := {| children := {[ 2 := 102 ]}; labels := [7];
                        maxScore := (-0.5)%float |};
              102 := {| children := ∅; labels := [8];
                        maxScore := (-0.5)%float |} ]}
|}.

(** A decoder object right after construction. *)
Definition newDecoder : @LexiconDecoder lastWordLM := {|
  opt_ := ctcOptions; lexicon_ := xTrie;
  sil_ := 0; blank_ := 1; unk_ := 9;
  transitions_ := []; isLmToken_ := false;
  candidates_ := []; candidatePtrs_ := [];
  candidatesBestScore_ := 0%float;
  hyp_ := ∅; nDecodedFrames_ := 0; nPrunedFrames_ := 0
|}.

Definition staleState : @LexiconDecoderState lastWordLM :=
  mkState lastWordLM 3 101 (Some 4%nat) (-2)%float 2 (-1) true.

(** The same decoder after some earlier use. *)
Definition usedDecoder : @LexiconDecoder lastWordLM := {|
  opt_ := ctcOptions; lexicon_ := xTrie;
  sil_ := 0; blank_ := 1; unk_ := 9;
  transitions_ := []; isLmToken_ := false;
  candidates_ := [staleState]; candidatePtrs_ := [staleState];
  candidatesBestScore_ := (-2)%float;
  hyp_ := {[ 0 := [staleState]; 4 := [staleState; staleState] ]};
  nDecodedFrames_ := 9; nPrunedFrames_ := 5
|}.

(** Two frames over three tokens, both with almost all mass on x. *)
Definition xxEmissions : list float :=
  [(-5)%float; (-5)%float; (-0.125)%float;
   (-5)%float; (-5)%float; (-0.125)%float].

(** [newDecoder] after [decodeBegin] and the first frame of [xxEmissions]. *)
Definition afterFirstX : @LexiconDecoder lastWordLM :=
  default newDecoder
    (@decode lastWordLM seriesLibm insertionSort [Step (take 3 xxEmissions) 1 3] newDecoder).

(** [newDecoder] after [decodeBegin] and both frames of [xxEmissions]. *)
Definition afterTwoX : @LexiconDecoder lastWordLM :=
  default newDecoder
    (@decode lastWordLM seriesLibm insertionSort [Step xxEmissions 2 3] newDecoder).

(** The same after [decodeEnd] on top. *)
Definition afterEnd : @LexiconDecoder lastWordLM :=
  default newDecoder
    (@decode lastWordLM seriesLibm insertionSort [Step xxEmissions 2 3; End_] newDecoder).

(** Two frames in which no token is possible: every candidate is rejected. *)
Definition deadEmissions : list float :=
  [neg_infinity; neg_infinity; neg_infinity;
   neg_infinity; neg_infinity; neg_infinity].

Definition exhaustedDecoder : @LexiconDecoder lastWordLM :=
  default newDecoder
    (@decode lastWordLM seriesLibm insertionSort [Step deadEmissions 2 3] newDecoder).

(** Two paths into the same equivalence class, each scoring -1. *)
Definition pathA : @LexiconDecoderState lastWordLM :=
  mkState lastWordLM 7 100 (Some 0%nat) (-1)%float 2 7 false.
Definition pathB : @LexiconDecoderState lastWordLM :=
  mkState lastWordLM 7 100 (Some 1%nat) (-1)%float 2 (-1) false.

Definition mergingDecoder : @LexiconDecoder lastWordLM := {|
  opt_ := ctcOptions; lexicon_ := xTrie;
  sil_ := 0; blank_ := 1; unk_ := 9;
  transitions_ := []; isLmToken_ := false;
  candidates_ := [pathA; pathB]; candidatePtrs_ := [pathA; pathB];
  candidatesBestScore_ := (-1)%float;
  hyp_ := ∅; nDecodedFrames_ := 0; nPrunedFrames_ := 0
|}.

(** [newDecoder] with word score 0.5: after "x", emitting word 7 again and
    staying on the x scores the same. *)
Definition tieOptions : DecoderOptions := {|
  beamSize := 4;
  beamSizeToken := 3;
  beamThreshold := 100%float;
  lmWeight := 1%float;
  wordScore := 0.5%float;
  unkScore := neg_infinity;
  silScore := 0%float;
  logAdd := true;
  criterionType := CTC
|}.

Definition tieDecoder : @LexiconDecoder lastWordLM := {|
  opt_ := tieOptions; lexicon_ := xTrie;
  sil_ := 0; blank_ := 1; unk_ := 9;
  transitions_ := []; isLmToken_ := false;
  candidates_ := []; candidatePtrs_ := [];
  candidatesBestScore_ := 0%float;
  hyp_ := ∅; nDecodedFrames_ := 0; nPrunedFrames_ := 0
|}.

(** The two candidates that the second frame of [xxEmissions] offers for
    the state that has just emitted word 7. *)
Definition tieWord : @LexiconDecoderState lastWordLM :=
  mkState lastWordLM 7 100 (Some 0%nat) (-0.25)%float 2 7 false.
Definition tieStay : @LexiconDecoderState lastWordLM :=
  mkState lastWordLM 7 100 (Some 0%nat) (-0.25)%float 2 (-1) false.

(** [newDecoder] with the beam threshold 0: only candidates that reach the
    running best are kept. *)
Definition exactOptions : DecoderOptions := {|
  beamSize := 4;
  beamSizeToken := 3;
  beamThreshold := 0%float;
  lmWeight := 1%float;
  wordScore := 1%float;
  unkScore := neg_infinity;
  silScore := 0%float;
  logAdd := true;
  criterionType := CTC
|}.

Definition exactDecoder : @LexiconDecoder lastWordLM := {|
  opt_ := exactOptions; lexicon_ := xTrie;
  sil_ := 0; blank_ := 1; unk_ := 9;
  transitions_ := []; isLmToken_ := false;
  candidates_ := []; candidatePtrs_ := [];
  candidatesBestScore_ := 0%float;
  hyp_ := ∅; nDecodedFrames_ := 0; nPrunedFrames_ := 0
|}.

(** [mergingDecoder] after [mergeCandidates]. *)
Definition mergedDecoder : @LexiconDecoder lastWordLM :=
  default mergingDecoder (@mergeCandidates lastWordLM seriesLibm insertionSort mergingDecoder).

(** The emitted word 8 and the blank of frame 2 of [afterTwoX], and the
    end of word 8 in the frame that [decodeEnd] adds. *)
Definition wordState : @LexiconDecoderState lastWordLM :=
  mkState lastWordLM 8 100 (Some 1%nat) 0.25%float 2 8 false.
Definition blankState : @LexiconDecoderState lastWordLM :=
  mkState lastWordLM 7 100 (Some 0%nat) (-4.625)%float 1 (-1) true.
Definition endState : @LexiconDecoderState lastWordLM :=
  mkState lastWordLM 8 100 (Some 1%nat) 0.25%float 0 (-1) false.

(** * Properties *)

(** ** Comparison of doubles *)

Lemma SFcompare_Lt_flip (x y : spec_float) :
  SFcompare x y = Some Lt → SFcompare y x = Some Gt.
Proof.
  destruct x as [sx|sx| |sx mx ex], y as [sy|sy| |sy my ey]; simpl;
    try done; try (by destruct sx); try (by destruct sy);
    try (by destruct sx, sy).
  destruct sx, sy; try done;
    rewrite (Z.compare_antisym ex ey);
    (destruct (ex ?= ey)%Z; simpl; try done);
    change (PosDef.Pos.compare_cont Eq my mx)
      with (Pos.compare_cont (CompOpp Eq) my mx);
    rewrite <- (Pos.compare_cont_antisym mx my Eq);
    change (PosDef.Pos.compare_cont Eq mx my)
      with (Pos.compare_cont Eq mx my);
    by destruct (Pos.compare_cont Eq mx my).
Qed.

(** [a < b] and [b < a] never hold together, NaN included. *)
Lemma ltb_asym (x y : float) :
  PrimFloat.ltb x y = true → PrimFloat.ltb y x = false.
Proof.
  rewrite !ltb_spec. unfold SFltb. intros Hlt.
  destruct (SFcompare (Prim2SF x) (Prim2SF y)) as [[]|] eqn:Hc; try done.
  by rewrite (SFcompare_Lt_flip _ _ Hc).
Qed.

Lemma ltb_above_neg_infinity (x y : float) :
  PrimFloat.ltb x y = true → PrimFloat.ltb kNegativeInfinity y = true.
Proof.
  unfold kNegativeInfinity. rewrite !ltb_spec. unfold SFltb.
  change (Prim2SF neg_infinity) with (S754_infinity true).
  destruct (Prim2SF x) as [sx|sx| |sx mx ex], (Prim2SF y) as [sy|[]| |sy my ey];
    simpl; try done; by destruct sx.
Qed.

Lemma SFcompare_refl (x : spec_float) :
  x ≠ S754_nan → SFcompare x x = Some Eq.
Proof.
  destruct x as [s|s| |s m e]; simpl; try done; intros _.
  - by destruct s.
  - rewrite Z.compare_refl.
    change (PosDef.Pos.compare_cont Eq m m) with (Pos.compare_cont Eq m m).
    rewrite Pos.compare_cont_refl. by destruct s.
Qed.

Lemma SFcompare_Lt_trans (x y z : spec_float) :
  SFcompare x y = Some Lt → SFcompare y z = Some Lt →
  SFcompare x z = Some Lt.
Proof.
  destruct x as [sx|sx| |sx mx ex], y as [sy|sy| |sy my ey],
    z as [sz|sz| |sz mz ez]; simpl;
    try done; try (by destruct sx); try (by destruct sy);
    try (by destruct sz); try (by destruct sx, sy);
    try (by destruct sy, sz); try (by destruct sx, sz);
    try (by destruct sx, sy, sz).
  change (PosDef.Pos.compare_cont Eq) with (Pos.compare) in *.
  destruct sx, sy, sz; try done;
    destruct (Z.compare_spec ex ey), (Z.compare_spec ey ez),
      (Z.compare_spec ex ez); try done; try lia; subst;
    repeat match goal with
           | |- context [Pos.compare ?a ?b] =>
               destruct (Pos.compare_spec a b)
           | H : context [Pos.compare ?a ?b] |- _ =>
               destruct (Pos.compare_spec a b)
           end; simpl in *; try done; try lia.
Qed.

(** [<] on doubles is transitive, NaN included. *)
Lemma ltb_trans (x y z : float) :
  PrimFloat.ltb x y = true → PrimFloat.ltb y z = true →
  PrimFloat.ltb x z = true.
Proof.
  rewrite !ltb_spec. unfold SFltb. intros Hxy Hyz.
  destruct (SFcompare (Prim2SF x) (Prim2SF y)) as [[]|] eqn:Hc1; try done.
  destruct (SFcompare (Prim2SF y) (Prim2SF z)) as [[]|] eqn:Hc2; try done.
  by rewrite (SFcompare_Lt_trans _ _ _ Hc1 Hc2).
Qed.

(** The threshold 0 cuts nothing off: [s - 0] is [s]. *)
Lemma soundThreshold_zero : soundThreshold 0%float.
Proof.
  intros s Hs. rewrite leb_spec, sub_spec. unfold kNegativeInfinity in Hs.
  rewrite ltb_spec in Hs. unfold SFltb, SFleb in *.
  change (Prim2SF 0) with (S754_zero false).
  change (Prim2SF neg_infinity) with (S754_infinity true) in Hs.
  assert (Hsub : SF64sub (Prim2SF s) (S754_zero false) = Prim2SF s).
  { by destruct (Prim2SF s) as [[]|[]| |]. }
  rewrite Hsub, SFcompare_refl; [done|].
  intros Hnan. by rewrite Hnan in Hs.
Qed.

(** ** Sorting *)

Section InsertionSort.
Context {A : Type} (comp : A → A → bool).

Lemma sort_insert_Permutation (x : A) (l : list A) :
  sort_insert comp x l ≡ₚ x :: l.
Proof.
  induction l as [|y l IH]; simpl; [done|].
  destruct (comp y x); [|done].
  rewrite IH. apply Permutation_swap.
Qed.

Lemma insertion_sort_Permutation (l : list A) : insertion_sort comp l ≡ₚ l.
Proof.
  induction l as [|x l IH]; simpl; [done|].
  by rewrite sort_insert_Permutation, IH.
Qed.

Lemma sort_insert_last_Permutation (x : A) (l : list A) :
  sort_insert_last comp x l ≡ₚ x :: l.
Proof.
  induction l as [|y l IH]; simpl; [done|].
  destruct (comp x y); [done|].
  rewrite IH. apply Permutation_swap.
Qed.

Lemma insertion_sort_last_Permutation (l : list A) :
  insertion_sort_last comp l ≡ₚ l.
Proof.
  induction l as [|x l IH]; simpl; [done|].
  by rewrite sort_insert_last_Permutation, IH.
Qed.

Hypothesis comp_asym : ∀ x y, comp x y = true → comp y x = false.

Local Abbreviation ordered := (Sorted (λ x y, comp y x = false)).

Lemma sort_insert_ordered (x : A) (l : list A) :
  ordered l → ordered (sort_insert comp x l).
Proof.
  induction 1 as [|y l Hl IH Hhd]; simpl.
  - by repeat constructor.
  - destruct (comp y x) eqn:Hyx.
    + constructor; [done|].
      destruct Hhd as [|z l Hyz]; simpl in *.
      * constructor. by apply comp_asym.
      * destruct (comp z x); constructor; [done|by apply comp_asym].
    + constructor; [by constructor|]. by constructor.
Qed.

Lemma insertion_sort_ordered (l : list A) : ordered (insertion_sort comp l).
Proof.
  induction l as [|x l IH]; simpl; [constructor|].
  by apply sort_insert_ordered.
Qed.

Lemma sort_insert_last_ordered (x : A) (l : list A) :
  ordered l → ordered (sort_insert_last comp x l).
Proof.
  induction 1 as [|y l Hl IH Hhd]; simpl.
  - by repeat constructor.
  - destruct (comp x y) eqn:Hxy.
    + constructor; [by constructor|]. constructor. by apply comp_asym.
    + constructor; [done|].
      destruct Hhd as [|z l Hyz]; simpl in *.
      * by constructor.
      * destruct (comp x z); by constructor.
Qed.

Lemma insertion_sort_last_ordered (l : list A) :
  ordered (insertion_sort_last comp l).
Proof.
  induction l as [|x l IH]; simpl; [constructor|].
  by apply sort_insert_last_ordered.
Qed.
End InsertionSort.

Lemma Sorted_take {A} (R : relation A) (n : nat) (l : list A) :
  Sorted R l → Sorted R (take n l).
Proof.
  intros Hl. revert n. induction Hl as [|x l Hl IH Hx]; intros [|n]; simpl;
    try constructor; [done|].
  destruct Hx; destruct n; simpl; by constructor.
Qed.

(** Both insertion sorts are implementations of the standard's sorts. *)
Lemma insertionSort_spec : @AlgorithmSpec insertionSort.
Proof.
  split; simpl; intros.
  - apply insertion_sort_Permutation.
  - by apply insertion_sort_ordered.
  - apply insertion_sort_Permutation.
  - by apply Sorted_take, insertion_sort_ordered.
Qed.

Lemma lastInsertionSort_spec : @AlgorithmSpec lastInsertionSort.
Proof.
  split; simpl; intros.
  - apply insertion_sort_last_Permutation.
  - by apply insertion_sort_last_ordered.
  - apply insertion_sort_last_Permutation.
  - by apply Sorted_take, insertion_sort_last_ordered.
Qed.

Section StdSort.
Context `{AlgorithmSpec} {A : Type} (comp : A → A → bool).

Lemma std_sort_length (l : list A) : length (std_sort comp l) = length l.
Proof. by rewrite std_sort_Permutation. Qed.

Lemma Sorted_impl {B} (R R' : relation B) (l : list B) :
  (∀ x y, R x y → R' x y) → Sorted R l → Sorted R' l.
Proof.
  intros Himpl. induction 1 as [|x l Hl IH Hhd]; constructor; [done|].
  destruct Hhd; constructor. by apply Himpl.
Qed.

(** The output is sorted for every relation [R] that holds of [x] and [y]
    whenever [y] does not go before [x]. *)
Context (R : relation A).
Hypothesis comp_asym : ∀ x y, comp x y = true → comp y x = false.
Hypothesis comp_false : ∀ x y, comp y x = false → R x y.

Lemma std_sort_Sorted (l : list A) : Sorted R (std_sort comp l).
Proof.
  eapply Sorted_impl; [|by apply std_sort_ordered]. intros x y. apply comp_false.
Qed.

Lemma std_sort_StronglySorted `{!Transitive R} (l : list A) :
  StronglySorted R (std_sort comp l).
Proof. apply Sorted_StronglySorted; [done|apply std_sort_Sorted]. Qed.

Lemma std_partial_sort_Sorted (middle : nat) (l : list A) :
  Sorted R (take middle (std_partial_sort comp middle l)).
Proof.
  eapply Sorted_impl; [|by apply std_partial_sort_ordered].
  intros x y. apply comp_false.
Qed.
End StdSort.

(** Where [comp] orders any two entries of [l], there is one way to sort
    [l]. *)
Lemma total_order_sorted_unique {A} (comp : A → A → bool) (l l1 l2 : list A) :
  (∀ x y, comp x y = true → comp y x = false) →
  (∀ x y z, comp x y = true → comp y z = true → comp x z = true) →
  (∀ i j a b, l !! i = Some a → l !! j = Some b → i ≠ j →
              comp a b = true ∨ comp b a = true) →
  l1 ≡ₚ l → l2 ≡ₚ l →
  Sorted (λ x y, comp y x = false) l1 →
  Sorted (λ x y, comp y x = false) l2 →
  l1 = l2.
Proof.
  intros Hasym Htrans Htotal Hl1 Hl2 Hs1 Hs2.
  assert (Hnodup : NoDup l).
  { apply NoDup_alt. intros i j x Hi Hj.
    destruct (decide (i = j)) as [|Hij]; [done|].
    destruct (Htotal i j x x Hi Hj Hij) as [Hxx|Hxx];
      by rewrite (Hasym x x Hxx) in Hxx. }
  assert (Helem : ∀ a b, a ∈ l → b ∈ l → a ≠ b →
                         comp a b = true ∨ comp b a = true).
  { intros a b [i Hi]%list_elem_of_lookup [j Hj]%list_elem_of_lookup Hab.
    apply (Htotal i j); [done..|]. intros ->. congruence. }
  assert (Hstrong : ∀ l', l' ≡ₚ l → Sorted (λ x y, comp y x = false) l' →
                          StronglySorted (λ x y, comp x y = true) l').
  { intros l' Hl' Hs'. apply Sorted_StronglySorted.
    { intros x y z. apply Htrans. }
    rewrite <- Hl' in Hnodup.
    assert (Hin : ∀ x, x ∈ l' → x ∈ l) by (intros x; by rewrite Hl').
    clear Hl'. induction Hs' as [|x l' Hs' IH Hhd]; [constructor|].
    apply NoDup_cons in Hnodup as [Hx Hnodup].
    constructor; [apply IH; [done|intros y Hy; apply Hin; by right]|].
    destruct Hhd as [|y l' Hyx]; constructor.
    destruct (Helem x y) as [Hxy|Hxy]; [apply Hin; by left| |
      intros ->; apply Hx; by left|done|congruence].
    apply Hin. right. by left. }
  apply (StronglySorted_unique_strong (λ x y, comp x y = true)).
  - intros x y _ _ Hxy Hyx. by rewrite (Hasym x y Hxy) in Hyx.
  - by apply Hstrong.
  - by apply Hstrong.
  - by rewrite Hl1, Hl2.
Qed.

Section DecoderProperties.
Context `{lm_ : LM} `{libm : Libm} `{alg : Algorithm} `{!AlgorithmSpec}.

Local Abbreviation State := LexiconDecoderState.
Local Abbreviation Decoder := LexiconDecoder.

(** ** prune *)

(** C5: when [nDecodedFrames_ - nPrunedFrames_ - lookBack < 1], [prune]
    returns and the decoder object is exactly what it was: hypothesis
    buffer, scores and both frame counters. *)
Theorem prune_insufficient_history (lookBack : Z) (d : Decoder) :
  nDecodedFrames_ d - nPrunedFrames_ d - lookBack < 1 →
  prune lookBack d = Some d.
Proof.
  intros Hguard. unfold prune.
  by rewrite (proj2 (Z.ltb_lt _ _) Hguard).
Qed.

Lemma findBestAncestor_nil (h : gmap Z (list State)) (frame lookBack : Z) :
  findBestAncestor h frame [] lookBack = None.
Proof. reflexivity. Qed.

(** C10: when the frame-count guard passes but [findBestAncestor] over the
    current frame returns null, as it does on an empty frame, [prune]
    returns with the decoder object unchanged; a call that changes the
    object has found an ancestor. *)
Theorem prune_no_ancestor (lookBack : Z) (d : Decoder)
    (finalHyps : list State) :
  let k := nDecodedFrames_ d - nPrunedFrames_ d in
  1 ≤ k - lookBack →
  hyp_ d !! k = Some finalHyps →
  (findBestAncestor (hyp_ d) k finalHyps lookBack = None →
   prune lookBack d = Some d)
  ∧ (finalHyps = [] → prune lookBack d = Some d)
  ∧ (∀ d', prune lookBack d = Some d' → d' ≠ d →
       is_Some (findBestAncestor (hyp_ d) k finalHyps lookBack)).
Proof.
  intros k Hguard Hframe.
  assert (Hnone : findBestAncestor (hyp_ d) k finalHyps lookBack = None →
                  prune lookBack d = Some d).
  { intros Hnull. unfold prune. fold k.
    rewrite (proj2 (Z.ltb_ge _ _) Hguard), Hframe. simpl.
    by rewrite Hnull. }
  split; [exact Hnone|]. split.
  - intros ->. by apply Hnone.
  - intros d' Hprune Hchanged.
    destruct (findBestAncestor (hyp_ d) k finalHyps lookBack) eqn:Hbest;
      [by eexists|].
    rewrite (Hnone eq_refl) in Hprune. congruence.
Qed.

(** ** Candidates offered by one expansion *)

Lemma collect_Some {A B} (f : A → option (list B)) (l : list A)
    (r : list B) :
  collect f l = Some r →
  ∀ c, c ∈ r → ∃ a r', a ∈ l ∧ f a = Some r' ∧ c ∈ r'.
Proof.
  unfold collect. intros Hr c Hc.
  apply fmap_Some in Hr as (rs & Hrs & ->).
  apply mapM_Some in Hrs.
  apply list_elem_of_In, in_concat in Hc as (r' & Hr' & Hc).
  apply list_elem_of_In in Hr', Hc.
  apply list_elem_of_lookup in Hr' as [i Hi].
  destruct (Forall2_lookup_r _ _ _ _ _ Hrs Hi) as (a & Ha & Hfa).
  exists a, r'. split_and!; [|done..].
  apply list_elem_of_lookup. by exists i.
Qed.

Lemma tryChildren_prevBlank d emissions t N j prevHyp lexMaxScore n r :
  tryChildren d emissions t N j prevHyp lexMaxScore n = Some r →
  ∀ c, c ∈ r → prevBlank c = false.
Proof.
  unfold tryChildren. intros Hr c Hc.
  destruct (nodes (lexicon_ d) !! lex prevHyp) as [prevNode|]; [|done].
  simpl in Hr.
  destruct (children prevNode !! n) as [lexPtr|];
    [|injection Hr as <-; by apply elem_of_nil in Hc].
  destruct (nodes (lexicon_ d) !! lexPtr) as [lexNode|]; [|done].
  simpl in Hr.
  destruct (acousticScore d emissions t N prevHyp n) as [sc|]; [|done].
  simpl in Hr. injection Hr as <-.
  rewrite !elem_of_app in Hc. destruct Hc as [Hc|[Hc|Hc]].
  - repeat case_match; try (by apply elem_of_nil in Hc);
      apply list_elem_of_singleton in Hc; by subst.
  - apply list_elem_of_fmap in Hc as (label & -> & _).
    by repeat case_match.
  - repeat case_match; try (by apply elem_of_nil in Hc);
      apply list_elem_of_singleton in Hc; by subst.
Qed.

Lemma trySameNode_prevBlank d emissions t N j prevHyp r :
  trySameNode d emissions t N j prevHyp = Some r →
  ∀ c, c ∈ r → prevBlank c = false.
Proof.
  unfold trySameNode. intros Hr c Hc.
  case_match; simplify_option_eq; [|by apply elem_of_nil in Hc].
  apply list_elem_of_singleton in Hc. by subst.
Qed.

(** C7: under CTC, the expansion of a previous state [prevHyp] offers
    exactly one candidate with [prevBlank = true]: the blank candidate of
    rule (3), with lex, LM state and parent those of [prevHyp], token
    [blank_], word [-1] and score [prevHyp.score + emissions[t * N + blank_]],
    whatever [sil_], [silScore] and [transitions_] are. *)
Theorem ctc_blank_candidate (d : Decoder) (emissions : list float)
    (t N : Z) (idx : list Z) (j : nat) (prevHyp : State)
    (offered : list State) :
  criterionType (opt_ d) = CTC →
  expandHyp d emissions t N idx j prevHyp = Some offered →
  ∃ e, read emissions (t * N + blank_ d) = Some e
    ∧ tryBlank d emissions t N j prevHyp
      = Some [ mkState _ (lmState prevHyp) (lex prevHyp) (Some j)
                 (PrimFloat.add (score prevHyp) e) (blank_ d) (-1) true ]
    ∧ filter (λ c, prevBlank c = true) offered
      = [ mkState _ (lmState prevHyp) (lex prevHyp) (Some j)
            (PrimFloat.add (score prevHyp) e) (blank_ d) (-1) true ].
Proof.
  intros Hctc Hexp. unfold expandHyp in Hexp.
  apply bind_Some in Hexp as (lexMaxScore & _ & Hexp).
  apply bind_Some in Hexp as (r1 & Hr1 & Hexp).
  apply bind_Some in Hexp as (r2 & Hr2 & Hexp).
  apply bind_Some in Hexp as (r3 & Hr3 & Hexp).
  injection Hexp as <-.
  unfold tryBlank in *. rewrite Hctc in *. simpl in *.
  destruct (read emissions (t * N + blank_ d)) as [e|]; [|done].
  simpl in Hr3. injection Hr3 as <-.
  exists e. split_and!; [done..|].
  rewrite !filter_app.
  assert (Hnil : ∀ r : list State,
             (∀ c, c ∈ r → prevBlank c = false) →
             filter (λ c, prevBlank c = true) r = []).
  { induction r as [|c r IH]; intros Hall; [done|].
    rewrite filter_cons_False, IH; [done|..].
    - intros c' Hc'. apply Hall. by right.
    - rewrite (Hall c); [done|by left]. }
  rewrite (Hnil r1), (Hnil r2); [done|..].
  - by eapply trySameNode_prevBlank.
  - intros c Hc.
    destruct (collect_Some _ _ _ Hr1 c Hc) as (n & r' & _ & Hn & Hc').
    by eapply tryChildren_prevBlank.
Qed.

(** ** The merge comparator and the equivalence key *)

Lemma lexCmp_flip (x y x' y' : Z) :
  (0 < x ↔ x' < 0) → (0 < x' ↔ x < 0) →
  (0 < y ↔ y' < 0) → (0 < y' ↔ y < 0) →
  (0 < lexCmp x y ↔ lexCmp x' y' < 0)
  ∧ (0 < lexCmp x' y' ↔ lexCmp x y < 0).
Proof.
  unfold lexCmp.
  destruct (Z.eqb_spec x 0), (Z.eqb_spec x' 0); lia.
Qed.

Lemma keyCmp_flip `{!LMOrder} (a b : State) :
  (0 < keyCmp a b ↔ keyCmp b a < 0) ∧ (0 < keyCmp b a ↔ keyCmp a b < 0).
Proof.
  unfold keyCmp.
  pose proof (lm_compare_flip (lmState a) (lmState b)).
  pose proof (lm_compare_flip (lmState b) (lmState a)).
  repeat (apply lexCmp_flip; try done; try lia);
    destruct (prevBlank a), (prevBlank b); simpl; lia.
Qed.

Lemma keyCmp_zero_sym `{!LMOrder} (a b : State) :
  keyCmp a b = 0 → keyCmp b a = 0.
Proof. pose proof (keyCmp_flip a b). lia. Qed.

Lemma lexCmp_trans (x1 x2 x3 y1 y2 y3 : Z) :
  (* x1 = c a b, x2 = c b d, x3 = c a d *)
  (0 ≤ x1 → 0 ≤ x2 → 0 ≤ x3) →
  (0 < x1 → 0 ≤ x2 → 0 < x3) →
  (0 ≤ x1 → 0 < x2 → 0 < x3) →
  (0 ≤ y1 → 0 ≤ y2 → 0 ≤ y3) →
  0 ≤ lexCmp x1 y1 → 0 ≤ lexCmp x2 y2 → 0 ≤ lexCmp x3 y3.
Proof.
  unfold lexCmp.
  destruct (Z.eqb_spec x1 0), (Z.eqb_spec x2 0), (Z.eqb_spec x3 0); lia.
Qed.

(** A three-way comparison that flips and is transitive is strictly
    transitive as soon as one of the two steps is strict. *)
Lemma threeway_strict {A} (c : A → A → Z) :
  (∀ a b, 0 < c a b ↔ c b a < 0) →
  (∀ a b d, 0 ≤ c a b → 0 ≤ c b d → 0 ≤ c a d) →
  ∀ a b d,
    (0 < c a b → 0 ≤ c b d → 0 < c a d)
    ∧ (0 ≤ c a b → 0 < c b d → 0 < c a d).
Proof.
  intros Hflip Htrans a b d.
  pose proof (Hflip a d). pose proof (Hflip d a).
  pose proof (Hflip a b). pose proof (Hflip b a).
  pose proof (Hflip b d). pose proof (Hflip d b).
  pose proof (Htrans a b d). pose proof (Htrans b d a).
  pose proof (Htrans d a b).
  lia.
Qed.

Lemma keyCmp_trans `{!LMOrder} (a b d : State) :
  0 ≤ keyCmp a b → 0 ≤ keyCmp b d → 0 ≤ keyCmp a d.
Proof.
  unfold keyCmp.
  destruct (threeway_strict (λ x y : State, lm_compare (lmState x) (lmState y))
              (λ x y, lm_compare_flip _ _)
              (λ x y z, lm_compare_trans _ _ _) a b d).
  apply lexCmp_trans; [by apply lm_compare_trans|done..|].
  apply lexCmp_trans; [lia..|].
  apply lexCmp_trans; [lia..|].
  destruct (prevBlank a), (prevBlank b), (prevBlank d); simpl; lia.
Qed.

Lemma keyCmp_strict `{!LMOrder} (a b d : State) :
  (0 < keyCmp a b → 0 ≤ keyCmp b d → 0 < keyCmp a d)
  ∧ (0 ≤ keyCmp a b → 0 < keyCmp b d → 0 < keyCmp a d).
Proof.
  apply (threeway_strict keyCmp).
  - intros x y. apply keyCmp_flip.
  - intros x y z. apply keyCmp_trans.
Qed.

#[local] Instance keyGe_trans `{!LMOrder} : Transitive keyGe.
Proof. intros a b d. apply keyCmp_trans. Qed.

Ltac case_eqb :=
  repeat match goal with
         | |- context [Z.eqb ?x ?y] => destruct (Z.eqb_spec x y)
         | H : context [Z.eqb ?x ?y] |- _ => destruct (Z.eqb_spec x y)
         end.

Lemma distinctNodes_keyCmp (c last : State) :
  distinctNodes c last = negb (keyCmp c last =? 0).
Proof.
  unfold distinctNodes, keyCmp, lexCmp.
  destruct (prevBlank c), (prevBlank last); simpl; case_eqb; simpl;
    try done; lia.
Qed.

Lemma sameKey_keyCmp (a b : State) : sameKey a b ↔ keyCmp a b = 0.
Proof.
  unfold sameKey, keyCmp, lexCmp. split.
  - intros (Hlm & Hlex & Htok & Hpb).
    rewrite Hlm, Hlex, Htok, Hpb, !Z.sub_diag. simpl. lia.
  - case_eqb; try lia.
    destruct (prevBlank a), (prevBlank b); simpl; intros; split_and!;
      try done; lia.
Qed.

Lemma compareNodesShortList_keyCmp (a b : State) :
  compareNodesShortList a b
  = if keyCmp a b =? 0 then PrimFloat.ltb (score b) (score a)
    else 0 <? keyCmp a b.
Proof.
  unfold compareNodesShortList, keyCmp, lexCmp.
  rewrite !Z.gtb_ltb.
  destruct (prevBlank a), (prevBlank b); simpl; case_eqb; simpl;
    try done; try lia;
    repeat match goal with
           | |- context [Z.ltb ?x ?y] => destruct (Z.ltb_spec x y)
           end; try done; lia.
Qed.

(** ** The sweep of [mergeCandidates] *)

Lemma mergeSweep_keys `{!LMOrder} (logAdd : bool) (rest : list State) :
  ∀ last kept,
    StronglySorted keyGt (reverse (last :: kept)) →
    Forall (keyGe last) rest →
    StronglySorted keyGe rest →
    StronglySorted keyGt (mergeSweep logAdd last kept rest).
Proof.
  induction rest as [|c rest IH]; intros last kept Hkept Hlast Hrest; simpl;
    [done|].
  apply Forall_cons in Hlast as [Hc Hlast].
  apply StronglySorted_inv in Hrest as [Hrest Hcrest].
  rewrite reverse_cons in Hkept.
  apply StronglySorted_app in Hkept as (Hlt & Hkept & _).
  rewrite distinctNodes_keyCmp.
  destruct (Z.eqb_spec (keyCmp c last) 0) as [Hsame|Hdiff]; simpl.
  - (* same key: merged into [last] *)
    apply IH; [|by eapply Forall_impl; [exact Hcrest|]; intros z;
                   apply keyCmp_trans|done].
    rewrite reverse_cons. apply StronglySorted_app_2; [|done|by repeat constructor].
    intros x y Hx Hy. apply list_elem_of_singleton in Hy as ->.
    apply (Hlt x last); [done|by apply list_elem_of_singleton].
  - (* a new key: strictly below everything kept *)
    assert (Hstrict : keyGt last c).
    { pose proof (keyCmp_flip last c) as [? ?].
      unfold keyGt, keyGe in *. lia. }
    apply IH; [|done..].
    rewrite !reverse_cons. apply StronglySorted_app_2.
    + intros x y Hx Hy. apply list_elem_of_singleton in Hy as ->.
      apply elem_of_app in Hx as [Hx|Hx].
      * apply (keyCmp_strict x last c); [|done].
        apply Z.lt_le_incl, (Hlt x last); [done|by apply list_elem_of_singleton].
      * by apply list_elem_of_singleton in Hx as ->.
    + apply StronglySorted_app_2; [done..|by repeat constructor].
    + by repeat constructor.
Qed.

Lemma compareNodesShortList_asym `{!LMOrder} (a b : State) :
  compareNodesShortList a b = true → compareNodesShortList b a = false.
Proof.
  rewrite !compareNodesShortList_keyCmp.
  pose proof (keyCmp_flip a b) as [? ?].
  destruct (Z.eqb_spec (keyCmp a b) 0), (Z.eqb_spec (keyCmp b a) 0);
    try lia.
  apply ltb_asym.
Qed.

Lemma compareNodesShortList_trans `{!LMOrder} (a b c : State) :
  compareNodesShortList a b = true → compareNodesShortList b c = true →
  compareNodesShortList a c = true.
Proof.
  rewrite !compareNodesShortList_keyCmp.
  pose proof (keyCmp_strict a b c) as [Hs1 Hs2].
  pose proof (keyCmp_trans a b c) as Hac.
  pose proof (keyCmp_trans c b a) as Hca.
  pose proof (keyCmp_flip a b) as [? ?].
  pose proof (keyCmp_flip b c) as [? ?].
  pose proof (keyCmp_flip a c) as [? ?].
  destruct (Z.eqb_spec (keyCmp a b) 0), (Z.eqb_spec (keyCmp b c) 0),
    (Z.eqb_spec (keyCmp a c) 0); rewrite ?Z.ltb_lt; try lia.
  intros Hba Hcb. by eapply ltb_trans.
Qed.

(** The comparator leaves two candidates unordered exactly when they share
    the key and neither scores higher. *)
Lemma compareNodesShortList_tied `{!LMOrder} (a b : State) :
  compareNodesShortList a b = false ∧ compareNodesShortList b a = false
  ↔ sameKey a b
    ∧ PrimFloat.ltb (score a) (score b) = false
    ∧ PrimFloat.ltb (score b) (score a) = false.
Proof.
  rewrite !compareNodesShortList_keyCmp, sameKey_keyCmp.
  pose proof (keyCmp_flip a b) as [? ?].
  destruct (Z.eqb_spec (keyCmp a b) 0), (Z.eqb_spec (keyCmp b a) 0);
    rewrite ?Z.ltb_ge; [tauto|exfalso; lia..|].
  split; [intros [? ?]; exfalso; lia|by intros [? _]].
Qed.

Lemma compareNodesShortList_keyGe `{!LMOrder} (l : list State) :
  StronglySorted keyGe (std_sort compareNodesShortList l).
Proof.
  apply std_sort_StronglySorted;
    [apply compareNodesShortList_asym| |apply _].
  intros x y. rewrite compareNodesShortList_keyCmp. unfold keyGe.
  pose proof (keyCmp_flip x y) as [? ?].
  destruct (Z.eqb_spec (keyCmp y x) 0), (Z.ltb_spec 0 (keyCmp y x));
    intros; try done; lia.
Qed.

Lemma mergeCandidates_keys `{!LMOrder} (d d' : Decoder) :
  mergeCandidates d = Some d' → StronglySorted keyGt (candidatePtrs_ d').
Proof.
  unfold mergeCandidates. intros Hmerge.
  pose proof (compareNodesShortList_keyGe (candidatePtrs_ d)) as Hsorted.
  destruct (std_sort compareNodesShortList (candidatePtrs_ d))
    as [|first rest]; [done|].
  injection Hmerge as <-. simpl.
  apply StronglySorted_inv in Hsorted as [Hrest Hfirst].
  apply mergeSweep_keys; [by repeat constructor|done..].
Qed.

Lemma StronglySorted_lookup {A} (R : relation A) (l : list A) (i j : nat)
    (a b : A) :
  StronglySorted R l → (i < j)%nat → l !! i = Some a → l !! j = Some b →
  R a b.
Proof.
  intros Hl. revert i j.
  induction Hl as [|x l Hl IH Hx]; intros i j Hij Hi Hj; [done|].
  destruct j as [|j]; [lia|]. simpl in Hj. destruct i as [|i]; simpl in Hi.
  - injection Hi as <-. eapply Forall_forall; [exact Hx|].
    apply list_elem_of_lookup. by exists j.
  - apply (IH i j); [lia|done..].
Qed.

Lemma StronglySorted_keysUnique `{!LMOrder} (l : list State) :
  StronglySorted keyGt l → keysUnique l.
Proof.
  intros Hl i j a b Hi Hj Hij Hsame. apply sameKey_keyCmp in Hsame.
  pose proof (keyCmp_flip a b) as [? ?].
  destruct (Nat.lt_total i j) as [Hlt|[?|Hlt]]; [|done|].
  - pose proof (StronglySorted_lookup _ _ _ _ _ _ Hl Hlt Hi Hj).
    unfold keyGt in *. lia.
  - pose proof (StronglySorted_lookup _ _ _ _ _ _ Hl Hlt Hj Hi).
    unfold keyGt in *. lia.
Qed.

Lemma keysUnique_Permutation (l l' : list State) :
  l' ≡ₚ l → keysUnique l → keysUnique l'.
Proof.
  intros Hperm Hl i j a b Hi Hj Hij.
  apply Permutation_inj in Hperm as (_ & f & Hinj & Hf).
  rewrite Hf in Hi, Hj. apply (Hl (f i) (f j)); [done..|].
  intros Heq. by apply Hinj in Heq.
Qed.

Lemma keysUnique_take (n : nat) (l : list State) :
  keysUnique l → keysUnique (take n l).
Proof.
  intros Hl i j a b Hi Hj.
  apply lookup_take_Some in Hi as [Hi _]. apply lookup_take_Some in Hj as [Hj _].
  by apply (Hl i j).
Qed.

(** ** candidatesStore *)

Lemma sameConfig_refl (d : Decoder) : sameConfig d d.
Proof. by repeat split. Qed.

Lemma sameConfig_trans (d1 d2 d3 : Decoder) :
  sameConfig d1 d2 → sameConfig d2 d3 → sameConfig d1 d3.
Proof.
  unfold sameConfig. intros (?&?&?&?&?&?&?) (?&?&?&?&?&?&?).
  split_and!; congruence.
Qed.

Lemma candidatesStore_inv (k : Z) (returnSorted : bool) (d d' : Decoder) :
  candidatesStore k returnSorted d = Some d' →
  sameConfig d d'
  ∧ nDecodedFrames_ d' = nDecodedFrames_ d
  ∧ nPrunedFrames_ d' = nPrunedFrames_ d
  ∧ ((candidates_ d = [] ∧ hyp_ d' = <[k := []]> (hyp_ d))
     ∨ ∃ first rest,
         candidates_ d ≠ []
         ∧ std_sort compareNodesShortList
             (pruneCandidates (candidatePtrs_ d) (candidates_ d)
                (PrimFloat.sub (candidatesBestScore_ d)
                   (beamThreshold (opt_ d))))
           = first :: rest
         ∧ hyp_ d'
           = <[k := (storeTopCandidates
                       (mergeSweep (logAdd (opt_ d)) first [] rest)
                       (beamSize (opt_ d)) returnSorted).1]> (hyp_ d)).
Proof.
  unfold candidatesStore. intros Hstore.
  destruct (candidates_ d) as [|c cs] eqn:Hcs.
  { injection Hstore as <-. split_and!; try done; by left. }
  unfold mergeCandidates in Hstore. simpl in Hstore.
  destruct (std_sort _ _) as [|first rest] eqn:Hsort; [done|].
  simpl in Hstore. injection Hstore as <-. simpl.
  split_and!; try done. right. by exists first, rest.
Qed.

Lemma storeTopCandidates_length (ptrs : list State) (beamSize : Z)
    (returnSorted : bool) :
  Z.of_nat (length (storeTopCandidates ptrs beamSize returnSorted).1)
  ≤ Z.max 0 beamSize.
Proof. unfold storeTopCandidates. simpl. rewrite length_take. lia. Qed.

Lemma storeTopCandidates_sub (ptrs : list State) (beamSize : Z)
    (returnSorted : bool) :
  ∃ ptrs', ptrs' ≡ₚ ptrs
    ∧ (storeTopCandidates ptrs beamSize returnSorted).1
      = take (Z.to_nat (Z.min (Z.of_nat (length ptrs)) beamSize)) ptrs'
    ∧ (returnSorted = true → scoreSorted ptrs').
Proof.
  unfold storeTopCandidates. simpl.
  destruct (returnSorted || (beamSize <? Z.of_nat (length ptrs))) eqn:Hsort.
  - eexists. split_and!; [apply std_sort_Permutation|done|].
    intros _. apply std_sort_Sorted; unfold compareNodeScore; intros x y Hxy;
      [by apply ltb_asym|done].
  - exists ptrs. split_and!; [done..|].
    intros ->. done.
Qed.

Lemma builtFrom_mono (pool pool' : list State) (x : State) :
  pool ⊆ pool' → builtFrom pool x → builtFrom pool' x.
Proof.
  intros Hsub (c & c' & Hc & Hc' & Hx & Hp). exists c, c'.
  split_and!; [by apply Hsub|by apply Hsub|done..].
Qed.

Lemma builtFrom_self (pool : list State) (x : State) :
  x ∈ pool → builtFrom pool x.
Proof. intros Hx. by exists x, x. Qed.

Lemma builtFrom_mergeStates (pool : list State) (a b : State) (f : bool) :
  builtFrom pool a → builtFrom pool b → builtFrom pool (mergeStates a b f).
Proof.
  intros (ca & ca' & Hca & Hca' & Ha & Hpa) (cb & cb' & Hcb & Hcb' & Hb & Hpb).
  unfold builtFrom, mergeStates, sameFields in *. simpl.
  destruct (PrimFloat.ltb (score a) (score b));
    [exists ca, cb'|exists ca, ca']; tauto.
Qed.

Lemma mergeSweep_builtFrom (pool : list State) (logAdd : bool)
    (rest : list State) :
  ∀ last kept,
    builtFrom pool last → Forall (builtFrom pool) kept →
    Forall (builtFrom pool) rest →
    Forall (builtFrom pool) (mergeSweep logAdd last kept rest).
Proof.
  induction rest as [|c rest IH]; intros last kept Hlast Hkept Hrest; simpl.
  - rewrite reverse_cons. apply Forall_app. split; [|by repeat constructor].
    by apply Forall_reverse.
  - apply Forall_cons in Hrest as [Hc Hrest].
    destruct (distinctNodes c last); apply IH; try done.
    + by constructor.
    + by apply builtFrom_mergeStates.
Qed.

(** What [candidatesStore] leaves in [hyp_[k]]. *)
Lemma candidatesStore_frame (k : Z) (returnSorted : bool) (d d' : Decoder) :
  candidatesStore k returnSorted d = Some d' →
  ∃ frame,
    hyp_ d' = <[k := frame]> (hyp_ d)
    ∧ (candidates_ d = [] → frame = [])
    ∧ Z.of_nat (length frame) ≤ Z.max 0 (beamSize (opt_ d))
    ∧ (LMOrder → keysUnique frame)
    ∧ (returnSorted = true → scoreSorted frame)
    ∧ Forall (builtFrom (candidatePtrs_ d ++ candidates_ d)) frame.
Proof.
  intros Hstore.
  apply candidatesStore_inv in Hstore
    as (_ & _ & _ & [[Hnil ->]|(first & rest & Hcs & Hsort & ->)]).
  { exists []. split_and!; try done.
    - simpl. lia.
    - intros _. constructor. }
  eexists. split; [done|].
  destruct (storeTopCandidates_sub
              (mergeSweep (logAdd (opt_ d)) first [] rest)
              (beamSize (opt_ d)) returnSorted)
    as (ptrs' & Hperm & Htake & Hsorted).
  split_and!.
  - done.
  - apply storeTopCandidates_length.
  - intros Hlm. rewrite Htake. apply keysUnique_take.
    apply (keysUnique_Permutation _ _ Hperm), StronglySorted_keysUnique.
    pose proof (compareNodesShortList_keyGe
                  (pruneCandidates (candidatePtrs_ d) (candidates_ d)
                     (PrimFloat.sub (candidatesBestScore_ d)
                        (beamThreshold (opt_ d))))) as Hge.
    rewrite Hsort in Hge. apply StronglySorted_inv in Hge as [Hrest Hfirst].
    apply mergeSweep_keys; [by repeat constructor|done..].
  - intros Hs. rewrite Htake. by apply Sorted_take, Hsorted.
  - rewrite Htake. apply Forall_take. rewrite Hperm.
    assert (Hpool : Forall (builtFrom (candidatePtrs_ d ++ candidates_ d))
                      (first :: rest)).
    { rewrite <- Hsort, std_sort_Permutation. unfold pruneCandidates.
      apply Forall_forall. intros x Hx. apply builtFrom_self.
      apply elem_of_app in Hx as [Hx|Hx]; apply elem_of_app; [by left|right].
      by apply list_elem_of_filter in Hx as [_ Hx]. }
    apply Forall_cons in Hpool as [Hfirst Hrest].
    by apply mergeSweep_builtFrom.
Qed.

(** ** Offering candidates *)

Lemma candidatesAdd_inv (c : State) (d : Decoder) :
  sameConfig d (candidatesAdd c d)
  ∧ sameBeams d (candidatesAdd c d)
  ∧ candidatePtrs_ (candidatesAdd c d) = candidatePtrs_ d
  ∧ (candidates_ (candidatesAdd c d) = candidates_ d
     ∨ candidates_ (candidatesAdd c d) = candidates_ d ++ [c]).
Proof.
  unfold candidatesAdd, isValidCandidate.
  destruct (_ && _); simpl; split_and!; try done; first [by left|by right].
Qed.

Lemma foldl_candidatesAdd_inv (offered : list State) (d : Decoder) :
  let d' := foldl (λ d c, candidatesAdd c d) d offered in
  sameConfig d d' ∧ sameBeams d d'
  ∧ candidatePtrs_ d' = candidatePtrs_ d
  ∧ candidates_ d' ⊆ candidates_ d ++ offered.
Proof.
  revert d. induction offered as [|c offered IH]; intros d; simpl.
  { split_and!; try done. by rewrite app_nil_r. }
  destruct (IH (candidatesAdd c d)) as (Hcfg & (Hh & Hn & Hp) & Hptrs & Hcs).
  destruct (candidatesAdd_inv c d) as (Hcfg' & (Hh' & Hn' & Hp') & Hptrs' & Hcs').
  split_and!.
  - by eapply sameConfig_trans.
  - split_and!; congruence.
  - congruence.
  - intros x Hx. apply Hcs in Hx.
    destruct Hcs' as [Heq|Heq]; rewrite Heq in Hx.
    + apply elem_of_app in Hx as [Hx|Hx]; apply elem_of_app;
        [by left|right; by right].
    + by rewrite <- app_assoc in Hx.
Qed.

(** ** The store returns *)

Lemma candidatesAdd_bestStaged (c : State) (d : Decoder) :
  soundThreshold (beamThreshold (opt_ d)) →
  bestStaged d → bestStaged (candidatesAdd c d).
Proof.
  intros Hthr Hd. unfold bestStaged, candidatesAdd, isValidCandidate, std_max.
  destruct (PrimFloat.ltb (candidatesBestScore_ d) (score c)) eqn:Hbest; simpl.
  - (* a new best: it is valid and stays *)
    pose proof (ltb_above_neg_infinity _ _ Hbest) as Hfin.
    pose proof (Hthr _ Hfin) as Hkept.
    rewrite Hfin, Hkept. simpl. intros _. exists c. split; [|done].
    apply elem_of_app. right. by left.
  - destruct (PrimFloat.leb _ (score c) && _) eqn:Hvalid; simpl; [|done].
    intros _. destruct (candidates_ d) as [|c0 cs] eqn:Hcs.
    + exists c. split; [by left|]. by apply andb_true_iff in Hvalid as [? _].
    + destruct Hd as (c1 & Hc1 & Hkept); [by rewrite Hcs|].
      rewrite Hcs in Hc1.
      exists c1. split; [|done]. apply elem_of_app. by left.
Qed.

Lemma foldl_candidatesAdd_bestStaged (offered : list State) :
  ∀ d : Decoder,
    soundThreshold (beamThreshold (opt_ d)) →
    bestStaged d →
    bestStaged (foldl (λ d c, candidatesAdd c d) d offered).
Proof.
  induction offered as [|c offered IH]; intros d Hthr Hd; simpl; [done|].
  apply IH; [|by apply candidatesAdd_bestStaged].
  destruct (candidatesAdd_inv c d) as ((<- & _) & _). done.
Qed.

Lemma candidatesStore_returns (k : Z) (returnSorted : bool) (d : Decoder) :
  bestStaged d → is_Some (candidatesStore k returnSorted d).
Proof.
  intros Hd. unfold candidatesStore, bestStaged in *.
  destruct (candidates_ d) as [|c0 cs] eqn:Hcs; [by eexists|].
  destruct Hd as (c & Hc & Hkept); [done|].
  unfold mergeCandidates. simpl.
  destruct (std_sort _ _) as [|first rest] eqn:Hsort; [|by eexists].
  exfalso. apply (f_equal length) in Hsort.
  rewrite std_sort_length in Hsort. unfold pruneCandidates in Hsort.
  rewrite length_app in Hsort.
  assert (Hin : c ∈ filter (λ c, PrimFloat.leb
                              (PrimFloat.sub (candidatesBestScore_ d)
                                 (beamThreshold (opt_ d)))
                              (score c) = true) (c0 :: cs)).
  { by apply list_elem_of_filter. }
  destruct (filter _ (c0 :: cs)); [by apply elem_of_nil in Hin|].
  simpl in Hsort. lia.
Qed.

Lemma decodeEnd_returns (d : Decoder) :
  soundThreshold (beamThreshold (opt_ d)) → is_Some (decodeEnd d).
Proof.
  intros Hthr. unfold decodeEnd.
  match goal with
  | |- is_Some (candidatesStore ?k ?s ?d0 ≫= _) =>
      destruct (candidatesStore_returns k s d0) as [d1 ->]; [|by eexists]
  end.
  apply foldl_candidatesAdd_bestStaged; [done|].
  intros Hne. by destruct Hne.
Qed.

(** ** The hypothesis buffer *)

Lemma hyp_touch_lookup (k k' : Z) (h : gmap Z (list State)) :
  is_Some (h !! k') → hyp_touch k h !! k' = h !! k'.
Proof.
  unfold hyp_touch. intros [fr Hfr].
  destruct (h !! k) eqn:Hk; [done|].
  rewrite lookup_insert_ne; [done|]. intros ->. congruence.
Qed.

Lemma hyp_at_touch (k k' : Z) (h : gmap Z (list State)) :
  hyp_at k' (hyp_touch k h) = hyp_at k' h.
Proof.
  unfold hyp_at, hyp_touch. destruct (h !! k) eqn:Hk; [done|].
  destruct (decide (k = k')) as [<-|Hne].
  - by rewrite lookup_insert_eq, Hk.
  - by rewrite lookup_insert_ne.
Qed.

(** ** One frame of [decodeStep] *)

Lemma decodeFrame_inv (emissions : list float) (N startFrame t : Z)
    (d d' : Decoder) :
  decodeFrame emissions N startFrame t d = Some d' →
  ∃ d0,
    candidatesStore (startFrame + t + 1) false d0 = Some d'
    ∧ sameConfig d d0
    ∧ candidatePtrs_ d0 = []
    ∧ hyp_ d0 = hyp_touch (startFrame + t) (hyp_ d)
    ∧ nDecodedFrames_ d0 = nDecodedFrames_ d
    ∧ nPrunedFrames_ d0 = nPrunedFrames_ d
    ∧ (hyp_at (startFrame + t) (hyp_ d) = [] → candidates_ d0 = []).
Proof.
  unfold decodeFrame. intros Hframe.
  apply bind_Some in Hframe as (idx & _ & Hframe).
  apply bind_Some in Hframe as (offered & Hoffered & Hstore).
  eexists. split; [exact Hstore|].
  match type of Hstore with
  | candidatesStore _ _ (foldl _ ?d1 _) = _ =>
      destruct (foldl_candidatesAdd_inv offered d1)
        as (Hcfg & (Hh & Hn & Hp) & Hptrs & Hcs)
  end.
  simpl in *. split_and!; try done.
  intros Hempty. rewrite hyp_at_touch, Hempty in Hoffered.
  injection Hoffered as <-.
  done.
Qed.

Lemma candidatesStore_lookup_ne (k k' : Z) (returnSorted : bool)
    (d d' : Decoder) :
  candidatesStore k returnSorted d = Some d' → k' ≠ k →
  hyp_ d' !! k' = hyp_ d !! k'.
Proof.
  intros (fr & -> & _)%candidatesStore_frame Hne.
  by rewrite lookup_insert_ne.
Qed.

Lemma candidatesStore_lookup (k : Z) (returnSorted : bool) (d d' : Decoder) :
  candidatesStore k returnSorted d = Some d' → is_Some (hyp_ d' !! k).
Proof.
  intros (fr & -> & _)%candidatesStore_frame.
  rewrite lookup_insert_eq. by eexists.
Qed.

(** The loop over [t]: every frame it stores is the result of a
    [candidatesStore] and is still in place when the loop ends. *)
Lemma forM_decodeFrame (emissions : list float) (N startFrame : Z)
    (l : list Z) :
  ∀ d d',
    NoDup l →
    forM (decodeFrame emissions N startFrame) l d = Some d' →
    sameConfig d d'
    ∧ nDecodedFrames_ d' = nDecodedFrames_ d
    ∧ nPrunedFrames_ d' = nPrunedFrames_ d
    ∧ (∀ t, t ∈ l →
         ∃ d0 d1,
           candidatesStore (startFrame + t + 1) false d0 = Some d1
           ∧ sameConfig d d0 ∧ candidatePtrs_ d0 = []
           ∧ hyp_ d' !! (startFrame + t + 1)
             = hyp_ d1 !! (startFrame + t + 1))
    ∧ (∀ k, (∀ t, t ∈ l → k ≠ startFrame + t + 1) →
            is_Some (hyp_ d !! k) → hyp_ d' !! k = hyp_ d !! k).
Proof.
  induction l as [|t l IH]; intros d d' Hnodup Hloop; simpl in Hloop.
  { injection Hloop as <-. split_and!; try done.
    intros t Ht. by apply elem_of_nil in Ht. }
  apply NoDup_cons in Hnodup as [Ht Hnodup].
  apply bind_Some in Hloop as (dm & Hframe & Hloop).
  destruct (IH dm d' Hnodup Hloop) as (Hcfg & Hn & Hp & Hstored & Hkept).
  destruct (decodeFrame_inv _ _ _ _ _ _ Hframe)
    as (d0 & Hstore & Hcfg0 & Hptrs0 & Hh0 & Hn0 & Hp0 & _).
  destruct (candidatesStore_inv _ _ _ _ Hstore) as (Hcfgm & Hnm & Hpm & _).
  assert (Hdm : ∀ k, k ≠ startFrame + t + 1 → is_Some (hyp_ d !! k) →
                     hyp_ dm !! k = hyp_ d !! k).
  { intros k Hk Hsome.
    rewrite (candidatesStore_lookup_ne _ _ _ _ _ Hstore Hk), Hh0.
    by apply hyp_touch_lookup. }
  split_and!.
  - eapply sameConfig_trans; [|exact Hcfg].
    by eapply sameConfig_trans.
  - congruence.
  - congruence.
  - intros t' [->|Ht']%elem_of_cons.
    + exists d0, dm. split_and!; try done.
      apply Hkept; [|by eapply candidatesStore_lookup].
      intros t' Ht' Heq. apply Ht.
      by replace t with t' by lia.
    + destruct (Hstored t' Ht') as (d0' & d1' & ? & ? & ? & ?).
      exists d0', d1'. split_and!; try done.
      eapply sameConfig_trans; [|done].
      by eapply sameConfig_trans.
  - intros k Hk Hsome. rewrite Hkept.
    + apply Hdm; [|done]. apply Hk. by left.
    + intros t' Ht'. apply Hk. by right.
    + rewrite Hdm; [done| |done]. apply Hk. by left.
Qed.

Lemma decodeStep_inv (emissions : list float) (T N : Z) (d d' : Decoder) :
  decodeStep emissions T N d = Some d' →
  let startFrame := nDecodedFrames_ d - nPrunedFrames_ d in
  sameConfig d d'
  ∧ nDecodedFrames_ d' = nDecodedFrames_ d + T
  ∧ nPrunedFrames_ d' = nPrunedFrames_ d
  ∧ ∀ t, 0 ≤ t < T →
      ∃ d0 d1,
        candidatesStore (startFrame + t + 1) false d0 = Some d1
        ∧ sameConfig d d0 ∧ candidatePtrs_ d0 = []
        ∧ hyp_ d' !! (startFrame + t + 1)
          = hyp_ d1 !! (startFrame + t + 1).
Proof.
  intros Hstep. cbv zeta. unfold decodeStep in Hstep.
  destruct (N <? 0); [done|].
  apply bind_Some in Hstep as (dT & Hloop & Hstep).
  injection Hstep as <-. simpl.
  apply forM_decodeFrame in Hloop as (Hcfg & Hn & Hp & Hstored & _);
    [|apply NoDup_seqZ].
  simpl in *. split_and!; try done; [congruence|].
  intros t Ht. apply Hstored. apply elem_of_seqZ. lia.
Qed.

(** ** decodeEnd *)

Lemma decodeEnd_inv (d d' : Decoder) :
  decodeEnd d = Some d' →
  let k := nDecodedFrames_ d - nPrunedFrames_ d in
  ∃ d0 d1,
    candidatesStore (k + 1) true d0 = Some d1
    ∧ sameConfig d d0 ∧ candidatePtrs_ d0 = []
    ∧ candidates_ d0
      ⊆ finishHyps d
          (existsb (λ p, lex p =? getRoot (lexicon_ d)) (hyp_at k (hyp_ d)))
          (hyp_at k (hyp_ d))
    ∧ hyp_ d0 = hyp_touch k (hyp_ d)
    ∧ hyp_ d' = hyp_ d1
    ∧ sameConfig d d'
    ∧ nDecodedFrames_ d' = nDecodedFrames_ d + 1
    ∧ nPrunedFrames_ d' = nPrunedFrames_ d.
Proof.
  intros Hend. cbv zeta. unfold decodeEnd in Hend.
  apply bind_Some in Hend as (d1 & Hstore & Hend).
  injection Hend as <-.
  match type of Hstore with
  | candidatesStore _ _ (foldl _ ?d0 ?offered) = _ =>
      destruct (foldl_candidatesAdd_inv offered d0)
        as (Hcfg & (Hh & Hn & Hp) & Hptrs & Hcs)
  end.
  destruct (candidatesStore_inv _ _ _ _ Hstore) as (Hcfg1 & Hn1 & Hp1 & _).
  simpl in *. rewrite hyp_at_touch in *.
  eexists _, d1. split; [exact Hstore|].
  split_and!; try done.
  - by eapply sameConfig_trans.
  - congruence.
  - congruence.
Qed.

(** Every frame that a call produces is the result of a [candidatesStore]
    on a decoder with the same options and a fresh pointer array. *)
Lemma producedFrame_stored (c : Call) (d d' : Decoder) (k : Z) :
  runCall c d = Some d' → producedFrame c d k →
  ∃ returnSorted d0 d1,
    candidatesStore k returnSorted d0 = Some d1
    ∧ sameConfig d d0 ∧ candidatePtrs_ d0 = []
    ∧ hyp_ d' !! k = hyp_ d1 !! k.
Proof.
  destruct c as [emissions T N|]; simpl; intros Hrun Hk.
  - apply decodeStep_inv in Hrun as (_ & _ & _ & Hstored).
    destruct (Hstored (k - (nDecodedFrames_ d - nPrunedFrames_ d) - 1))
      as (d0 & d1 & Hstore & ? & ? & Hlookup); [lia|].
    replace (nDecodedFrames_ d - nPrunedFrames_ d
             + (k - (nDecodedFrames_ d - nPrunedFrames_ d) - 1) + 1)
      with k in * by lia.
    by exists false, d0, d1.
  - apply decodeEnd_inv in Hrun
      as (d0 & d1 & Hstore & ? & ? & _ & _ & Hh & _).
    subst k. exists true, d0, d1. split_and!; try done. by rewrite Hh.
Qed.

(** C8: every frame produced by [decodeStep] or [decodeEnd] holds at most
    [beamSize] states, for every input and every positive [beamSize]. *)
Theorem produced_frame_size (c : Call) (d d' : Decoder) (k : Z) :
  0 < beamSize (opt_ d) →
  runCall c d = Some d' →
  producedFrame c d k →
  ∃ frame, hyp_ d' !! k = Some frame
           ∧ Z.of_nat (length frame) ≤ beamSize (opt_ d).
Proof.
  intros Hbeam Hrun Hk.
  destruct (producedFrame_stored _ _ _ _ Hrun Hk)
    as (s & d0 & d1 & Hstore & (Hopt & _) & _ & ->).
  apply candidatesStore_frame in Hstore as (frame & -> & _ & Hlen & _).
  exists frame. rewrite lookup_insert_eq. split; [done|].
  rewrite Hopt in *. lia.
Qed.

(** C2: after every [candidatesStore], hence in every frame produced by
    [decodeStep] and [decodeEnd], no two states share the equivalence key
    (lm state by the LM's compare, lex, token, prevBlank). *)
Theorem produced_frame_keys_unique `{!LMOrder} :
  (∀ (k : Z) (returnSorted : bool) (d d' : Decoder),
     candidatesStore k returnSorted d = Some d' →
     ∃ frame, hyp_ d' !! k = Some frame ∧ keysUnique frame)
  ∧ (∀ (c : Call) (d d' : Decoder) (k : Z),
       runCall c d = Some d' → producedFrame c d k →
       ∃ frame, hyp_ d' !! k = Some frame ∧ keysUnique frame).
Proof.
  assert (Hstore : ∀ (k : Z) (returnSorted : bool) (d d' : Decoder),
             candidatesStore k returnSorted d = Some d' →
             ∃ frame, hyp_ d' !! k = Some frame ∧ keysUnique frame).
  { intros k s d d' (frame & -> & _ & _ & Huniq & _)%candidatesStore_frame.
    exists frame. rewrite lookup_insert_eq. split; [done|by apply Huniq]. }
  split; [exact Hstore|].
  intros c d d' k Hrun Hk.
  destruct (producedFrame_stored _ _ _ _ Hrun Hk)
    as (s & d0 & d1 & Hd1 & _ & _ & ->).
  by eapply Hstore.
Qed.

Lemma sameKey_refl `{!LMOrder} (a : State) : sameKey a a.
Proof.
  apply sameKey_keyCmp. pose proof (keyCmp_flip a a) as [? ?]. lia.
Qed.

Lemma sameKey_mergeStates (x last c : State) (f : bool) :
  sameKey x last → sameKey x (mergeStates last c f).
Proof. done. Qed.

Lemma mergeSweep_covers `{!LMOrder} (logAdd : bool) (rest : list State) :
  ∀ (last : State) (kept : list State) (x : State),
    x ∈ rest ∨ (∃ y, y ∈ last :: kept ∧ sameKey x y) →
    ∃ m, m ∈ mergeSweep logAdd last kept rest ∧ sameKey x m.
Proof.
  induction rest as [|c rest IH]; intros last kept x Hx; simpl.
  { destruct Hx as [Hx|(y & Hy & Hxy)]; [by apply elem_of_nil in Hx|].
    exists y. split; [|done]. by apply elem_of_reverse. }
  destruct (distinctNodes c last) eqn:Hdist; apply IH.
  - destruct Hx as [[->|Hx]%elem_of_cons|(y & Hy & Hxy)].
    + right. exists c. split; [by left|apply sameKey_refl].
    + by left.
    + right. exists y. split; [by right|done].
  - rewrite distinctNodes_keyCmp in Hdist.
    apply negb_false_iff, Z.eqb_eq, sameKey_keyCmp in Hdist.
    destruct Hx as [[->|Hx]%elem_of_cons|(y & [->|Hy]%elem_of_cons & Hxy)].
    + right. eexists. split; [by left|]. by apply sameKey_mergeStates.
    + by left.
    + right. eexists. split; [by left|]. by apply sameKey_mergeStates.
    + right. exists y. split; [by right|done].
Qed.

Lemma mergeSweep_length (logAdd : bool) (rest : list State) :
  ∀ (last : State) (kept : list State),
    (length kept < length (mergeSweep logAdd last kept rest)
     ≤ length kept + 1 + length rest)%nat.
Proof.
  induction rest as [|c rest IH]; intros last kept; simpl.
  { rewrite length_reverse. simpl. lia. }
  destruct (distinctNodes c last).
  - specialize (IH c (last :: kept)). simpl in IH. lia.
  - specialize (IH (mergeStates last c logAdd) kept). lia.
Qed.







Lemma existsb_lex_root (root : Z) (prev : list State) :
  existsb (λ p, lex p =? root) prev = true ↔ ∃ p, p ∈ prev ∧ lex p = root.
Proof.
  rewrite existsb_exists. split; intros (p & Hp & Hroot); exists p.
  - split; [by apply list_elem_of_In|lia].
  - split; [by apply list_elem_of_In|lia].
Qed.


(** ** Merging two candidates *)

(** C3: two candidates with equal equivalence keys are merged into one
    state; its score is the log-add of the two scores when [logAdd] is set
    and their maximum otherwise, and it keeps the parent (and the other
    fields) of the candidate that does not score lower.  Two candidates
    scoring -1 merge to [-1 + log1p (exp (-0))], that is -1 + log 2, with
    log-add and to -1 without. *)
Theorem merge_two_candidates `{!LMOrder} (d : Decoder) (a b : State) :
  candidatePtrs_ d = [a; b] →
  sameKey a b →
  ∃ d' hi lo m,
    mergeCandidates d = Some d'
    ∧ candidatePtrs_ d' = [m]
    ∧ (hi = a ∧ lo = b ∨ hi = b ∧ lo = a)
    ∧ PrimFloat.ltb (score hi) (score lo) = false
    ∧ score m = (if logAdd (opt_ d) then log_add (score hi) (score lo)
                 else std_max (score hi) (score lo))
    ∧ parent m = parent hi
    ∧ sameFields m hi
    ∧ (score a = (-1)%float → score b = (-1)%float →
       score m = if logAdd (opt_ d)
                 then PrimFloat.add (-1)%float (std_log1p (std_exp (-0)%float))
                 else (-1)%float).
Proof.
  intros Hptrs Hsame.
  apply sameKey_keyCmp in Hsame as Hab.
  pose proof (keyCmp_zero_sym _ _ Hab) as Hba.
  assert (Hmerged : ∀ hi lo : State,
            keyCmp lo hi = 0 →
            PrimFloat.ltb (score hi) (score lo) = false →
            let m := mergeStates hi lo (logAdd (opt_ d)) in
            mergeSweep (logAdd (opt_ d)) hi [] [lo] = [m]
            ∧ score m = (if logAdd (opt_ d)
                         then log_add (score hi) (score lo)
                         else std_max (score hi) (score lo))
            ∧ parent m = parent hi ∧ sameFields m hi).
  { intros hi lo Hkey Hlt. simpl.
    rewrite distinctNodes_keyCmp, Hkey, Hlt. by simpl. }
  assert (Hexample : ∀ hi lo : State,
            score hi = (-1)%float → score lo = (-1)%float →
            (if logAdd (opt_ d) then log_add (score hi) (score lo)
             else std_max (score hi) (score lo))
            = if logAdd (opt_ d)
              then PrimFloat.add (-1)%float (std_log1p (std_exp (-0)%float))
              else (-1)%float).
  { intros hi lo -> ->. by destruct (logAdd (opt_ d)). }
  (* the sorted array holds the two candidates, and the first of them does
     not score lower than the second *)
  pose proof (std_sort_ordered compareNodesShortList [a; b]
                compareNodesShortList_asym) as Hsorted.
  pose proof (std_sort_Permutation compareNodesShortList [a; b]) as Hperm.
  symmetry in Hperm. apply Permutation_length_2_inv in Hperm.
  unfold mergeCandidates. rewrite Hptrs.
  destruct Hperm as [Hperm|Hperm]; rewrite Hperm in Hsorted |- *;
    apply Sorted_inv in Hsorted as [_ Hsorted];
    apply HdRel_inv in Hsorted;
    rewrite compareNodesShortList_keyCmp in Hsorted.
  - rewrite Hba in Hsorted. simpl in Hsorted.
    destruct (Hmerged a b Hba Hsorted) as (Hsweep & Hscore & Hpar & Hf).
    eexists _, a, b, _. split; [done|].
    unfold set_candidates. cbn [candidatePtrs_]. rewrite Hsweep.
    split_and!; try done; [by left|].
    intros Ha Hb. rewrite Hscore. by apply Hexample.
  - (* b goes first *)
    rewrite Hab in Hsorted. simpl in Hsorted.
    destruct (Hmerged b a Hab Hsorted) as (Hsweep & Hscore & Hpar & Hf).
    eexists _, b, a, _. split; [done|].
    unfold set_candidates. cbn [candidatePtrs_]. rewrite Hsweep.
    split_and!; try done; [by right|].
    intros Ha Hb. rewrite Hscore. by apply Hexample.
Qed.

(** ** An exhausted beam *)

Lemma tokenOrder_is_Some (emissions : list float) (t N beamSizeToken : Z) :
  0 ≤ t → 0 ≤ N →
  (beamSizeToken < N →
   0 ≤ beamSizeToken ∧ (t + 1) * N ≤ Z.of_nat (length emissions)) →
  is_Some (tokenOrder emissions t N beamSizeToken).
Proof.
  intros Ht HN Hwf. unfold tokenOrder.
  destruct (Z.ltb_spec beamSizeToken N) as [Hlt|]; [|by eexists].
  destruct (Hwf Hlt) as [Hb Hlen].
  rewrite (proj2 (Z.ltb_ge _ _) Hb).
  assert (Hrow : is_Some (mapM (λ l, read emissions (t * N + l)) (seqZ 0 N))).
  { apply mapM_is_Some, Forall_forall. intros l Hl%elem_of_seqZ. simpl.
    unfold read. rewrite (proj2 (Z.ltb_ge _ _)) by nia.
    apply lookup_lt_is_Some. nia. }
  destruct Hrow as [row ->]. by eexists.
Qed.

Lemma decodeFrame_exhausted (emissions : list float) (N startFrame t : Z)
    (d : Decoder) :
  is_Some (tokenOrder emissions t N (beamSizeToken (opt_ d))) →
  hyp_ d !! (startFrame + t) = Some [] →
  decodeFrame emissions N startFrame t d
  = Some (set_hyp (<[startFrame + t + 1 := []]> (hyp_ d)) (candidatesReset d)).
Proof.
  intros [idx Hidx] Hempty. unfold decodeFrame. rewrite Hidx. simpl.
  rewrite hyp_at_touch. unfold hyp_at. rewrite Hempty. simpl.
  unfold candidatesStore. simpl. unfold hyp_touch. by rewrite Hempty.
Qed.

Lemma forM_decodeFrame_exhausted (emissions : list float) (N startFrame : Z)
    (n : nat) :
  ∀ (a : Z) (d : Decoder),
    (∀ t, a ≤ t < a + Z.of_nat n →
          is_Some (tokenOrder emissions t N (beamSizeToken (opt_ d)))) →
    hyp_ d !! (startFrame + a) = Some [] →
    ∃ d',
      forM (decodeFrame emissions N startFrame) (seqZ a (Z.of_nat n)) d
      = Some d'
      ∧ sameConfig d d'
      ∧ nDecodedFrames_ d' = nDecodedFrames_ d
      ∧ nPrunedFrames_ d' = nPrunedFrames_ d
      ∧ (∀ k, startFrame + a ≤ k ≤ startFrame + a + Z.of_nat n →
              hyp_ d' !! k = Some []).
Proof.
  induction n as [|n IH]; intros a d Hidx Hempty.
  { exists d. simpl. split_and!; try done.
    intros k Hk. by replace k with (startFrame + a) by lia. }
  rewrite seqZ_cons by lia. simpl.
  rewrite decodeFrame_exhausted; [|apply Hidx; lia|done]. simpl.
  replace (Z.pred (Z.of_nat (S n))) with (Z.of_nat n) by lia.
  destruct (IH (Z.succ a)
              (set_hyp (<[startFrame + a + 1 := []]> (hyp_ d))
                 (candidatesReset d)))
    as (d' & Hloop & Hcfg & Hn & Hp & Hframes).
  { intros t Ht. simpl. apply Hidx. lia. }
  { simpl. replace (startFrame + Z.succ a) with (startFrame + a + 1) by lia.
    apply lookup_insert_eq. }
  exists d'. split; [done|]. split_and!; try done.
  intros k Hk. destruct (decide (k = startFrame + a)) as [->|Hne].
  - apply forM_decodeFrame in Hloop as (_ & _ & _ & _ & Hkept);
      [|apply NoDup_seqZ].
    rewrite Hkept; simpl.
    + by rewrite lookup_insert_ne by lia.
    + intros t Ht%elem_of_seqZ. lia.
    + rewrite lookup_insert_ne by lia. by eexists.
  - apply Hframes. lia.
Qed.

Lemma foldl_hyp_touch_lookup (ks : list Z) (k : Z) :
  ∀ h : gmap Z (list State),
    is_Some (h !! k) → foldl (λ h i, hyp_touch i h) h ks !! k = h !! k.
Proof.
  induction ks as [|i ks IH]; intros h Hk; simpl; [done|].
  rewrite IH; by rewrite hyp_touch_lookup.
Qed.

Lemma extendHyp_lookup (bound k : Z) (h : gmap Z (list State)) :
  is_Some (h !! k) → extendHyp bound h !! k = h !! k.
Proof.
  intros Hk. unfold extendHyp. case_match; [|done].
  by apply foldl_hyp_touch_lookup.
Qed.

Lemma getBestHypothesis_exhausted (lookBack : Z) (d : Decoder) :
  hyp_ d !! currentFrame d = Some [] →
  getBestHypothesis lookBack d = Some emptyDecodeResult.
Proof.
  unfold getBestHypothesis, currentFrame. intros ->. simpl.
  by case_match.
Qed.

Lemma runCall_exhausted (c : Call) (d : Decoder) :
  hyp_ d !! currentFrame d = Some [] →
  wellFormedCall d c →
  ∃ d', runCall c d = Some d'
        ∧ sameConfig d d'
        ∧ currentFrame d ≤ currentFrame d'
        ∧ (∀ k, currentFrame d ≤ k ≤ currentFrame d' →
                hyp_ d' !! k = Some []).
Proof.
  unfold currentFrame. intros Hempty Hwf.
  destruct c as [emissions T N|]; simpl in *.
  - destruct Hwf as (HT & HN & Hwf). unfold decodeStep.
    rewrite (proj2 (Z.ltb_ge _ _) HN).
    set (startFrame := nDecodedFrames_ d - nPrunedFrames_ d) in *.
    set (d1 := set_hyp (extendHyp (startFrame + T + 2) (hyp_ d)) d).
    destruct (forM_decodeFrame_exhausted emissions N startFrame
                (Z.to_nat T) 0 d1)
      as (d' & Hloop & Hcfg & Hn & Hp & Hframes).
    { intros t Ht. apply tokenOrder_is_Some; [lia..|].
      intros Hlt. destruct (Hwf Hlt). split; [done|nia]. }
    { simpl. rewrite extendHyp_lookup, Z.add_0_r; [done|].
      rewrite Z.add_0_r, Hempty. by eexists. }
    rewrite Z2Nat.id in Hloop, Hframes by done. rewrite Hloop. simpl.
    eexists. split; [done|]. simpl in *. rewrite Hn, Hp.
    split_and!; [done|lia|].
    intros k Hk. apply Hframes. fold startFrame. lia.
  - unfold decodeEnd. simpl. rewrite hyp_at_touch. unfold hyp_at.
    rewrite Hempty. simpl. unfold candidatesStore. simpl.
    eexists. split; [done|]. simpl. split_and!; [done|lia|].
    intros k Hk. unfold hyp_touch. rewrite Hempty.
    destruct (decide
                (k = nDecodedFrames_ d - nPrunedFrames_ d + 1)) as [->|Hne].
    + by rewrite lookup_insert_eq.
    + rewrite lookup_insert_ne by done.
      by replace k with (nDecodedFrames_ d - nPrunedFrames_ d) by lia.
Qed.

(** A call never rewrites a frame at or before the current one. *)
Lemma runCall_keeps (c : Call) (d d' : Decoder) (k : Z) :
  runCall c d = Some d' → k ≤ currentFrame d → is_Some (hyp_ d !! k) →
  hyp_ d' !! k = hyp_ d !! k.
Proof.
  unfold currentFrame. destruct c as [emissions T N|]; simpl;
    intros Hrun Hk Hsome.
  - unfold decodeStep in Hrun. destruct (N <? 0); [done|].
    apply bind_Some in Hrun as (dT & Hloop & Hrun). injection Hrun as <-.
    apply forM_decodeFrame in Hloop as (_ & _ & _ & _ & Hkept);
      [|apply NoDup_seqZ].
    simpl in *. rewrite Hkept.
    + by apply extendHyp_lookup.
    + intros t Ht%elem_of_seqZ. lia.
    + by rewrite extendHyp_lookup.
  - apply decodeEnd_inv in Hrun
      as (d0 & d1 & Hstore & _ & _ & _ & Hh0 & -> & _).
    rewrite (candidatesStore_lookup_ne _ _ _ _ _ Hstore) by lia.
    rewrite Hh0. by apply hyp_touch_lookup.
Qed.

Lemma wellFormedCall_sameConfig (d d' : Decoder) (c : Call) :
  sameConfig d d' → wellFormedCall d c → wellFormedCall d' c.
Proof. intros (Hopt & _). unfold wellFormedCall. by rewrite Hopt. Qed.

(** C9: a staging buffer that ended up empty stores an empty frame; from a
    decoder standing on an empty frame, every further (well-formed)
    [decodeStep], and [decodeEnd], returns and produces only empty frames,
    and [getBestHypothesis] then returns the empty result for every
    [lookBack]. *)
Theorem exhausted_beam (calls : list Call) (d : Decoder) :
  hyp_ d !! currentFrame d = Some [] →
  Forall (wellFormedCall d) calls →
  (∀ (k : Z) (returnSorted : bool) (d0 : Decoder),
     candidates_ d0 = [] →
     ∃ d1, candidatesStore k returnSorted d0 = Some d1
           ∧ hyp_ d1 !! k = Some [])
  ∧ ∃ d', forM runCall calls d = Some d'
          ∧ (∀ k, currentFrame d ≤ k ≤ currentFrame d' →
                  hyp_ d' !! k = Some [])
          ∧ ∀ lookBack, getBestHypothesis lookBack d' = Some emptyDecodeResult.
Proof.
  intros Hempty Hwf. split.
  { intros k s d0 Hnil. unfold candidatesStore. rewrite Hnil.
    eexists. split; [done|]. simpl. apply lookup_insert_eq. }
  assert (Hrun : ∃ d', forM runCall calls d = Some d'
                       ∧ currentFrame d ≤ currentFrame d'
                       ∧ (∀ k, currentFrame d ≤ k ≤ currentFrame d' →
                               hyp_ d' !! k = Some [])
                       ∧ (∀ k, k ≤ currentFrame d → is_Some (hyp_ d !! k) →
                               hyp_ d' !! k = hyp_ d !! k)).
  { revert d Hempty Hwf.
    induction calls as [|c calls IH]; intros d Hempty Hwf; simpl.
    { exists d. split_and!; [done|lia| |done].
      intros k Hk. by replace k with (currentFrame d) by lia. }
    apply Forall_cons in Hwf as [Hc Hwf].
    destruct (runCall_exhausted c d Hempty Hc)
      as (dm & Hcall & Hcfg & Hle & Hframes).
    rewrite Hcall. simpl.
    destruct (IH dm) as (d' & Hloop & Hle' & Hframes' & Hkept').
    { apply Hframes. lia. }
    { eapply Forall_impl; [exact Hwf|]. intros c'.
      by apply wellFormedCall_sameConfig. }
    exists d'. split_and!; [done|lia|..].
    - intros k Hk. destruct (Z.le_gt_cases (currentFrame dm) k) as [Hge|Hlt].
      + apply Hframes'. lia.
      + rewrite Hkept', Hframes; [done|lia|lia|].
        rewrite Hframes; [by eexists|lia].
    - intros k Hk Hsome.
      rewrite Hkept', (runCall_keeps _ _ _ _ Hcall); [done..|lia|].
      by rewrite (runCall_keeps _ _ _ _ Hcall). }
  destruct Hrun as (d' & Hloop & Hle & Hframes & _).
  exists d'. split_and!; [done..|].
  intros lookBack. apply getBestHypothesis_exhausted, Hframes. lia.
Qed.

(** ** Two runs *)

Lemma sameOutcome_refl (r : option Decoder) : sameOutcome r r.
Proof. destruct r as [d|]; simpl; [|done]. by repeat split. Qed.

Ltac same_instance d1 d2 H :=
  destruct d1, d2, H as ((?&?&?&?&?&?&?)&(?&?&?)); simpl in *; subst.

Lemma decodeFrame_agree (emissions : list float) (N startFrame t : Z)
    (d1 d2 : Decoder) :
  sameConfig d1 d2 ∧ sameBeams d1 d2 →
  decodeFrame emissions N startFrame t d1
  = decodeFrame emissions N startFrame t d2.
Proof. intros Hagree. same_instance d1 d2 Hagree. reflexivity. Qed.

Lemma decodeEnd_agree (d1 d2 : Decoder) :
  sameConfig d1 d2 ∧ sameBeams d1 d2 → decodeEnd d1 = decodeEnd d2.
Proof. intros Hagree. same_instance d1 d2 Hagree. reflexivity. Qed.

Lemma decodeStep_agree (emissions : list float) (T N : Z) (d1 d2 : Decoder) :
  sameConfig d1 d2 ∧ sameBeams d1 d2 →
  sameOutcome (decodeStep emissions T N d1) (decodeStep emissions T N d2).
Proof.
  intros Hagree. unfold decodeStep. destruct (N <? 0); [done|].
  destruct (seqZ 0 T) as [|t l].
  - same_instance d1 d2 Hagree. by repeat split.
  - simpl. rewrite (decodeFrame_agree _ _ _ _ _
                      (set_hyp (extendHyp
                                  (nDecodedFrames_ d2 - nPrunedFrames_ d2 + T + 2)
                                  (hyp_ d2)) d2)).
    + same_instance d1 d2 Hagree. apply sameOutcome_refl.
    + same_instance d1 d2 Hagree. by repeat split.
Qed.

Lemma forM_runCall_agree (calls : list Call) :
  ∀ d1 d2 : Decoder,
    sameConfig d1 d2 ∧ sameBeams d1 d2 →
    sameOutcome (forM runCall calls d1) (forM runCall calls d2).
Proof.
  induction calls as [|c calls IH]; intros d1 d2 Hagree; simpl; [done|].
  assert (Hcall : sameOutcome (runCall c d1) (runCall c d2)).
  { destruct c as [emissions T N|]; simpl.
    - by apply decodeStep_agree.
    - rewrite (decodeEnd_agree d1 d2 Hagree). apply sameOutcome_refl. }
  destruct (runCall c d1) as [r1|], (runCall c d2) as [r2|]; simpl in *;
    try done.
  by apply IH.
Qed.

(** C6: for a given [std::sort] and [std::partial_sort], two decoder
    instances constructed with the same arguments, whatever their earlier
    use left in them, that execute the same [decodeBegin], [decodeStep],
    [decodeEnd] sequence on the same inputs end in the same outcome: the
    same beams at every frame (same states, scores and order) and the same
    frame counters.  The merge comparator has no part in this: it leaves two
    candidates unordered exactly when they share the key and neither scores
    higher, whatever their words and parents, and it is only for an array in
    which it orders any two entries that every implementation of
    [std::sort] returns the same array. *)
Theorem decode_two_runs (calls : list Call) (d1 d2 : Decoder) :
  (sameConfig d1 d2 → sameOutcome (decode calls d1) (decode calls d2))
  ∧ (LMOrder →
     ∀ a b : State,
       compareNodesShortList a b = false ∧ compareNodesShortList b a = false
       ↔ sameKey a b
         ∧ PrimFloat.ltb (score a) (score b) = false
         ∧ PrimFloat.ltb (score b) (score a) = false)
  ∧ (LMOrder →
     ∀ (alg1 alg2 : Algorithm) (ptrs : list State),
       @AlgorithmSpec alg1 → @AlgorithmSpec alg2 →
       (∀ i j a b, ptrs !! i = Some a → ptrs !! j = Some b → i ≠ j →
                   compareNodesShortList a b = true
                   ∨ compareNodesShortList b a = true) →
       @std_sort alg1 State compareNodesShortList ptrs
       = @std_sort alg2 State compareNodesShortList ptrs).
Proof.
  split_and!.
  - intros Hcfg. apply forM_runCall_agree.
    destruct d1, d2, Hcfg as (?&?&?&?&?&?&?); simpl in *; subst.
    by repeat split.
  - intros Hlm a b. apply compareNodesShortList_tied.
  - intros Hlm alg1 alg2 ptrs Hspec1 Hspec2 Htotal.
    apply (total_order_sorted_unique compareNodesShortList ptrs).
    + apply compareNodesShortList_asym.
    + apply compareNodesShortList_trans.
    + done.
    + apply (@std_sort_Permutation alg1 Hspec1).
    + apply (@std_sort_Permutation alg2 Hspec2).
    + apply (@std_sort_ordered alg1 Hspec1), compareNodesShortList_asym.
    + apply (@std_sort_ordered alg2 Hspec2), compareNodesShortList_asym.
Qed.

(** ** Rule (1) and a repeated token under CTC *)

(** Under CTC, for a token repeated with no blank in between, "(1) Try
    children" makes no continue-spelling offer: whatever it offers is a word
    or unknown-word emission back at the root. *)
Lemma tryChildren_ctc_repeat d emissions t N j prevHyp lexMaxScore n r :
  criterionType (opt_ d) = CTC → prevBlank prevHyp = false →
  n = token prevHyp →
  tryChildren d emissions t N j prevHyp lexMaxScore n = Some r →
  ∀ c, c ∈ r → lex c = getRoot (lexicon_ d) ∧ token c = n.
Proof.
  unfold tryChildren. intros Hctc Hblank -> Hr c Hc.
  destruct (nodes (lexicon_ d) !! lex prevHyp) as [prevNode|]; [|done].
  simpl in Hr.
  destruct (children prevNode !! token prevHyp) as [lexPtr|];
    [|injection Hr as <-; by apply elem_of_nil in Hc].
  destruct (nodes (lexicon_ d) !! lexPtr) as [lexNode|]; [|done].
  simpl in Hr.
  destruct (acousticScore d emissions t N prevHyp (token prevHyp)) as [sc|];
    [|done].
  simpl in Hr. injection Hr as <-.
  rewrite Hctc, Hblank, Z.eqb_refl in Hc. simpl in Hc.
  apply elem_of_app in Hc as [Hc|Hc].
  - apply list_elem_of_fmap in Hc as (label & -> & _). by repeat case_match.
  - repeat case_match; try (by apply elem_of_nil in Hc);
      apply list_elem_of_singleton in Hc; by subst.
Qed.

(** ** decodeStep returns on well-formed input *)

Lemma collect_returns {A B} (f : A → option (list B)) (P : B → Prop)
    (l : list A) :
  (∀ a, a ∈ l → ∃ r, f a = Some r ∧ Forall P r) →
  ∃ r, collect f l = Some r ∧ Forall P r.
Proof.
  unfold collect. induction l as [|a l IH]; intros Hl; simpl.
  { exists []. by split. }
  destruct (Hl a) as (r & -> & Hr); [by left|].
  destruct IH as (rs & Hrs & HP); [intros a' Ha'; apply Hl; by right|].
  apply fmap_Some in Hrs as (rss & -> & ->). simpl.
  eexists. split; [done|]. simpl. by apply Forall_app.
Qed.

Lemma tokenOrder_range (emissions : list float) (t N beamSizeToken : Z)
    (idx : list Z) :
  tokenOrder emissions t N beamSizeToken = Some idx →
  ∀ n, n ∈ idx → 0 ≤ n < N.
Proof.
  unfold tokenOrder. intros Hidx n Hn.
  assert (Hseq : n ∈ seqZ 0 N); [|apply elem_of_seqZ in Hseq; lia].
  destruct (beamSizeToken <? N); [|by injection Hidx as <-].
  destruct (beamSizeToken <? 0); [done|].
  apply bind_Some in Hidx as (row & _ & Hidx). injection Hidx as <-.
  by rewrite std_partial_sort_Permutation in Hn.
Qed.

Section WellFormed.
Context (d : Decoder) (emissions : list float) (t T N : Z).
Hypothesis Hd : wellFormedDecoder N d.
Hypothesis Ht : 0 ≤ t < T.
Hypothesis Hemissions : T * N ≤ Z.of_nat (length emissions).

Lemma read_emissions (n : Z) :
  0 ≤ n < N → is_Some (read emissions (t * N + n)).
Proof.
  intros Hn. unfold read. rewrite (proj2 (Z.ltb_ge _ _)) by nia.
  apply lookup_lt_is_Some. nia.
Qed.

Lemma acousticScore_returns (prevHyp : State) (n : Z) :
  0 ≤ token prevHyp < N → 0 ≤ n < N →
  is_Some (acousticScore d emissions t N prevHyp n).
Proof.
  intros Htok Hn. unfold acousticScore.
  destruct (read_emissions n Hn) as [e ->]. simpl.
  destruct (_ && isASG _) eqn:Hasg; simpl; [|by eexists].
  apply andb_true_iff in Hasg as [_ Hasg].
  destruct Hd as (_ & _ & _ & Htr & _).
  destruct (criterionType (opt_ d)); [|done].
  assert (Hread : is_Some (read (transitions_ d) (n * N + token prevHyp))).
  { unfold read. rewrite (proj2 (Z.ltb_ge _ _)) by nia.
    apply lookup_lt_is_Some. specialize (Htr eq_refl). nia. }
  destruct Hread as [tr ->]. by eexists.
Qed.

Lemma tryChildren_returns (j : nat) (prevHyp : State) (lexMaxScore : float)
    (n : Z) :
  wellFormedState (lexicon_ d) N prevHyp → 0 ≤ n < N →
  ∃ r, tryChildren d emissions t N j prevHyp lexMaxScore n = Some r
       ∧ Forall (wellFormedState (lexicon_ d) N) r.
Proof.
  intros [[prevNode Hprev] Htok] Hn. unfold tryChildren. rewrite Hprev. simpl.
  destruct (children prevNode !! n) as [lexPtr|] eqn:Hchild;
    [|by exists []].
  destruct Hd as ((Hroot & Hclosed) & _).
  destruct (Hclosed _ _ _ _ Hprev Hchild) as [lexNode Hlex].
  rewrite Hlex. simpl.
  destruct (acousticScore_returns prevHyp n Htok Hn) as [sc ->]. simpl.
  eexists. split; [done|].
  repeat apply Forall_app_2.
  - case_match; [|by constructor]. case_match.
    repeat constructor; simpl; [by rewrite Hlex|lia..].
  - apply Forall_fmap, Forall_forall. intros label _. simpl.
    case_match. by repeat split; simpl; try lia.
  - case_match; [|by constructor]. case_match.
    repeat constructor; simpl; [done|lia..].
Qed.

Lemma trySameNode_returns (j : nat) (prevHyp : State) :
  wellFormedState (lexicon_ d) N prevHyp →
  ∃ r, trySameNode d emissions t N j prevHyp = Some r
       ∧ Forall (wellFormedState (lexicon_ d) N) r.
Proof.
  intros [Hlex Htok]. unfold trySameNode.
  destruct (negb _ || negb _); [|by exists []].
  destruct (acousticScore_returns prevHyp (token prevHyp) Htok Htok)
    as [sc ->].
  eexists. split; [done|]. constructor; [by split|constructor].
Qed.

Lemma tryBlank_returns (j : nat) (prevHyp : State) :
  wellFormedState (lexicon_ d) N prevHyp →
  ∃ r, tryBlank d emissions t N j prevHyp = Some r
       ∧ Forall (wellFormedState (lexicon_ d) N) r.
Proof.
  intros [Hlex Htok]. unfold tryBlank.
  destruct Hd as (_ & _ & Hblank & _).
  destruct (criterionType (opt_ d)); simpl; [by exists []|].
  specialize (Hblank eq_refl).
  destruct (read_emissions (blank_ d) Hblank) as [e ->].
  eexists. split; [done|]. constructor; [by split|constructor].
Qed.

Lemma expandHyp_returns (idx : list Z) (j : nat) (prevHyp : State) :
  (∀ n, n ∈ idx → 0 ≤ n < N) →
  wellFormedState (lexicon_ d) N prevHyp →
  ∃ r, expandHyp d emissions t N idx j prevHyp = Some r
       ∧ Forall (wellFormedState (lexicon_ d) N) r.
Proof.
  intros Hidx Hprev. unfold expandHyp.
  assert (Hmax : is_Some
            (if lex prevHyp =? getRoot (lexicon_ d) then Some (to_float 0)
             else to_float ∘ maxScore <$> nodes (lexicon_ d) !! lex prevHyp)).
  { destruct Hprev as [[prevNode Hnode] _].
    case_match; [by eexists|]. rewrite Hnode. by eexists. }
  destruct Hmax as [lexMaxScore ->]. simpl.
  destruct (collect_returns
              (tryChildren d emissions t N j prevHyp lexMaxScore)
              (wellFormedState (lexicon_ d) N)
              (take (Z.to_nat (Z.min (beamSizeToken (opt_ d)) N)) idx))
    as (r1 & -> & Hr1).
  { intros n Hn%elem_of_take. destruct Hn as (i & Hn & _).
    apply tryChildren_returns; [done|].
    apply Hidx, list_elem_of_lookup. by exists i. }
  destruct (trySameNode_returns j prevHyp Hprev) as (r2 & -> & Hr2).
  destruct (tryBlank_returns j prevHyp Hprev) as (r3 & -> & Hr3).
  eexists. split; [done|]. by repeat apply Forall_app_2.
Qed.

End WellFormed.

Lemma wellFormedDecoder_sameConfig (N : Z) (d d' : Decoder) :
  sameConfig d d' → wellFormedDecoder N d → wellFormedDecoder N d'.
Proof.
  intros (Hopt & Hlex & Hsil & Hblank & _ & Htr & _).
  unfold wellFormedDecoder. by rewrite Hopt, Hlex, Hsil, Hblank, Htr.
Qed.

Lemma builtFrom_wellFormedState (tr : Trie) (N : Z) (pool : list State)
    (x : State) :
  Forall (wellFormedState tr N) pool → builtFrom pool x →
  wellFormedState tr N x.
Proof.
  intros Hpool (c & _ & Hc & _ & (_ & Hlex & Htok & _) & _).
  rewrite Forall_forall in Hpool. destruct (Hpool c Hc) as [? ?].
  unfold wellFormedState. by rewrite Hlex, Htok.
Qed.

(** Offering well-formed candidates to a fresh staging buffer and storing
    it returns a well-formed frame. *)
Lemma store_offered_returns (N k : Z) (returnSorted : bool) (d : Decoder)
    (offered : list State) :
  soundThreshold (beamThreshold (opt_ d)) →
  candidatePtrs_ d = [] → candidates_ d = [] →
  Forall (wellFormedState (lexicon_ d) N) offered →
  ∃ d', candidatesStore k returnSorted
          (foldl (λ d c, candidatesAdd c d) d offered) = Some d'
        ∧ Forall (wellFormedState (lexicon_ d) N) (hyp_at k (hyp_ d')).
Proof.
  intros Hthr Hptrs Hcs Hoffered.
  destruct (foldl_candidatesAdd_inv offered d)
    as (_ & _ & Hptrs' & Hsub).
  destruct (candidatesStore_returns k returnSorted
              (foldl (λ d c, candidatesAdd c d) d offered)) as [d' Hstore].
  { apply foldl_candidatesAdd_bestStaged; [done|].
    intros Hne. by rewrite Hcs in Hne. }
  exists d'. split; [done|].
  apply candidatesStore_frame in Hstore as (frame & -> & _ & _ & _ & _ & Hbuilt).
  unfold hyp_at. rewrite lookup_insert_eq. simpl.
  eapply Forall_impl; [exact Hbuilt|]. intros x Hx.
  eapply builtFrom_wellFormedState; [|exact Hx].
  rewrite Hptrs', Hptrs. simpl. apply Forall_forall. intros c Hc%Hsub.
  rewrite Hcs in Hc. simpl in Hc. rewrite Forall_forall in Hoffered.
  by apply Hoffered.
Qed.

Lemma decodeFrame_returns (emissions : list float) (T N startFrame t : Z)
    (d : Decoder) :
  wellFormedDecoder N d → 0 ≤ t < T → 0 ≤ N →
  T * N ≤ Z.of_nat (length emissions) →
  Forall (wellFormedState (lexicon_ d) N) (hyp_at (startFrame + t) (hyp_ d)) →
  ∃ d', decodeFrame emissions N startFrame t d = Some d'
        ∧ Forall (wellFormedState (lexicon_ d) N)
            (hyp_at (startFrame + t + 1) (hyp_ d')).
Proof.
  intros Hd Ht HN Hem Hframe. unfold decodeFrame.
  destruct (tokenOrder_is_Some emissions t N (beamSizeToken (opt_ d)))
    as [idx Hidx]; [lia|done| |].
  { intros _. split; [apply Hd|nia]. }
  rewrite Hidx. simpl. rewrite hyp_at_touch.
  set (d0 := set_hyp (hyp_touch (startFrame + t) (hyp_ d)) (candidatesReset d)).
  destruct (collect_returns
              (λ jp : nat * State, expandHyp d0 emissions t N idx jp.1 jp.2)
              (wellFormedState (lexicon_ d) N)
              (imap pair (hyp_at (startFrame + t) (hyp_ d))))
    as (offered & -> & Hoffered).
  { intros [j p] Hjp. apply elem_of_lookup_imap in Hjp as (i & x & Heq & Hx).
    injection Heq as -> ->. simpl.
    apply (expandHyp_returns d0 emissions t T N); try done.
    - by eapply tokenOrder_range.
    - rewrite Forall_forall in Hframe. apply Hframe.
      apply list_elem_of_lookup. by exists i. }
  simpl. apply (store_offered_returns N _ _ d0); try done. apply Hd.
Qed.

Lemma forM_decodeFrame_returns (emissions : list float) (T N startFrame : Z)
    (n : nat) :
  ∀ (a : Z) (d : Decoder),
    wellFormedDecoder N d → 0 ≤ a → a + Z.of_nat n ≤ T → 0 ≤ N →
    T * N ≤ Z.of_nat (length emissions) →
    Forall (wellFormedState (lexicon_ d) N)
      (hyp_at (startFrame + a) (hyp_ d)) →
    ∃ d',
      forM (decodeFrame emissions N startFrame) (seqZ a (Z.of_nat n)) d
      = Some d'
      ∧ sameConfig d d'
      ∧ nDecodedFrames_ d' = nDecodedFrames_ d
      ∧ nPrunedFrames_ d' = nPrunedFrames_ d
      ∧ Forall (wellFormedState (lexicon_ d) N)
          (hyp_at (startFrame + a + Z.of_nat n) (hyp_ d')).
Proof.
  induction n as [|n IH]; intros a d Hd Ha HT HN Hem Hframe.
  { exists d. simpl. rewrite Z.add_0_r. by split_and!. }
  rewrite seqZ_cons by lia. simpl.
  destruct (decodeFrame_returns emissions T N startFrame a d)
    as (dm & Hdm & Hframe'); [done|lia|done..|].
  rewrite Hdm. simpl.
  destruct (decodeFrame_inv _ _ _ _ _ _ Hdm)
    as (d0 & Hstore & Hcfg0 & _ & _ & Hn0 & Hp0 & _).
  destruct (candidatesStore_inv _ _ _ _ Hstore) as (Hcfgm & Hnm & Hpm & _).
  assert (Hcfg : sameConfig d dm) by (by eapply sameConfig_trans).
  replace (Z.pred (Z.of_nat (S n))) with (Z.of_nat n) by lia.
  destruct (IH (Z.succ a) dm) as (d' & -> & Hcfg' & Hn & Hp & Hlast);
    [by eapply wellFormedDecoder_sameConfig|lia|lia|done|done| |].
  { destruct Hcfg as (_ & <- & _).
    by replace (startFrame + Z.succ a) with (startFrame + a + 1) by lia. }
  exists d'. split; [done|]. split_and!.
  - by eapply sameConfig_trans.
  - congruence.
  - congruence.
  - destruct Hcfg as (_ & Hlex & _). rewrite Hlex.
    by replace (startFrame + a + Z.of_nat (S n))
      with (startFrame + Z.succ a + Z.of_nat n) by lia.
Qed.

Lemma hyp_at_extendHyp (bound k : Z) (h : gmap Z (list State)) :
  hyp_at k (extendHyp bound h) = hyp_at k h.
Proof.
  unfold extendHyp. destruct (Z.of_nat (size h) <? bound); [|done].
  generalize (seqZ (Z.of_nat (size h)) (bound - Z.of_nat (size h))).
  intros ks. revert h. induction ks as [|i ks IH]; intros h; simpl; [done|].
  by rewrite IH, hyp_at_touch.
Qed.

Lemma finishHyps_wellFormed (N : Z) (d : Decoder) (hasNiceEnding : bool)
    (prev : list State) :
  0 ≤ sil_ d < N →
  Forall (wellFormedState (lexicon_ d) N) prev →
  Forall (wellFormedState (lexicon_ d) N) (finishHyps d hasNiceEnding prev).
Proof.
  intros Hsil Hprev. unfold finishHyps. apply Forall_forall. intros c Hc.
  apply list_elem_of_join in Hc as (r & Hc & Hr).
  apply elem_of_lookup_imap in Hr as (j & p & -> & Hj).
  case_match; [|by apply elem_of_nil in Hc].
  apply list_elem_of_singleton in Hc as ->.
  rewrite Forall_forall in Hprev.
  destruct (Hprev p) as [Hlex _]; [apply list_elem_of_lookup; by exists j|].
  by split.
Qed.

(** On a well-formed decoder standing on a well-formed frame, a call with
    complete arguments returns, and the decoder then stands on a
    well-formed frame again. *)
Lemma runCall_returns (N : Z) (c : Call) (d : Decoder) :
  wellFormedDecoder N d → completeCall N c →
  Forall (wellFormedState (lexicon_ d) N) (hyp_at (currentFrame d) (hyp_ d)) →
  ∃ d', runCall c d = Some d'
        ∧ sameConfig d d'
        ∧ Forall (wellFormedState (lexicon_ d) N)
            (hyp_at (currentFrame d') (hyp_ d')).
Proof.
  unfold currentFrame. intros Hd Hc Hframe.
  destruct c as [emissions T N'|]; simpl in *.
  - destruct Hc as (-> & HT & HN & Hem). unfold decodeStep.
    rewrite (proj2 (Z.ltb_ge _ _) HN).
    set (startFrame := nDecodedFrames_ d - nPrunedFrames_ d) in *.
    destruct (forM_decodeFrame_returns emissions T N startFrame (Z.to_nat T) 0
                (set_hyp (extendHyp (startFrame + T + 2) (hyp_ d)) d))
      as (d' & Hloop & Hcfg & Hn & Hp & Hlast); try done; try lia.
    { simpl. by rewrite hyp_at_extendHyp, Z.add_0_r. }
    rewrite Z2Nat.id in Hloop, Hlast by done. rewrite Hloop. simpl.
    eexists. split; [done|]. simpl in *. split; [done|].
    rewrite Hn, Hp.
    by replace (nDecodedFrames_ d + T - nPrunedFrames_ d)
      with (startFrame + 0 + T) by (unfold startFrame; lia).
  - destruct (decodeEnd d) as [d'|] eqn:Hend.
    + exists d'. split; [done|].
      apply decodeEnd_inv in Hend as Hinv.
      destruct Hinv as (d0 & d1 & Hstore & Hcfg0 & Hptrs & Hcs & Hh0 & Hh
                        & Hcfg & Hn & Hp).
      split; [done|]. rewrite Hh, Hn, Hp.
      replace (nDecodedFrames_ d + 1 - nPrunedFrames_ d)
        with (nDecodedFrames_ d - nPrunedFrames_ d + 1) by lia.
      apply candidatesStore_frame in Hstore
        as (frame & -> & _ & _ & _ & _ & Hbuilt).
      unfold hyp_at. rewrite lookup_insert_eq. simpl.
      eapply Forall_impl; [exact Hbuilt|]. intros x Hx.
      eapply builtFrom_wellFormedState; [|exact Hx].
      rewrite Hptrs. simpl. apply Forall_forall. intros c' Hc'%Hcs.
      revert c' Hc'. apply Forall_forall.
      apply finishHyps_wellFormed; [apply Hd|done].
    + exfalso. destruct (decodeEnd_returns d) as [d' Hd']; [apply Hd|].
      congruence.
Qed.

Lemma decodeBegin_wellFormed (N : Z) (d : Decoder) :
  wellFormedDecoder N d →
  wellFormedDecoder N (decodeBegin d)
  ∧ Forall (wellFormedState (lexicon_ (decodeBegin d)) N)
      (hyp_at (currentFrame (decodeBegin d)) (hyp_ (decodeBegin d))).
Proof.
  intros Hd. split; [exact Hd|].
  unfold currentFrame, hyp_at. simpl. rewrite lookup_singleton_eq. simpl.
  constructor; [|constructor]. split; simpl; apply Hd.
Qed.

(** X17: the decoder is total on well-formed input: on a closed trie, with
    [sil_] and (under CTC) [blank_] below N, N × N transitions under ASG, a
    token beam that is not negative and a sound beam threshold,
    [decodeBegin] followed by any sequence of [decodeStep] (T × N emissions
    each) and [decodeEnd] calls returns: no read outside [emissions] or
    [transitions_], no dangling trie pointer, no null candidate pointer. *)
Lemma decode_returns (N : Z) (calls : list Call) (d : Decoder) :
  wellFormedDecoder N d → Forall (completeCall N) calls →
  is_Some (decode calls d).
Proof.
  intros Hd Hcalls. unfold decode.
  destruct (decodeBegin_wellFormed N d Hd) as [Hd0 Hframe].
  revert Hd0 Hframe. generalize (decodeBegin d). clear d Hd.
  induction calls as [|c calls IH]; intros d Hd Hframe; simpl;
    [by eexists|].
  apply Forall_cons in Hcalls as [Hc Hcalls].
  destruct (runCall_returns N c d Hd Hc Hframe) as (d' & -> & Hcfg & Hframe').
  simpl. apply IH; [done|by eapply wellFormedDecoder_sameConfig|].
  by destruct Hcfg as (_ & <- & _).
Qed.

(** ** Frame counters and the buffer *)

Lemma runCall_counters (c : Call) (d d' : Decoder) :
  runCall c d = Some d' →
  sameConfig d d'
  ∧ nDecodedFrames_ d' = nDecodedFrames_ d + framesOf c
  ∧ nPrunedFrames_ d' = nPrunedFrames_ d.
Proof.
  destruct c as [emissions T N|]; simpl; intros Hrun.
  - apply decodeStep_inv in Hrun as (Hcfg & Hn & Hp & _). by split_and!.
  - apply decodeEnd_inv in Hrun
      as (d0 & d1 & _ & _ & _ & _ & _ & _ & Hcfg & Hn & Hp).
    by split_and!.
Qed.

Lemma forM_runCall_counters (calls : list Call) :
  ∀ d d' : Decoder,
    forM runCall calls d = Some d' →
    sameConfig d d'
    ∧ nDecodedFrames_ d' = nDecodedFrames_ d + totalFrames calls
    ∧ nPrunedFrames_ d' = nPrunedFrames_ d.
Proof.
  induction calls as [|c calls IH]; intros d d' Hrun; simpl in *.
  { injection Hrun as <-. split_and!; [apply sameConfig_refl|lia|done]. }
  apply bind_Some in Hrun as (dm & Hc & Hrun).
  apply runCall_counters in Hc as (Hcfg & Hn & Hp).
  apply IH in Hrun as (Hcfg' & Hn' & Hp').
  split_and!; [by eapply sameConfig_trans|lia|congruence].
Qed.

Lemma decode_counters (calls : list Call) (d d' : Decoder) :
  decode calls d = Some d' →
  sameConfig d d'
  ∧ nDecodedFrames_ d' = totalFrames calls
  ∧ nPrunedFrames_ d' = 0.
Proof.
  unfold decode.
  intros (Hcfg & Hn & Hp)%forM_runCall_counters. simpl in *.
  split_and!; [|lia..].
  eapply sameConfig_trans; [|exact Hcfg]. by repeat split.
Qed.

(** X1: after [decodeBegin] and a sequence of calls that returns, each step
    with T ≥ 0 and N ≥ 0 and the whole within the range of [int] (the frame
    total plus 2, and the indices of every step), [nDecodedFrames_] is the
    sum of the T of the steps plus one per [decodeEnd], nothing is pruned,
    [nDecodedFramesInBuffer] is one more than that sum, and the constructor
    arguments are what they were. *)
Theorem decode_frame_count (calls : list Call) (d d' : Decoder) :
  Forall indicesInInt calls →
  totalFrames calls + 2 ≤ INT_MAX →
  decode calls d = Some d' →
  nDecodedFrames_ d' = totalFrames calls
  ∧ nPrunedFrames_ d' = 0
  ∧ nDecodedFramesInBuffer d' = totalFrames calls + 1
  ∧ sameConfig d d'.
Proof.
  intros _ _ (Hcfg & Hn & Hp)%decode_counters.
  unfold nDecodedFramesInBuffer. split_and!; [done..|lia|done].
Qed.

Lemma runCall_bufferComplete (c : Call) (d d' : Decoder) :
  runCall c d = Some d' → bufferComplete d → bufferComplete d'.
Proof.
  intros Hrun Hd k Hk.
  pose proof (runCall_counters _ _ _ Hrun) as (_ & Hn & Hp).
  destruct (Z.le_gt_cases k (currentFrame d)) as [Hle|Hgt].
  - rewrite (runCall_keeps _ _ _ _ Hrun); [|done|]; apply Hd; lia.
  - destruct (producedFrame_stored c d d' k Hrun)
      as (s & d0 & d1 & Hstore & _ & _ & ->).
    + unfold currentFrame in *. destruct c; simpl in *; lia.
    + by eapply candidatesStore_lookup.
Qed.

Lemma forM_runCall_bufferComplete (calls : list Call) :
  ∀ d d' : Decoder,
    forM runCall calls d = Some d' → bufferComplete d → bufferComplete d'.
Proof.
  induction calls as [|c calls IH]; intros d d' Hrun Hd; simpl in *.
  { by injection Hrun as <-. }
  apply bind_Some in Hrun as (dm & Hc & Hrun).
  eapply IH; [done|]. by eapply runCall_bufferComplete.
Qed.

(** X2: after [decodeBegin] and any sequence of calls that returns, every
    frame from 0 to the current one is in [hyp_]; the lookups
    [hyp_.find(..)->second] of [nHypothesis], [getAllFinalHypothesis] and
    [getBestHypothesis] therefore find their frame, whenever the counters
    did not go below 0. *)
Theorem decode_buffer_complete (calls : list Call) (d d' : Decoder) :
  decode calls d = Some d' →
  0 ≤ totalFrames calls →
  (∀ k, 0 ≤ k ≤ totalFrames calls → is_Some (hyp_ d' !! k))
  ∧ is_Some (nHypothesis d')
  ∧ is_Some (getAllFinalHypothesis d')
  ∧ ∀ lookBack, is_Some (getBestHypothesis lookBack d').
Proof.
  intros Hrun Htotal.
  destruct (decode_counters calls d d' Hrun) as (_ & Hn & Hp).
  assert (Hcomplete : bufferComplete d').
  { eapply forM_runCall_bufferComplete; [exact Hrun|].
    intros k Hk. unfold currentFrame in Hk. simpl in *.
    replace k with 0 by lia. rewrite lookup_singleton_eq. by eexists. }
  assert (Hcur : currentFrame d' = totalFrames calls)
    by (unfold currentFrame; lia).
  destruct (Hcomplete (currentFrame d')) as [frame Hframe]; [lia|].
  unfold currentFrame in Hframe.
  split_and!.
  - intros k Hk. apply Hcomplete. lia.
  - unfold nHypothesis. rewrite Hframe. by eexists.
  - unfold getAllFinalHypothesis. case_match; [by eexists|].
    rewrite Hframe. by eexists.
  - intros lookBack. unfold getBestHypothesis. case_match; [by eexists|].
    rewrite Hframe. by eexists.
Qed.

Lemma runCall_currentFrame (c : Call) (d d' : Decoder) :
  runCall c d = Some d' → currentFrame d' = currentFrame d + framesOf c.
Proof.
  intros (_ & Hn & Hp)%runCall_counters. unfold currentFrame. lia.
Qed.

Lemma forM_runCall_keeps (calls : list Call) (d d' : Decoder) (k : Z) :
  Forall (λ c, 0 ≤ framesOf c) calls →
  forM runCall calls d = Some d' →
  k ≤ currentFrame d → is_Some (hyp_ d !! k) →
  hyp_ d' !! k = hyp_ d !! k.
Proof.
  intros Hcalls. revert d.
  induction Hcalls as [|c calls Hc Hcalls IH]; intros d Hrun Hk Hsome;
    simpl in *.
  { by injection Hrun as <-. }
  apply bind_Some in Hrun as (dm & Hcall & Hrun).
  pose proof (runCall_currentFrame _ _ _ Hcall) as Hcur.
  pose proof (runCall_keeps _ _ _ _ Hcall Hk Hsome) as Hkept.
  rewrite (IH dm Hrun); [done|lia|by rewrite Hkept].
Qed.

(** X3: calls that decode forward never rewrite history: a frame at or
    before the current one is, after any further sequence of [decodeStep]
    (T ≥ 0) and [decodeEnd] calls, exactly what it was, and a parent pointer
    of one of its states still leads to the same state of the frame
    before. *)
Theorem earlier_frames_kept (calls : list Call) (d d' : Decoder) (k : Z) :
  Forall (λ c, 0 ≤ framesOf c) calls →
  forM runCall calls d = Some d' →
  k ≤ currentFrame d → is_Some (hyp_ d !! k) →
  hyp_ d' !! k = hyp_ d !! k
  ∧ (is_Some (hyp_ d !! (k - 1)) →
     ∀ s, parentOf (hyp_ d') k s = parentOf (hyp_ d) k s).
Proof.
  intros Hcalls Hrun Hk Hsome. split.
  { by eapply forM_runCall_keeps. }
  intros Hprev s. unfold parentOf.
  destruct (parent s) as [j|]; [|done]. simpl.
  by rewrite (forM_runCall_keeps calls d d' (k - 1)) by (done || lia).
Qed.

(** X4: a [decodeStep] with T ≤ 0 whose frame arithmetic stays within
    [int] (startFrame, startFrame + T, startFrame + T + 2 and
    [nDecodedFrames_ + T]) decodes no frame and stages nothing: the frames of
    the buffer and the staging buffer are what they were (missing frames up
    to startFrame + T + 1 are created empty), yet [nDecodedFrames_] is moved
    by T. *)
Theorem decodeStep_no_frames (emissions : list float) (T N : Z)
    (d : Decoder) :
  T ≤ 0 → 0 ≤ N →
  inInt (currentFrame d) → inInt (currentFrame d + T) →
  inInt (currentFrame d + T + 2) → inInt (nDecodedFrames_ d + T) →
  ∃ d', decodeStep emissions T N d = Some d'
        ∧ sameConfig d d'
        ∧ nDecodedFrames_ d' = nDecodedFrames_ d + T
        ∧ nPrunedFrames_ d' = nPrunedFrames_ d
        ∧ candidates_ d' = candidates_ d
        ∧ candidatesBestScore_ d' = candidatesBestScore_ d
        ∧ (∀ k, is_Some (hyp_ d !! k) → hyp_ d' !! k = hyp_ d !! k)
        ∧ (∀ k, hyp_at k (hyp_ d') = hyp_at k (hyp_ d)).
Proof.
  intros HT HN _ _ _ _. unfold decodeStep.
  rewrite (proj2 (Z.ltb_ge _ _) HN).
  assert (Hnil : seqZ 0 T = []).
  { unfold seqZ. by replace (Z.to_nat T) with 0%nat by lia. }
  rewrite Hnil. simpl. eexists. split; [done|]. simpl.
  split_and!; try done.
  - intros k Hk. by apply extendHyp_lookup.
  - intros k. apply hyp_at_extendHyp.
Qed.

(** X5: on a decoder that [decodeBegin] has just reset, whatever it held
    before, the buffer is the single start hypothesis: [nHypothesis] is 1,
    [nDecodedFramesInBuffer] is 1, [getAllFinalHypothesis] is empty, and for
    every [lookBack ≥ 0] [getBestHypothesis] is the empty result and [prune]
    changes nothing. *)
Theorem decodeBegin_queries (lookBack : Z) (d : Decoder) :
  0 ≤ lookBack →
  hyp_ (decodeBegin d)
  = {[ 0 := [ mkState _ (lm_start false) (getRoot (lexicon_ d)) None
                0%float (sil_ d) (-1) false ] ]}
  ∧ nHypothesis (decodeBegin d) = Some 1
  ∧ nDecodedFramesInBuffer (decodeBegin d) = 1
  ∧ getAllFinalHypothesis (decodeBegin d) = Some []
  ∧ getBestHypothesis lookBack (decodeBegin d) = Some emptyDecodeResult
  ∧ prune lookBack (decodeBegin d) = Some (decodeBegin d).
Proof.
  intros Hlook. split_and!; try done.
  - unfold getBestHypothesis. simpl.
    by rewrite (proj2 (Z.ltb_lt (0 - 0 - lookBack) 1)) by lia.
  - unfold prune. simpl.
    by rewrite (proj2 (Z.ltb_lt (0 - 0 - lookBack) 1)) by lia.
Qed.

(** ** Every stored state hangs on the previous frame *)

Lemma offered_sameFields (d : Decoder) (p s c : State) :
  sameFields s c → offered d p c → offered d p s.
Proof.
  intros (Hlm & Hlex & Htok & Hword & Hpb) Hc.
  destruct Hc;
    [ eapply offered_same | eapply offered_blank | eapply offered_finish
    | eapply offered_continue | eapply offered_word
    | eapply offered_unknown ];
    rewrite ?Hlm, ?Hlex, ?Htok, ?Hword, ?Hpb; eassumption.
Qed.

Lemma offered_sameConfig (d d' : Decoder) (p c : State) :
  sameConfig d d' → offered d p c → offered d' p c.
Proof.
  intros (Hopt & Hlex & Hsil & Hblank & Hunk & _) Hc.
  destruct Hc;
    [ eapply offered_same | eapply offered_blank | eapply offered_finish
    | eapply offered_continue | eapply offered_word
    | eapply offered_unknown ];
    rewrite <- ?Hopt, <- ?Hlex, <- ?Hsil, <- ?Hblank, <- ?Hunk; eassumption.
Qed.

Lemma linkedTo_sameConfig (d d' : Decoder) (prev : list State) (s : State) :
  sameConfig d d' → linkedTo d prev s → linkedTo d' prev s.
Proof.
  intros Hcfg [(j & p & Hj & Hs) Hpar]. split; [|done].
  exists j, p. split; [done|]. by eapply offered_sameConfig.
Qed.

Lemma builtFrom_linkedTo (d : Decoder) (prev pool : list State) (s : State) :
  (∀ c, c ∈ pool →
        ∃ j p, prev !! j = Some p ∧ offered d p c ∧ parent c = Some j) →
  builtFrom pool s → linkedTo d prev s.
Proof.
  intros Hpool (c & c' & Hc & Hc' & Hfields & Hparent).
  destruct (Hpool c Hc) as (j & p & Hj & Hoff & _).
  destruct (Hpool c' Hc') as (j' & p' & Hj' & _ & Hpar').
  split.
  - exists j, p. split; [done|]. by eapply offered_sameFields.
  - exists j', p'. split; [done|]. congruence.
Qed.

Lemma tryChildren_offered d emissions t N j prevHyp lexMaxScore n r :
  tryChildren d emissions t N j prevHyp lexMaxScore n = Some r →
  ∀ c, c ∈ r → offered d prevHyp c ∧ parent c = Some j.
Proof.
  unfold tryChildren. intros Hr c Hc.
  destruct (nodes (lexicon_ d) !! lex prevHyp) as [prevNode|] eqn:Hprev;
    [|done].
  simpl in Hr.
  destruct (children prevNode !! n) as [lexPtr|] eqn:Hchild;
    [|injection Hr as <-; by apply elem_of_nil in Hc].
  destruct (nodes (lexicon_ d) !! lexPtr) as [lexNode|] eqn:Hnode; [|done].
  simpl in Hr.
  destruct (acousticScore d emissions t N prevHyp n) as [sc|]; [|done].
  simpl in Hr. injection Hr as <-.
  apply elem_of_app in Hc as [Hc|Hc]; [|apply elem_of_app in Hc as [Hc|Hc]].
  - destruct (_ && negb (bool_decide _)) eqn:Heat;
      [|by apply elem_of_nil in Hc].
    apply andb_true_iff in Heat as [Hguard Hkids].
    apply negb_true_iff, bool_decide_eq_false in Hkids.
    destruct (if isLmToken_ d then _ else _) as [lmSt lmSc].
    apply list_elem_of_singleton in Hc as ->. split; [|done].
    eapply offered_continue; simpl; try done.
    intros Hctc. rewrite Hctc in Hguard. simpl in Hguard.
    apply orb_true_iff in Hguard as [->|Hne]; [by left|right].
    apply negb_true_iff in Hne. lia.
  - apply list_elem_of_fmap in Hc as (label & -> & Hlabel).
    destruct (if isLmToken_ d then _ else _) as [lmSt lmSc].
    split; [|done]. by eapply offered_word.
  - destruct (bool_decide _ && _) eqn:Hunk; [|by apply elem_of_nil in Hc].
    apply andb_true_iff in Hunk as [Hnil Hscore].
    apply bool_decide_eq_true in Hnil.
    destruct (if isLmToken_ d then _ else _) as [lmSt lmSc].
    apply list_elem_of_singleton in Hc as ->. split; [|done].
    by eapply offered_unknown.
Qed.

Lemma expandHyp_offered d emissions t N idx j prevHyp r :
  expandHyp d emissions t N idx j prevHyp = Some r →
  ∀ c, c ∈ r → offered d prevHyp c ∧ parent c = Some j.
Proof.
  unfold expandHyp. intros Hr c Hc.
  apply bind_Some in Hr as (lexMaxScore & _ & Hr).
  apply bind_Some in Hr as (r1 & Hr1 & Hr).
  apply bind_Some in Hr as (r2 & Hr2 & Hr).
  apply bind_Some in Hr as (r3 & Hr3 & Hr).
  injection Hr as <-.
  apply elem_of_app in Hc as [Hc|Hc]; [|apply elem_of_app in Hc as [Hc|Hc]].
  - destruct (collect_Some _ _ _ Hr1 c Hc) as (n & r' & _ & Hn & Hc').
    by eapply tryChildren_offered.
  - unfold trySameNode in Hr2.
    destruct (negb _ || negb _) eqn:Hguard;
      [|injection Hr2 as <-; by apply elem_of_nil in Hc].
    apply bind_Some in Hr2 as (sc & _ & Hr2). injection Hr2 as <-.
    apply list_elem_of_singleton in Hc as ->. split; [|done].
    apply offered_same; simpl; try done.
    intros Hctc. rewrite Hctc in Hguard. simpl in Hguard.
    by apply negb_true_iff in Hguard.
  - unfold tryBlank in Hr3.
    destruct (criterionType (opt_ d)) eqn:Hcrit; simpl in Hr3;
      [injection Hr3 as <-; by apply elem_of_nil in Hc|].
    apply bind_Some in Hr3 as (e & _ & Hr3). injection Hr3 as <-.
    apply list_elem_of_singleton in Hc as ->. split; [|done].
    by apply offered_blank.
Qed.

Lemma finishHyps_offered (d : Decoder) (hasNiceEnding : bool)
    (prev : list State) (c : State) :
  c ∈ finishHyps d hasNiceEnding prev →
  ∃ j p, prev !! j = Some p ∧ offered d p c ∧ parent c = Some j
         ∧ (hasNiceEnding = true → lex p = getRoot (lexicon_ d)).
Proof.
  unfold finishHyps. intros Hc.
  apply list_elem_of_join in Hc as (r & Hc & Hr).
  apply elem_of_lookup_imap in Hr as (j & p & -> & Hj).
  destruct (negb hasNiceEnding || _) eqn:Hguard;
    [|by apply elem_of_nil in Hc].
  apply list_elem_of_singleton in Hc as ->.
  exists j, p. split_and!; try done.
  - by apply offered_finish.
  - intros ->. simpl in Hguard. lia.
Qed.

Lemma hyp_touch_at (k : Z) (h : gmap Z (list State)) :
  hyp_touch k h !! k = Some (hyp_at k h).
Proof.
  unfold hyp_touch, hyp_at. destruct (h !! k) eqn:Hk; simpl.
  - by rewrite Hk.
  - by rewrite lookup_insert_eq.
Qed.

(** Storing what was offered to a fresh staging buffer: the frame is built
    from the offers. *)
Lemma store_offered_frame (k : Z) (returnSorted : bool) (d d' : Decoder)
    (offered : list State) :
  candidatePtrs_ d = [] → candidates_ d = [] →
  candidatesStore k returnSorted
    (foldl (λ d c, candidatesAdd c d) d offered) = Some d' →
  ∃ frame, hyp_ d' = <[k := frame]> (hyp_ d)
           ∧ Forall (builtFrom offered) frame.
Proof.
  intros Hptrs Hcs Hstore.
  destruct (foldl_candidatesAdd_inv offered d)
    as (_ & (Hh & _) & Hptrs' & Hsub).
  apply candidatesStore_frame in Hstore
    as (frame & -> & _ & _ & _ & _ & Hbuilt).
  exists frame. split; [by rewrite Hh|].
  eapply Forall_impl; [exact Hbuilt|]. intros x.
  apply builtFrom_mono. rewrite Hptrs', Hptrs, Hcs in *. done.
Qed.

Lemma decodeFrame_linked (emissions : list float) (N startFrame t : Z)
    (d d' : Decoder) :
  decodeFrame emissions N startFrame t d = Some d' →
  ∃ frame,
    hyp_ d' = <[startFrame + t + 1 := frame]>
                (hyp_touch (startFrame + t) (hyp_ d))
    ∧ Forall (linkedTo d (hyp_at (startFrame + t) (hyp_ d))) frame.
Proof.
  unfold decodeFrame. intros Hframe.
  apply bind_Some in Hframe as (idx & _ & Hframe).
  apply bind_Some in Hframe as (pool & Hpool & Hstore).
  apply store_offered_frame in Hstore as (frame & Hh & Hbuilt); [|done..].
  exists frame. split; [done|].
  eapply Forall_impl; [exact Hbuilt|]. intros s.
  apply builtFrom_linkedTo. intros c Hc.
  destruct (collect_Some _ _ _ Hpool c Hc) as ([j p] & r & Hin & Hjp & Hr).
  simpl in Hjp, Hin. rewrite hyp_at_touch in Hin.
  apply elem_of_lookup_imap in Hin as (i & x & Heq & Hx).
  injection Heq as -> ->.
  exists i, x. split; [done|].
  destruct (expandHyp_offered _ _ _ _ _ _ _ _ Hjp c) as [Hoff Hpar];
    [done|].
  split; [|done]. eapply offered_sameConfig; [|exact Hoff].
  by repeat split.
Qed.

Lemma sameConfig_sym (d d' : Decoder) : sameConfig d d' → sameConfig d' d.
Proof. intros (?&?&?&?&?&?&?). by repeat split. Qed.

Lemma forM_decodeFrame_linked (emissions : list float) (N startFrame : Z)
    (n : nat) :
  ∀ (a : Z) (d d' : Decoder),
    forM (decodeFrame emissions N startFrame) (seqZ a (Z.of_nat n)) d
    = Some d' →
    ∀ t, a ≤ t < a + Z.of_nat n →
      ∃ prev frame,
        hyp_ d' !! (startFrame + t) = Some prev
        ∧ hyp_ d' !! (startFrame + t + 1) = Some frame
        ∧ Forall (linkedTo d prev) frame.
Proof.
  induction n as [|n IH]; intros a d d' Hloop t Ht; [lia|].
  rewrite seqZ_cons in Hloop by lia. simpl in Hloop.
  replace (Z.pred (Z.of_nat (S n))) with (Z.of_nat n) in Hloop by lia.
  apply bind_Some in Hloop as (dm & Hframe & Hloop).
  destruct (decide (t = a)) as [->|Hne].
  - destruct (decodeFrame_linked _ _ _ _ _ _ Hframe)
      as (frame & Hh & Hlinked).
    apply forM_decodeFrame in Hloop as (_ & _ & _ & _ & Hkept);
      [|apply NoDup_seqZ].
    exists (hyp_at (startFrame + a) (hyp_ d)), frame.
    assert (Hprev : hyp_ dm !! (startFrame + a)
                    = Some (hyp_at (startFrame + a) (hyp_ d))).
    { rewrite Hh, lookup_insert_ne by lia. apply hyp_touch_at. }
    assert (Hnext : hyp_ dm !! (startFrame + a + 1) = Some frame).
    { rewrite Hh. apply lookup_insert_eq. }
    split_and!; [| |done].
    + rewrite Hkept; [done| |by rewrite Hprev].
      intros t' Ht'%elem_of_seqZ. lia.
    + rewrite Hkept; [done| |by rewrite Hnext].
      intros t' Ht'%elem_of_seqZ. lia.
  - destruct (IH (Z.succ a) dm d' Hloop t) as (prev & frame & ? & ? & Hl);
      [lia|].
    exists prev, frame. split_and!; [done..|].
    destruct (decodeFrame_inv _ _ _ _ _ _ Hframe)
      as (d0 & Hstore & Hcfg0 & _).
    destruct (candidatesStore_inv _ _ _ _ Hstore) as (Hcfgm & _).
    eapply Forall_impl; [exact Hl|]. intros s.
    apply linkedTo_sameConfig, sameConfig_sym.
    by eapply sameConfig_trans.
Qed.

(** Every state of a frame that a call produces hangs on the frame before
    it, as both frames stand when the call returns. *)
Lemma runCall_linked (c : Call) (d d' : Decoder) (k : Z) :
  runCall c d = Some d' → producedFrame c d k →
  ∃ prev frame,
    hyp_ d' !! (k - 1) = Some prev
    ∧ hyp_ d' !! k = Some frame
    ∧ Forall (linkedTo d prev) frame.
Proof.
  destruct c as [emissions T N|]; simpl; intros Hrun Hk.
  - unfold decodeStep in Hrun. destruct (N <? 0); [done|].
    apply bind_Some in Hrun as (dT & Hloop & Hrun). injection Hrun as <-.
    set (startFrame := nDecodedFrames_ d - nPrunedFrames_ d) in *.
    rewrite <- (Z2Nat.id T) in Hloop by lia.
    destruct (forM_decodeFrame_linked _ _ _ _ _ _ _ Hloop
                (k - startFrame - 1))
      as (prev & frame & Hprev & Hframe & Hlinked); [lia|].
    exists prev, frame. simpl.
    replace (startFrame + (k - startFrame - 1)) with (k - 1) in * by lia.
    replace (k - 1 + 1) with k in * by lia.
    split_and!; [done..|].
    eapply Forall_impl; [exact Hlinked|]. intros s.
    apply linkedTo_sameConfig. by repeat split.
  - subst k.
    apply decodeEnd_inv in Hrun
      as (d0 & d1 & Hstore & Hcfg0 & Hptrs & Hcs & Hh0 & -> & _).
    apply candidatesStore_frame in Hstore
      as (frame & -> & _ & _ & _ & _ & Hbuilt).
    set (k := nDecodedFrames_ d - nPrunedFrames_ d) in *.
    exists (hyp_at k (hyp_ d)), frame.
    replace (k + 1 - 1) with k by lia.
    split_and!.
    + rewrite lookup_insert_ne, Hh0 by lia. apply hyp_touch_at.
    + apply lookup_insert_eq.
    + eapply Forall_impl; [exact Hbuilt|]. intros s Hs.
      eapply builtFrom_linkedTo; [|exact Hs].
      rewrite Hptrs. simpl. intros c Hc%Hcs.
      destruct (finishHyps_offered _ _ _ _ Hc) as (j & p & ? & ? & ? & _).
      by exists j, p.
Qed.

(** ** Parent chains *)

Lemma runCall_chained (c : Call) (d d' : Decoder) :
  0 ≤ framesOf c → runCall c d = Some d' →
  bufferComplete d → chained d → chained d'.
Proof.
  intros Hc Hrun Hbuf Hchain k frame s Hk Hframe Hs.
  pose proof (runCall_currentFrame _ _ _ Hrun) as Hcur.
  destruct (Z.le_gt_cases k (currentFrame d)) as [Hle|Hgt].
  - rewrite (runCall_keeps _ _ _ _ Hrun) in Hframe;
      [|done|apply Hbuf; lia].
    destruct (Hchain k frame s) as [p Hp]; [lia|done..|].
    exists p. unfold parentOf in *.
    destruct (parent s) as [j|]; [|done]. simpl in *.
    rewrite (runCall_keeps _ _ _ _ Hrun); [done|lia|apply Hbuf; lia].
  - destruct (runCall_linked c d d' k Hrun)
      as (prev & frame' & Hprev & Hframe' & Hlinked).
    { unfold currentFrame in *. destruct c; simpl in *; lia. }
    rewrite Hframe in Hframe'. injection Hframe' as <-.
    rewrite Forall_forall in Hlinked.
    destruct (Hlinked s Hs) as [_ (j & p & Hj & Hpar)].
    exists p. unfold parentOf. rewrite Hpar. simpl. by rewrite Hprev.
Qed.

Lemma forM_runCall_chained (calls : list Call) :
  ∀ d d' : Decoder,
    Forall (λ c, 0 ≤ framesOf c) calls →
    forM runCall calls d = Some d' →
    bufferComplete d → chained d → chained d'.
Proof.
  induction calls as [|c calls IH]; intros d d' Hcalls Hrun Hbuf Hchain;
    simpl in *.
  { by injection Hrun as <-. }
  apply Forall_cons in Hcalls as [Hc Hcalls].
  apply bind_Some in Hrun as (dm & Hcall & Hrun).
  eapply IH; [done..| |].
  - by eapply runCall_bufferComplete.
  - by eapply runCall_chained.
Qed.

Lemma chained_ancestor (h : gmap Z (list State)) (K : Z) :
  (∀ k frame s, 1 ≤ k ≤ K → h !! k = Some frame → s ∈ frame →
                is_Some (parentOf h k s)) →
  ∀ (n : nat) (k : Z) (frame : list State) (s : State),
    Z.of_nat n ≤ k ≤ K → h !! k = Some frame → s ∈ frame →
    ∃ a fr, ancestor h k s n = Some a
            ∧ h !! (k - Z.of_nat n) = Some fr ∧ a ∈ fr.
Proof.
  intros Hchain. induction n as [|n IH]; intros k frame s Hk Hframe Hs.
  { exists s, frame. simpl. by rewrite Z.sub_0_r. }
  destruct (Hchain k frame s) as [p Hp]; [lia|done..|].
  simpl. rewrite Hp. simpl.
  unfold parentOf in Hp.
  apply bind_Some in Hp as (j & _ & Hp).
  apply bind_Some in Hp as (prev & Hprev & Hp).
  destruct (IH (k - 1) prev p) as (a & fr & Ha & Hfr & Hin);
    [lia|done|by eapply list_elem_of_lookup_2|].
  exists a, fr. split_and!; [done| |done].
  by replace (k - Z.of_nat (S n)) with (k - 1 - Z.of_nat n) by lia.
Qed.

(** X7: after [decodeBegin] and any sequence of [decodeStep] (T ≥ 0) and
    [decodeEnd] calls that returns, every state of every frame k ≥ 1 has a
    parent pointer into frame k - 1, and following the parent pointers k
    times from a state of frame k ends at the start hypothesis that
    [decodeBegin] put in frame 0. *)
Theorem hypotheses_trace_back (calls : list Call) (d d' : Decoder) (k : Z)
    (frame : list State) (s : State) :
  Forall (λ c, 0 ≤ framesOf c) calls →
  decode calls d = Some d' →
  0 ≤ k ≤ totalFrames calls →
  hyp_ d' !! k = Some frame → s ∈ frame →
  (1 ≤ k → is_Some (parentOf (hyp_ d') k s))
  ∧ ancestor (hyp_ d') k s (Z.to_nat k)
    = Some (mkState _ (lm_start false) (getRoot (lexicon_ d)) None
              0%float (sil_ d) (-1) false).
Proof.
  intros Hcalls Hrun Hk Hframe Hs.
  destruct (decode_counters calls d d' Hrun) as (_ & Hn & Hp).
  assert (Hcur : currentFrame d' = totalFrames calls)
    by (unfold currentFrame; lia).
  unfold decode in Hrun.
  assert (Hbuf : bufferComplete (decodeBegin d)).
  { intros k' Hk'. unfold currentFrame in Hk'. simpl in *.
    replace k' with 0 by lia. rewrite lookup_singleton_eq. by eexists. }
  assert (Hchain : chained d').
  { eapply forM_runCall_chained; [done..|].
    intros k' fr s' Hk'. unfold currentFrame in Hk'. simpl in Hk'. lia. }
  split.
  { intros Hk1. apply (Hchain k frame s); [lia|done..]. }
  destruct (chained_ancestor (hyp_ d') (currentFrame d') Hchain
              (Z.to_nat k) k frame s) as (a & fr & -> & Hfr & Ha);
    [lia|done..|].
  rewrite Z2Nat.id, Z.sub_diag in Hfr by lia.
  rewrite (forM_runCall_keeps calls (decodeBegin d) d' 0 Hcalls Hrun)
    in Hfr.
  - simpl in Hfr. rewrite lookup_singleton_eq in Hfr. injection Hfr as <-.
    by apply list_elem_of_singleton in Ha as ->.
  - done.
  - simpl. rewrite lookup_singleton_eq. by eexists.
Qed.

(** ** What a stored state can be *)

(** X8: a state stored by [decodeStep] or [decodeEnd] stands in the trie
    where a state [p] of the previous frame stood, or one edge below it
    along the state's own token, or back at the root. *)
Theorem stored_state_lex (c : Call) (d d' : Decoder) (k : Z)
    (frame : list State) (s : State) :
  runCall c d = Some d' → producedFrame c d k →
  hyp_ d' !! k = Some frame → s ∈ frame →
  ∃ prev p,
    hyp_ d' !! (k - 1) = Some prev ∧ p ∈ prev
    ∧ (lex s = lex p
       ∨ lex s = getRoot (lexicon_ d)
       ∨ ∃ node, nodes (lexicon_ d) !! lex p = Some node
                 ∧ children node !! token s = Some (lex s)).
Proof.
  intros Hrun Hk Hframe Hs.
  destruct (runCall_linked c d d' k Hrun Hk)
    as (prev & frame' & Hprev & Hframe' & Hlinked).
  rewrite Hframe in Hframe'. injection Hframe' as <-.
  rewrite Forall_forall in Hlinked.
  destruct (Hlinked s Hs) as [(j & p & Hj & Hoff) _].
  exists prev, p. split_and!; [done|by eapply list_elem_of_lookup_2|].
  destruct Hoff; eauto.
Qed.

(** X9: a stored state has [prevBlank] set only under CTC, and then it is
    the blank of rule (3): its token is [blank_], it carries no word, and
    its lex and LM state are those of a state of the previous frame.  Under
    ASG no stored state has [prevBlank] set. *)
Theorem stored_state_blank (c : Call) (d d' : Decoder) (k : Z)
    (frame : list State) (s : State) :
  runCall c d = Some d' → producedFrame c d k →
  hyp_ d' !! k = Some frame → s ∈ frame →
  prevBlank s = true →
  criterionType (opt_ d) = CTC
  ∧ token s = blank_ d ∧ word s = -1
  ∧ ∃ prev p, hyp_ d' !! (k - 1) = Some prev ∧ p ∈ prev
              ∧ lex s = lex p ∧ lmState s = lmState p.
Proof.
  intros Hrun Hk Hframe Hs Hblank.
  destruct (runCall_linked c d d' k Hrun Hk)
    as (prev & frame' & Hprev & Hframe' & Hlinked).
  rewrite Hframe in Hframe'. injection Hframe' as <-.
  rewrite Forall_forall in Hlinked.
  destruct (Hlinked s Hs) as [(j & p & Hj & Hoff) _].
  destruct Hoff; try congruence.
  split_and!; try done.
  exists prev, p. split_and!; try done. by eapply list_elem_of_lookup_2.
Qed.

(** X10: a stored state carries a word (word ≠ -1) only at the trie root
    and with [prevBlank] unset; the token it consumed leads from the lex of
    a state of the previous frame to a trie node that has this word among
    its labels, or that has no label at all, the word then being [unk_] and
    [unkScore] above -∞. *)
Theorem stored_state_word (c : Call) (d d' : Decoder) (k : Z)
    (frame : list State) (s : State) :
  runCall c d = Some d' → producedFrame c d k →
  hyp_ d' !! k = Some frame → s ∈ frame →
  word s ≠ -1 →
  lex s = getRoot (lexicon_ d) ∧ prevBlank s = false
  ∧ ∃ prev p node child childNode,
      hyp_ d' !! (k - 1) = Some prev ∧ p ∈ prev
      ∧ nodes (lexicon_ d) !! lex p = Some node
      ∧ children node !! token s = Some child
      ∧ nodes (lexicon_ d) !! child = Some childNode
      ∧ (word s ∈ labels childNode
         ∨ labels childNode = [] ∧ word s = unk_ d
           ∧ PrimFloat.ltb kNegativeInfinity (unkScore (opt_ d)) = true).
Proof.
  intros Hrun Hk Hframe Hs Hword.
  destruct (runCall_linked c d d' k Hrun Hk)
    as (prev & frame' & Hprev & Hframe' & Hlinked).
  rewrite Hframe in Hframe'. injection Hframe' as <-.
  rewrite Forall_forall in Hlinked.
  destruct (Hlinked s Hs) as [(j & p & Hj & Hoff) _].
  apply list_elem_of_lookup_2 in Hj.
  destruct Hoff; try congruence.
  - split_and!; try done.
    exists prev, p, node, child, childNode. split_and!; try done. by left.
  - split_and!; try done.
    exists prev, p, node, child, childNode. split_and!; try done. by right.
Qed.

(** X11: every state that [decodeEnd] stores has token [sil_], no word and
    [prevBlank] unset, and stands where a state of the last beam stood; when
    the last beam holds a state at the trie root, every stored state stands
    at the root. *)
Theorem decodeEnd_frame (d d' : Decoder) (frame : list State) (s : State) :
  decodeEnd d = Some d' →
  hyp_ d' !! (currentFrame d + 1) = Some frame → s ∈ frame →
  token s = sil_ d ∧ word s = -1 ∧ prevBlank s = false
  ∧ (∃ p, p ∈ hyp_at (currentFrame d) (hyp_ d) ∧ lex s = lex p
          ∧ lmState s = (lm_finish (lmState p)).1)
  ∧ ((∃ p, p ∈ hyp_at (currentFrame d) (hyp_ d)
           ∧ lex p = getRoot (lexicon_ d)) →
     lex s = getRoot (lexicon_ d)).
Proof.
  unfold currentFrame. intros Hend Hframe Hs.
  apply decodeEnd_inv in Hend
    as (d0 & d1 & Hstore & Hcfg0 & Hptrs & Hcs & Hh0 & Hh & _).
  apply candidatesStore_frame in Hstore
    as (frame' & Hh1 & _ & _ & _ & _ & Hbuilt).
  rewrite Hh, Hh1, lookup_insert_eq in Hframe. injection Hframe as ->.
  rewrite Forall_forall in Hbuilt.
  destruct (Hbuilt s Hs)
    as (c & _ & Hc & _ & (Hlm & Hlex & Htok & Hword & Hpb) & _).
  rewrite Hptrs in Hc. simpl in Hc. apply Hcs in Hc.
  unfold finishHyps in Hc.
  apply list_elem_of_join in Hc as (r & Hc & Hr).
  apply elem_of_lookup_imap in Hr as (j & p & -> & Hj).
  apply list_elem_of_lookup_2 in Hj.
  destruct (negb _ || _) eqn:Hguard; [|by apply elem_of_nil in Hc].
  apply list_elem_of_singleton in Hc as ->. simpl in *.
  split_and!; try done.
  - exists p. by rewrite Hlm, Hlex.
  - intros Hroot%existsb_lex_root. rewrite Hroot in Hguard.
    simpl in Hguard. rewrite Hlex. lia.
Qed.

(** ** mergeCandidates as an operation *)

(** X12: on a pointer array that is not empty [mergeCandidates] returns,
    loses no equivalence class and invents none: every candidate it was
    given has a state of the same key in the merged array, every merged
    state carries the LM state, lex, token, word and prevBlank of a
    candidate it was given, the array is not empty and not longer than
    before; the best staged score, the buffer, the counters and the
    constructor arguments are not touched. *)
Theorem mergeCandidates_classes `{!LMOrder} (d : Decoder) :
  candidatePtrs_ d ≠ [] →
  ∃ d', mergeCandidates d = Some d'
    ∧ (∀ c, c ∈ candidatePtrs_ d →
            ∃ m, m ∈ candidatePtrs_ d' ∧ sameKey c m)
    ∧ (∀ m, m ∈ candidatePtrs_ d' →
            ∃ c, c ∈ candidatePtrs_ d ∧ sameFields m c)
    ∧ (1 ≤ length (candidatePtrs_ d') ≤ length (candidatePtrs_ d))%nat
    ∧ candidatesBestScore_ d' = candidatesBestScore_ d
    ∧ sameConfig d d' ∧ sameBeams d d'.
Proof.
  unfold mergeCandidates. intros Hne.
  pose proof (std_sort_Permutation compareNodesShortList (candidatePtrs_ d))
    as Hperm.
  destruct (std_sort compareNodesShortList (candidatePtrs_ d))
    as [|first rest].
  { symmetry in Hperm. by apply Permutation_nil_r in Hperm. }
  eexists. split; [done|]. simpl. split_and!; try done.
  - intros c Hc. rewrite <- Hperm in Hc. apply mergeSweep_covers.
    apply elem_of_cons in Hc as [->|Hc]; [right|by left].
    exists first. split; [by left|apply sameKey_refl].
  - intros m Hm.
    assert (Hbuilt : Forall (builtFrom (first :: rest))
                       (mergeSweep (logAdd (opt_ d)) first [] rest)).
    { apply mergeSweep_builtFrom; [apply builtFrom_self; by left|done|].
      apply Forall_forall. intros x Hx. apply builtFrom_self. by right. }
    rewrite Forall_forall in Hbuilt.
    destruct (Hbuilt m Hm) as (c & _ & Hc & _ & Hfields & _).
    exists c. split; [by rewrite <- Hperm|done].
  - pose proof (mergeSweep_length (logAdd (opt_ d)) rest first []) as Hlen.
    simpl in Hlen. lia.
  - pose proof (mergeSweep_length (logAdd (opt_ d)) rest first []) as Hlen.
    rewrite <- Hperm. simpl in *. lia.
Qed.

(** A list in descending key order that holds the elements of a list in
    strictly descending key order is that list. *)
Lemma keyGe_sorted_unique `{!LMOrder} (l' : list State) :
  ∀ l, l' ≡ₚ l → StronglySorted keyGe l' → StronglySorted keyGt l → l' = l.
Proof.
  induction l' as [|x l' IH]; intros l Hperm Hge Hgt.
  { by apply Permutation_nil_l in Hperm. }
  destruct l as [|y l]; [by apply Permutation_nil_r in Hperm|].
  apply StronglySorted_inv in Hge as [Hge Hx].
  apply StronglySorted_inv in Hgt as [Hgt Hy].
  rewrite Forall_forall in Hx, Hy.
  assert (Hxy : x = y).
  { assert (Hxin : x ∈ y :: l) by (rewrite <- Hperm; by left).
    assert (Hyin : y ∈ x :: l') by (rewrite Hperm; by left).
    apply elem_of_cons in Hxin as [Hxin|Hxin]; [done|].
    apply elem_of_cons in Hyin as [Hyin|Hyin]; [done|].
    specialize (Hx y Hyin). specialize (Hy x Hxin).
    pose proof (keyCmp_flip x y) as [? ?]. unfold keyGe, keyGt in *. lia. }
  subst y. f_equal. apply IH; [by eapply Permutation_cons_inv|done..].
Qed.

Lemma std_sort_sorted_id `{!LMOrder} (l : list State) :
  StronglySorted keyGt l → std_sort compareNodesShortList l = l.
Proof.
  intros Hl. apply keyGe_sorted_unique; [|apply compareNodesShortList_keyGe|done].
  apply std_sort_Permutation.
Qed.

Lemma mergeSweep_sorted_id `{!LMOrder} (logAdd : bool) (rest : list State) :
  ∀ (last : State) (kept : list State),
    StronglySorted keyGt (last :: rest) →
    mergeSweep logAdd last kept rest = reverse kept ++ last :: rest.
Proof.
  induction rest as [|c rest IH]; intros last kept Hsorted; simpl.
  { by rewrite reverse_cons. }
  apply StronglySorted_inv in Hsorted as [Hrest Hlast].
  apply Forall_cons in Hlast as [Hc _]. unfold keyGt in Hc.
  rewrite distinctNodes_keyCmp.
  pose proof (keyCmp_flip last c) as [? ?].
  destruct (Z.eqb_spec (keyCmp c last) 0); [lia|]. simpl.
  rewrite IH by done. by rewrite reverse_cons, <- app_assoc.
Qed.

Lemma mergeCandidates_nonempty (d d' : Decoder) :
  mergeCandidates d = Some d' → candidatePtrs_ d' ≠ [].
Proof.
  unfold mergeCandidates. intros Hmerge.
  destruct (std_sort compareNodesShortList (candidatePtrs_ d))
    as [|first rest]; [done|].
  injection Hmerge as <-. simpl. intros Hnil.
  pose proof (mergeSweep_length (logAdd (opt_ d)) rest first []) as Hlen.
  rewrite Hnil in Hlen. simpl in Hlen. lia.
Qed.

(** X13: [mergeCandidates] leaves the pointer array in strictly descending
    key order and is idempotent: merging a second time changes nothing. *)
Theorem mergeCandidates_idempotent `{!LMOrder} (d d' : Decoder) :
  mergeCandidates d = Some d' →
  StronglySorted keyGt (candidatePtrs_ d')
  ∧ mergeCandidates d' = Some d'.
Proof.
  intros Hmerge.
  pose proof (mergeCandidates_keys d d' Hmerge) as Hsorted.
  split; [done|].
  pose proof (mergeCandidates_nonempty d d' Hmerge) as Hne.
  unfold mergeCandidates. rewrite std_sort_sorted_id by done.
  destruct (candidatePtrs_ d') as [|first rest] eqn:Hptrs; [done|].
  rewrite mergeSweep_sorted_id by done. simpl. rewrite <- Hptrs.
  by destruct d'.
Qed.

(** ** The token beam *)

Lemma Sorted_elem_impl {A} (R R' : relation A) (l : list A) :
  (∀ x y, x ∈ l → y ∈ l → R x y → R' x y) → Sorted R l → Sorted R' l.
Proof.
  intros Himpl Hl. induction Hl as [|x l Hl IH Hhd]; [constructor|].
  constructor.
  - apply IH. intros a b Ha Hb. apply Himpl; by right.
  - destruct Hhd as [|y l Hxy]; constructor.
    apply Himpl; [by left|right; by left|done].
Qed.

(** X14: the tokens that rule (1) tries, the first min(beamSizeToken, N)
    entries of [idx], are pairwise distinct indices below N; they are
    0, 1, .., N - 1 in this order when N ≤ beamSizeToken, and otherwise come
    in descending order of their emission in frame t (no token is followed
    by one with a greater emission), whichever [std::partial_sort] the
    program is linked with. *)
Theorem tokenOrder_tried (emissions : list float) (t N beamSizeToken : Z)
    (idx : list Z) :
  tokenOrder emissions t N beamSizeToken = Some idx →
  let tried := take (Z.to_nat (Z.min beamSizeToken N)) idx in
  NoDup tried
  ∧ (∀ n, n ∈ tried → 0 ≤ n < N)
  ∧ Z.of_nat (length tried) = Z.max 0 (Z.min beamSizeToken N)
  ∧ (N ≤ beamSizeToken → tried = seqZ 0 N)
  ∧ (beamSizeToken < N →
     Sorted (λ l r, ∃ el er,
                      read emissions (t * N + l) = Some el
                      ∧ read emissions (t * N + r) = Some er
                      ∧ PrimFloat.ltb el er = false) tried).
Proof.
  intros Hidx tried.
  assert (Hperm : idx ≡ₚ seqZ 0 N).
  { unfold tokenOrder in Hidx.
    destruct (beamSizeToken <? N); [|by injection Hidx as <-].
    destruct (beamSizeToken <? 0); [done|].
    apply bind_Some in Hidx as (row & _ & Hidx). injection Hidx as <-.
    apply std_partial_sort_Permutation. }
  assert (Hrange : ∀ n, n ∈ tried → 0 ≤ n < N).
  { intros n (i & Hn & _)%elem_of_take.
    eapply tokenOrder_range; [exact Hidx|].
    by eapply list_elem_of_lookup_2. }
  split_and!.
  - eapply sublist_NoDup; [|apply sublist_take].
    rewrite Hperm. apply NoDup_seqZ.
  - done.
  - unfold tried. rewrite length_take, Hperm, length_seqZ. lia.
  - intros Hle. unfold tried, tokenOrder in *.
    rewrite (proj2 (Z.ltb_ge _ _) Hle) in Hidx. injection Hidx as <-.
    apply take_ge. rewrite length_seqZ. lia.
  - intros Hlt. unfold tokenOrder in Hidx.
    rewrite (proj2 (Z.ltb_lt _ _) Hlt) in Hidx.
    destruct (beamSizeToken <? 0); [done|].
    apply bind_Some in Hidx as (row & Hrow & Hidx).
    apply mapM_Some in Hrow.
    assert (Hread : ∀ n, 0 ≤ n < N →
              ∃ e, read row n = Some e
                   ∧ read emissions (t * N + n) = Some e).
    { intros n Hn.
      destruct (Forall2_lookup_l _ _ _ (Z.to_nat n) n Hrow) as (e & He & Hf).
      { apply lookup_seqZ. lia. }
      exists e. split; [|done]. unfold read.
      by rewrite (proj2 (Z.ltb_ge _ _)) by lia. }
    injection Hidx as Hsorted.
    eapply Sorted_elem_impl;
      [|unfold tried; rewrite <- Hsorted, Z.min_l by lia].
    2: { apply (std_partial_sort_Sorted _
                  (λ l r, PrimFloat.ltb (default 0%float (read row l))
                            (default 0%float (read row r)) = false)).
         - intros x y. apply ltb_asym.
         - by intros x y. }
    intros l r Hl Hr Hlr. simpl in Hlr.
    destruct (Hread l (Hrange l Hl)) as (el & Hel & ?).
    destruct (Hread r (Hrange r Hr)) as (er & Her & ?).
    rewrite Hel, Her in Hlr. by exists el, er.
Qed.

(** ** Arguments that are not read *)

Lemma collect_ext {A B} (f g : A → option (list B)) (l : list A) :
  (∀ a, a ∈ l → f a = g a) → collect f l = collect g l.
Proof.
  unfold collect. intros Hfg. f_equal.
  induction l as [|a l IH]; simpl; [done|].
  rewrite Hfg by (by left). rewrite IH; [done|].
  intros a' Ha'. apply Hfg. by right.
Qed.

Lemma forM_fmap_comm {S A} (body : A → S → option S) (g : S → S)
    (P : S → Prop) (l : list A) :
  (∀ a s, P s → body a (g s) = g <$> body a s) →
  (∀ a s s', P s → body a s = Some s' → P s') →
  ∀ s, P s → forM body l (g s) = g <$> forM body l s.
Proof.
  intros Hcomm Hinv. induction l as [|a l IH]; intros s Hs; simpl; [done|].
  rewrite Hcomm by done.
  destruct (body a s) as [s'|] eqn:Hbody; simpl; [|done].
  apply IH. by eapply Hinv.
Qed.

Section Unread.
Context (blank unk : Z) (transitions : list float).

Local Abbreviation other := (withArguments blank unk transitions).

Lemma irrelevantFor_sameConfig (d d' : Decoder) :
  sameConfig d d' →
  irrelevantFor d blank unk transitions →
  irrelevantFor d' blank unk transitions.
Proof.
  intros (Hopt & _ & _ & Hblank & Hunk & Htr & _).
  unfold irrelevantFor. by rewrite Hopt, Hblank, Hunk, Htr.
Qed.

Lemma candidatesAdd_other (c : State) (d : Decoder) :
  candidatesAdd c (other d) = other (candidatesAdd c d).
Proof.
  reflexivity.
Qed.

Lemma foldl_candidatesAdd_other (offered : list State) :
  ∀ d : Decoder,
    foldl (λ d c, candidatesAdd c d) (other d) offered
    = other (foldl (λ d c, candidatesAdd c d) d offered).
Proof.
  induction offered as [|c offered IH]; intros d; simpl; [done|].
  by rewrite candidatesAdd_other, IH.
Qed.

Lemma candidatesStore_other (k : Z) (returnSorted : bool) (d : Decoder) :
  candidatesStore k returnSorted (other d)
  = other <$> candidatesStore k returnSorted d.
Proof.
  unfold candidatesStore, mergeCandidates. simpl.
  destruct (candidates_ d); [done|]. simpl.
  by destruct (std_sort _ _).
Qed.

Lemma acousticScore_other (d : Decoder) (emissions : list float) (t N : Z)
    (prevHyp : State) (n : Z) :
  irrelevantFor d blank unk transitions →
  acousticScore (other d) emissions t N prevHyp n
  = acousticScore d emissions t N prevHyp n.
Proof.
  intros (_ & Htr & _). unfold acousticScore. simpl.
  destruct (criterionType (opt_ d)); simpl; [by rewrite Htr|].
  by rewrite andb_false_r.
Qed.

Lemma tryChildren_other (d : Decoder) (emissions : list float) (t N : Z)
    (j : nat) (prevHyp : State) (lexMaxScore : float) (n : Z) :
  irrelevantFor d blank unk transitions →
  tryChildren (other d) emissions t N j prevHyp lexMaxScore n
  = tryChildren d emissions t N j prevHyp lexMaxScore n.
Proof.
  intros Hirr. pose proof Hirr as (_ & _ & Hunk).
  unfold tryChildren. rewrite acousticScore_other by done. simpl.
  destruct (nodes (lexicon_ d) !! lex prevHyp) as [prevNode|]; [|done].
  simpl. destruct (children prevNode !! n) as [lexPtr|]; [|done].
  destruct (nodes (lexicon_ d) !! lexPtr) as [lexNode|]; [|done]. simpl.
  destruct (acousticScore d emissions t N prevHyp n) as [sc|]; [|done].
  simpl.
  destruct (PrimFloat.ltb kNegativeInfinity (unkScore (opt_ d)));
    [by rewrite Hunk|].
  by rewrite !andb_false_r.
Qed.

Lemma trySameNode_other (d : Decoder) (emissions : list float) (t N : Z)
    (j : nat) (prevHyp : State) :
  irrelevantFor d blank unk transitions →
  trySameNode (other d) emissions t N j prevHyp
  = trySameNode d emissions t N j prevHyp.
Proof.
  intros Hirr. unfold trySameNode. by rewrite acousticScore_other.
Qed.

Lemma tryBlank_other (d : Decoder) (emissions : list float) (t N : Z)
    (j : nat) (prevHyp : State) :
  irrelevantFor d blank unk transitions →
  tryBlank (other d) emissions t N j prevHyp
  = tryBlank d emissions t N j prevHyp.
Proof.
  intros (Hblank & _). unfold tryBlank. simpl.
  destruct (criterionType (opt_ d)); simpl; [done|]. by rewrite Hblank.
Qed.

Lemma expandHyp_other (d : Decoder) (emissions : list float) (t N : Z)
    (idx : list Z) (j : nat) (prevHyp : State) :
  irrelevantFor d blank unk transitions →
  expandHyp (other d) emissions t N idx j prevHyp
  = expandHyp d emissions t N idx j prevHyp.
Proof.
  intros Hirr. unfold expandHyp.
  rewrite trySameNode_other, tryBlank_other by done.
  change (lexicon_ (other d)) with (lexicon_ d).
  change (opt_ (other d)) with (opt_ d).
  destruct (if lex prevHyp =? _ then _ else _) as [lexMaxScore|]; [|done].
  simpl.
  rewrite (collect_ext _ (tryChildren d emissions t N j prevHyp lexMaxScore));
    [done|].
  intros n _. by apply tryChildren_other.
Qed.

Lemma decodeFrame_other (emissions : list float) (N startFrame t : Z)
    (d : Decoder) :
  irrelevantFor d blank unk transitions →
  decodeFrame emissions N startFrame t (other d)
  = other <$> decodeFrame emissions N startFrame t d.
Proof.
  intros Hirr. unfold decodeFrame.
  change (opt_ (other d)) with (opt_ d).
  destruct (tokenOrder _ _ _ _) as [idx|]; [|done]. simpl.
  set (d0 := set_hyp (hyp_touch (startFrame + t) (hyp_ d))
               (candidatesReset d)).
  change (set_hyp _ (candidatesReset (other d))) with (other d0).
  rewrite (collect_ext _ (λ jp, expandHyp d0 emissions t N idx jp.1 jp.2)).
  2: { intros jp _. by apply expandHyp_other. }
  change (hyp_ (other d0)) with (hyp_ d0).
  destruct (collect _ _) as [offered|]; [|done]. simpl.
  by rewrite foldl_candidatesAdd_other, candidatesStore_other.
Qed.

Lemma decodeFrame_sameConfig (emissions : list float) (N startFrame t : Z)
    (d d' : Decoder) :
  decodeFrame emissions N startFrame t d = Some d' → sameConfig d d'.
Proof.
  intros Hframe.
  destruct (decodeFrame_inv _ _ _ _ _ _ Hframe) as (d0 & Hstore & Hcfg0 & _).
  destruct (candidatesStore_inv _ _ _ _ Hstore) as (Hcfg & _).
  by eapply sameConfig_trans.
Qed.

Lemma runCall_other (c : Call) (d : Decoder) :
  irrelevantFor d blank unk transitions →
  runCall c (other d) = other <$> runCall c d.
Proof.
  intros Hirr. destruct c as [emissions T N|]; simpl.
  - unfold decodeStep. destruct (N <? 0); [done|].
    set (d0 := set_hyp _ d).
    change (set_hyp _ (other d)) with (other d0).
    rewrite (forM_fmap_comm _ other
               (λ d, irrelevantFor d blank unk transitions)).
    + by destruct (forM _ _ d0).
    + intros t s Hs. by apply decodeFrame_other.
    + intros t s s' Hs Hframe.
      eapply irrelevantFor_sameConfig; [|exact Hs].
      by eapply decodeFrame_sameConfig.
    + done.
  - unfold decodeEnd.
    set (d0 := set_hyp _ (candidatesReset d)).
    change (set_hyp _ (candidatesReset (other d))) with (other d0).
    change (hyp_ (other d0)) with (hyp_ d0).
    change (lexicon_ (other d0)) with (lexicon_ d0).
    change (nDecodedFrames_ (candidatesReset (other d)))
      with (nDecodedFrames_ (candidatesReset d)).
    change (nPrunedFrames_ (candidatesReset (other d)))
      with (nPrunedFrames_ (candidatesReset d)).
    change (finishHyps (other d0)) with (finishHyps d0).
    rewrite foldl_candidatesAdd_other, candidatesStore_other.
    by destruct (candidatesStore _ _ _).
Qed.

Lemma runCall_sameConfig (c : Call) (d d' : Decoder) :
  runCall c d = Some d' → sameConfig d d'.
Proof. by intros (? & _)%runCall_counters. Qed.

(** X15: [blank_] is read only under CTC, [transitions_] only under ASG and
    [unk_] only when [unkScore] is above -∞: a decoder constructed with
    other values for the arguments that its options make irrelevant goes
    through the same calls with the same outcome, failure included, and
    ends with the same staging buffer, frames and counters. *)
Theorem unread_arguments (calls : list Call) (d : Decoder) :
  irrelevantFor d blank unk transitions →
  decode calls (other d) = other <$> decode calls d.
Proof.
  intros Hirr. unfold decode.
  change (decodeBegin (other d)) with (other (decodeBegin d)).
  apply (forM_fmap_comm _ other
           (λ d, irrelevantFor d blank unk transitions)).
  - intros c s Hs. by apply runCall_other.
  - intros c s s' Hs Hcall.
    eapply irrelevantFor_sameConfig; [|exact Hs].
    by eapply runCall_sameConfig.
  - done.
Qed.
End Unread.

(** ** Decoding in chunks *)

Lemma read_drop {A} (a : list A) (off i : Z) :
  0 ≤ off → 0 ≤ i → read (drop (Z.to_nat off) a) i = read a (off + i).
Proof.
  intros Hoff Hi. unfold read.
  rewrite !(proj2 (Z.ltb_ge _ _)) by lia.
  rewrite lookup_drop. f_equal. lia.
Qed.

Lemma mapM_ext_elem {A B} (f g : A → option B) (l : list A) :
  (∀ a, a ∈ l → f a = g a) → mapM f l = mapM g l.
Proof.
  intros Hfg. induction l as [|a l IH]; simpl; [done|].
  rewrite Hfg by (by left). rewrite IH; [done|].
  intros a' Ha'. apply Hfg. by right.
Qed.

Section Chunks.
Context (emissions : list float) (N δ : Z).
Hypothesis HN : 0 ≤ N.
Hypothesis Hδ : 0 ≤ δ.

Local Abbreviation later := (drop (Z.to_nat (δ * N)) emissions).

(** The decoder [d] with another buffer and [nDecodedFrames_] moved on by
    the δ frames of the first chunk. *)
Local Abbreviation rebase h d :=
  (set_frames (nDecodedFrames_ d + δ) (nPrunedFrames_ d) (set_hyp h d)).

Lemma read_later (t n : Z) :
  0 ≤ t → 0 ≤ n → read later (t * N + n) = read emissions ((δ + t) * N + n).
Proof.
  intros Ht Hn. rewrite read_drop by nia. f_equal. lia.
Qed.

Lemma tokenOrder_later (t beamSizeToken : Z) :
  0 ≤ t →
  tokenOrder later t N beamSizeToken
  = tokenOrder emissions (δ + t) N beamSizeToken.
Proof.
  intros Ht. unfold tokenOrder.
  destruct (beamSizeToken <? N); [|done].
  destruct (beamSizeToken <? 0); [done|].
  rewrite (mapM_ext_elem _ (λ l, read emissions ((δ + t) * N + l))); [done|].
  intros l Hl%elem_of_seqZ. apply read_later; lia.
Qed.

Lemma acousticScore_later (h : gmap Z (list State)) (d : Decoder) (t : Z)
    (prevHyp : State) (n : Z) :
  0 ≤ t → 0 ≤ n →
  acousticScore (rebase h d) later t N prevHyp n
  = acousticScore d emissions (δ + t) N prevHyp n.
Proof.
  intros Ht Hn. unfold acousticScore. rewrite read_later by done. simpl.
  by replace (nDecodedFrames_ d + δ + t) with (nDecodedFrames_ d + (δ + t))
    by lia.
Qed.

Lemma tryChildren_later (h : gmap Z (list State)) (d : Decoder) (t : Z)
    (j : nat) (prevHyp : State) (lexMaxScore : float) (n : Z) :
  0 ≤ t → 0 ≤ n →
  tryChildren (rebase h d) later t N j prevHyp lexMaxScore n
  = tryChildren d emissions (δ + t) N j prevHyp lexMaxScore n.
Proof.
  intros Ht Hn. unfold tryChildren. by rewrite acousticScore_later.
Qed.

Lemma expandHyp_later (h : gmap Z (list State)) (d : Decoder) (t : Z)
    (idx : list Z) (j : nat) (prevHyp : State) :
  0 ≤ t → (∀ n, n ∈ idx → 0 ≤ n) → 0 ≤ token prevHyp →
  (criterionType (opt_ d) = CTC → 0 ≤ blank_ d) →
  expandHyp (rebase h d) later t N idx j prevHyp
  = expandHyp d emissions (δ + t) N idx j prevHyp.
Proof.
  intros Ht Hidx Htok Hblank. unfold expandHyp.
  assert (Hsame : trySameNode (rebase h d) later t N j prevHyp
                  = trySameNode d emissions (δ + t) N j prevHyp).
  { unfold trySameNode. by rewrite acousticScore_later. }
  assert (Hbl : tryBlank (rebase h d) later t N j prevHyp
                = tryBlank d emissions (δ + t) N j prevHyp).
  { unfold tryBlank. simpl. destruct (criterionType (opt_ d)); [done|].
    simpl. by rewrite read_later by auto. }
  rewrite Hsame, Hbl. simpl.
  destruct (if lex prevHyp =? _ then _ else _) as [lexMaxScore|]; [|done].
  simpl.
  rewrite (collect_ext _
             (tryChildren d emissions (δ + t) N j prevHyp lexMaxScore));
    [done|].
  intros n (i & Hn & _)%elem_of_take.
  apply tryChildren_later; [done|].
  by eapply Hidx, list_elem_of_lookup_2.
Qed.

Lemma foldl_candidatesAdd_rebase (h : gmap Z (list State))
    (offered : list State) :
  ∀ d : Decoder,
    foldl (λ d c, candidatesAdd c d) (rebase h d) offered
    = rebase h (foldl (λ d c, candidatesAdd c d) d offered).
Proof.
  induction offered as [|c offered IH]; intros d; simpl; [done|].
  by rewrite <- IH.
Qed.

Lemma candidatesStore_rebase (h : gmap Z (list State)) (k : Z)
    (returnSorted : bool) (d : Decoder) :
  candidatesStore k returnSorted (rebase h d)
  = (λ d', rebase (<[k := hyp_at k (hyp_ d')]> h) d')
      <$> candidatesStore k returnSorted d.
Proof.
  unfold candidatesStore, mergeCandidates. simpl.
  destruct (candidates_ d); simpl.
  { unfold hyp_at. by rewrite lookup_insert_eq. }
  destruct (std_sort _ _); [done|]. simpl.
  unfold hyp_at. by rewrite lookup_insert_eq.
Qed.
Lemma decodeFrame_later (h : gmap Z (list State)) (d : Decoder)
    (startFrame t : Z) :
  0 ≤ t →
  (∀ k, hyp_at k h = hyp_at k (hyp_ d)) →
  Forall (λ p, 0 ≤ token p) (hyp_at (startFrame + δ + t) (hyp_ d)) →
  (criterionType (opt_ d) = CTC → 0 ≤ blank_ d) →
  decodeFrame later N (startFrame + δ) t (rebase h d)
  = (λ d', rebase (<[startFrame + δ + t + 1
                     := hyp_at (startFrame + δ + t + 1) (hyp_ d')]>
                     (hyp_touch (startFrame + δ + t) h)) d')
      <$> decodeFrame emissions N startFrame (δ + t) d.
Proof.
  intros Ht Hh Htok Hblank. unfold decodeFrame.
  replace (startFrame + (δ + t)) with (startFrame + δ + t) by lia.
  rewrite tokenOrder_later by done.
  change (opt_ (rebase h d)) with (opt_ d).
  destruct (tokenOrder emissions (δ + t) N (beamSizeToken (opt_ d)))
    as [idx|] eqn:Hidx; [|done].
  simpl.
  set (d0 := set_hyp (hyp_touch (startFrame + δ + t) (hyp_ d))
               (candidatesReset d)).
  change (set_hyp (hyp_touch (startFrame + δ + t) h)
            (candidatesReset (rebase h d)))
    with (rebase (hyp_touch (startFrame + δ + t) h) d0).
  rewrite !hyp_at_touch, Hh.
  rewrite (collect_ext _
             (λ jp, expandHyp d0 emissions (δ + t) N idx jp.1 jp.2)).
  2: { intros [j p] Hjp. simpl.
       apply elem_of_lookup_imap in Hjp as (i & x & Heq & Hx).
       injection Heq as -> ->.
       apply (expandHyp_later (hyp_touch (startFrame + δ + t) h) d0);
         try done.
       - intros n Hn. by eapply tokenOrder_range in Hn as [? _].
       - rewrite Forall_forall in Htok.
         by eapply Htok, list_elem_of_lookup_2. }
  destruct (collect _ _) as [offered|]; [|done]. simpl.
  change (set_frames (nDecodedFrames_ d + δ) (nPrunedFrames_ d)
            (set_hyp (hyp_touch (startFrame + δ + t) h) d0))
    with (rebase (hyp_touch (startFrame + δ + t) h) d0).
  by rewrite foldl_candidatesAdd_rebase, candidatesStore_rebase.
Qed.
Lemma shiftedBy_rebase (d d' : Decoder) :
  shiftedBy δ d d' → d' = rebase (hyp_ d') d.
Proof.
  destruct d, d'. unfold shiftedBy, sameConfig. simpl.
  intros ((?&?&?&?&?&?&?)&?&?&?&?&?&?). by subst.
Qed.

Lemma forM_decodeFrame_shifted (T startFrame : Z) (n : nat) :
  ∀ (a : Z) (d1 d2 : Decoder),
    wellFormedDecoder N d1 → 0 ≤ a → δ + a + Z.of_nat n ≤ T →
    T * N ≤ Z.of_nat (length emissions) →
    shiftedBy δ d1 d2 →
    Forall (wellFormedState (lexicon_ d1) N)
      (hyp_at (startFrame + δ + a) (hyp_ d1)) →
    ∃ d1' d2',
      forM (decodeFrame emissions N startFrame) (seqZ (δ + a) (Z.of_nat n)) d1
      = Some d1'
      ∧ forM (decodeFrame later N (startFrame + δ)) (seqZ a (Z.of_nat n)) d2
        = Some d2'
      ∧ shiftedBy δ d1' d2'
      ∧ sameConfig d1 d1'
      ∧ nDecodedFrames_ d1' = nDecodedFrames_ d1
      ∧ nPrunedFrames_ d1' = nPrunedFrames_ d1
      ∧ Forall (wellFormedState (lexicon_ d1) N)
          (hyp_at (startFrame + δ + a + Z.of_nat n) (hyp_ d1')).
Proof.
  induction n as [|n IH]; intros a d1 d2 Hwf Ha HT Hlen Hshift Hframe.
  { exists d1, d2. simpl. rewrite Z.add_0_r.
    by split_and!. }
  rewrite (seqZ_cons (δ + a)), (seqZ_cons a) by lia. simpl.
  replace (Z.pred (Z.of_nat (S n))) with (Z.of_nat n) by lia.
  destruct (decodeFrame_returns emissions T N startFrame (δ + a) d1)
    as (dm & Hdm & Hframe'); [done|lia|done|done| |].
  { by replace (startFrame + (δ + a)) with (startFrame + δ + a) by lia. }
  rewrite Hdm. simpl.
  pose proof Hshift as (_ & _ & _ & _ & _ & _ & Hh).
  rewrite (shiftedBy_rebase d1 d2 Hshift).
  rewrite (decodeFrame_later (hyp_ d2) d1 startFrame a); try done.
  2: { eapply Forall_impl; [exact Hframe|]. by intros p [_ [? _]]. }
  2: { intros Hctc. destruct Hwf as (_ & _ & Hblank & _).
       by destruct (Hblank Hctc). }
  rewrite Hdm. simpl.
  pose proof (decodeFrame_sameConfig _ _ _ _ _ _ Hdm) as Hcfg.
  destruct (decodeFrame_inv _ _ _ _ _ _ Hdm)
    as (d0 & Hstore & _ & _ & Hh0 & Hn0 & Hp0 & _).
  destruct (candidatesStore_inv _ _ _ _ Hstore) as (_ & Hnm & Hpm & _).
  apply candidatesStore_frame in Hstore as (frame & Hhm & _).
  rewrite Hh0 in Hhm.
  replace (startFrame + (δ + a)) with (startFrame + δ + a) in * by lia.
  set (hm := <[startFrame + δ + a + 1
               := hyp_at (startFrame + δ + a + 1) (hyp_ dm)]>
               (hyp_touch (startFrame + δ + a) (hyp_ d2))).
  destruct (IH (Z.succ a) dm (rebase hm dm))
    as (d1' & d2' & Hone & Htwo & Hshift' & Hcfg' & Hn' & Hp' & Hlast).
  - by eapply wellFormedDecoder_sameConfig.
  - lia.
  - lia.
  - done.
  - split_and!; try done. simpl. intros k.
    unfold hm. rewrite Hhm. unfold hyp_at at 1 3.
    destruct (decide (k = startFrame + δ + a + 1)) as [->|Hne].
    + rewrite !lookup_insert_eq. simpl. unfold hyp_at.
      by rewrite lookup_insert_eq.
    + rewrite !lookup_insert_ne by done.
      change (hyp_at k (hyp_touch (startFrame + δ + a) (hyp_ d2))
              = hyp_at k (hyp_touch (startFrame + δ + a) (hyp_ d1))).
      by rewrite !hyp_at_touch.
  - destruct Hcfg as (_ & <- & _).
    by replace (startFrame + δ + Z.succ a)
      with (startFrame + δ + a + 1) by lia.
  - exists d1', d2'.
    replace (Z.succ (δ + a)) with (δ + Z.succ a) by lia.
    split_and!; try done.
    + by eapply sameConfig_trans.
    + congruence.
    + congruence.
    + destruct Hcfg as (_ & Hlex & _). rewrite Hlex.
      by replace (startFrame + δ + a + Z.of_nat (S n))
        with (startFrame + δ + Z.succ a + Z.of_nat n) by lia.
Qed.
End Chunks.

Lemma forM_app {S A} (body : A → S → option S) (l1 l2 : list A) (s : S) :
  forM body (l1 ++ l2) s = forM body l1 s ≫= forM body l2.
Proof.
  revert s. induction l1 as [|a l1 IH]; intros s; simpl; [done|].
  destruct (body a s) as [s'|]; simpl; [apply IH|done].
Qed.

(** X16: on well-formed input, decoding T1 + T2 frames in one [decodeStep]
    and decoding them in two calls, T1 frames and then the remaining T2 from
    [emissions + T1 * N], both return and end in the same state: the same
    frames, staging buffer and counters. *)
Theorem decodeStep_in_chunks (emissions : list float) (T1 T2 N : Z)
    (d : Decoder) :
  wellFormedDecoder N d → 0 ≤ T1 → 0 ≤ T2 → 0 ≤ N →
  (T1 + T2) * N ≤ Z.of_nat (length emissions) →
  Forall (wellFormedState (lexicon_ d) N) (hyp_at (currentFrame d) (hyp_ d)) →
  ∃ whole parts,
    decodeStep emissions (T1 + T2) N d = Some whole
    ∧ decodeStep emissions T1 N d
        ≫= decodeStep (drop (Z.to_nat (T1 * N)) emissions) T2 N
      = Some parts
    ∧ sameFrames whole parts.
Proof.
  unfold currentFrame. intros Hwf HT1 HT2 HN Hlen Hframe.
  set (startFrame := nDecodedFrames_ d - nPrunedFrames_ d) in *.
  set (dW := set_hyp (extendHyp (startFrame + (T1 + T2) + 2) (hyp_ d)) d).
  set (dP := set_hyp (extendHyp (startFrame + T1 + 2) (hyp_ d)) d).
  destruct (forM_decodeFrame_shifted emissions N 0 HN (Z.le_refl 0)
              (T1 + T2) startFrame (Z.to_nat T1) 0 dW dP)
    as (a1 & b1 & Ha1 & Hb1 & Hshift1 & Hcfg1 & Hn1 & Hp1 & Hlast1);
    [done|lia|lia|done| | |].
  { unfold shiftedBy. simpl. split_and!; try done; [lia|].
    intros k. by rewrite !hyp_at_extendHyp. }
  { simpl. by rewrite hyp_at_extendHyp, !Z.add_0_r. }
  simpl in Ha1, Hb1, Hn1, Hp1, Hlast1.
  rewrite Z2Nat.id, ?Z.add_0_r in Ha1, Hb1, Hlast1 by done.
  change (drop (Z.to_nat (0 * N)) emissions) with emissions in Hb1.
  replace (startFrame + 0 + T1) with (startFrame + T1) in Hlast1 by lia.
  pose proof Hshift1 as (Hc1 & Hcs1 & Hptrs1 & Hbest1 & Hnb1 & Hpb1 & Hh1).
  set (c1 := set_frames (nDecodedFrames_ b1 + T1) (nPrunedFrames_ b1) b1).
  set (dP1 := set_hyp (extendHyp (startFrame + T1 + T2 + 2) (hyp_ c1)) c1).
  destruct (forM_decodeFrame_shifted emissions N T1 HN HT1
              (T1 + T2) startFrame (Z.to_nat T2) 0 a1 dP1)
    as (a2 & b2 & Ha2 & Hb2 & Hshift2 & Hcfg2 & Hn2 & Hp2 & Hlast2);
    [by eapply wellFormedDecoder_sameConfig|lia|lia|done| | |].
  { unfold shiftedBy. simpl. split_and!; try done; [lia|].
    intros k. by rewrite hyp_at_extendHyp. }
  { destruct Hcfg1 as (_ & Hlex & _). simpl in Hlex.
    by rewrite <- Hlex, Z.add_0_r. }
  rewrite Z2Nat.id in Ha2, Hb2 by done.
  replace (T1 + 0) with (0 + T1) in Ha2 by lia.
  destruct Hshift2 as (Hc2 & Hcs2 & Hptrs2 & Hbest2 & Hnb2 & Hpb2 & Hh2).
  eexists _, _. split_and!.
  - unfold decodeStep. rewrite (proj2 (Z.ltb_ge _ _) HN).
    fold startFrame. fold dW.
    rewrite seqZ_app, forM_app, Ha1 by done. simpl.
    rewrite Ha2. simpl. done.
  - assert (Hfirst : decodeStep emissions T1 N d = Some c1).
    { unfold decodeStep. rewrite (proj2 (Z.ltb_ge _ _) HN).
      fold startFrame. fold dP. by rewrite Hb1. }
    rewrite Hfirst. simpl.
    unfold decodeStep. rewrite (proj2 (Z.ltb_ge _ _) HN). simpl.
    replace (nDecodedFrames_ b1 + T1 - nPrunedFrames_ b1)
      with (startFrame + T1) by (unfold startFrame; lia).
    change (set_hyp _ c1) with dP1. by rewrite Hb2.
  - unfold sameFrames. simpl. split_and!; try done; lia.
Qed.

(** ** The comparator as an order *)

(** X18: the comparator that [mergeCandidates] hands to [std::sort] is a
    strict order, as [std::sort] requires of it: no candidate goes before
    itself, no two candidates go before each other, and going before is
    transitive; this holds for every score, NaN included. *)
Theorem compareNodesShortList_strict_order `{!LMOrder} :
  (∀ a : State, compareNodesShortList a a = false)
  ∧ (∀ a b : State,
       compareNodesShortList a b = true → compareNodesShortList b a = false)
  ∧ (∀ a b c : State,
       compareNodesShortList a b = true → compareNodesShortList b c = true →
       compareNodesShortList a c = true).
Proof.
  assert (Hasym : ∀ a b : State,
            compareNodesShortList a b = true →
            compareNodesShortList b a = false).
  { intros a b. rewrite !compareNodesShortList_keyCmp.
    pose proof (keyCmp_flip a b) as [? ?].
    destruct (Z.eqb_spec (keyCmp a b) 0), (Z.eqb_spec (keyCmp b a) 0);
      try lia.
    apply ltb_asym. }
  split_and!; [|done|].
  - intros a. destruct (compareNodesShortList a a) eqn:Haa; [|done].
    by rewrite (Hasym a a Haa) in Haa.
  - intros a b c. rewrite !compareNodesShortList_keyCmp.
    pose proof (keyCmp_strict a b c) as [Hs1 Hs2].
    pose proof (keyCmp_trans a b c) as Hac.
    pose proof (keyCmp_trans c b a) as Hca.
    pose proof (keyCmp_flip a b) as [? ?].
    pose proof (keyCmp_flip b c) as [? ?].
    pose proof (keyCmp_flip a c) as [? ?].
    destruct (Z.eqb_spec (keyCmp a b) 0), (Z.eqb_spec (keyCmp b c) 0),
      (Z.eqb_spec (keyCmp a c) 0); rewrite ?Z.ltb_lt; try lia.
    intros Hba Hcb. by eapply ltb_trans.
Qed.

(** ** A beam is never starved of offers *)

(** X19: the expansion of a previous state always offers a candidate that
    stays where the state is (same lex, same LM state, no word, the state as
    parent): under ASG the one of rule (2), with the state's own token;
    under CTC the blank of rule (3), and after a non-blank also the one of
    rule (2). *)
Theorem expandHyp_offers_stay (d : Decoder) (emissions : list float)
    (t N : Z) (idx : list Z) (j : nat) (prevHyp : State) (r : list State) :
  expandHyp d emissions t N idx j prevHyp = Some r →
  (criterionType (opt_ d) = CTC →
   ∃ c, c ∈ r ∧ lmState c = lmState prevHyp ∧ lex c = lex prevHyp
        ∧ parent c = Some j ∧ word c = -1
        ∧ token c = blank_ d ∧ prevBlank c = true)
  ∧ (criterionType (opt_ d) = ASG ∨ prevBlank prevHyp = false →
     ∃ c, c ∈ r ∧ lmState c = lmState prevHyp ∧ lex c = lex prevHyp
          ∧ parent c = Some j ∧ word c = -1
          ∧ token c = token prevHyp ∧ prevBlank c = false).
Proof.
  unfold expandHyp. intros Hr.
  apply bind_Some in Hr as (lexMaxScore & _ & Hr).
  apply bind_Some in Hr as (r1 & _ & Hr).
  apply bind_Some in Hr as (r2 & Hr2 & Hr).
  apply bind_Some in Hr as (r3 & Hr3 & Hr).
  injection Hr as <-. split.
  - intros Hctc. unfold tryBlank in Hr3. rewrite Hctc in Hr3. simpl in Hr3.
    apply bind_Some in Hr3 as (e & _ & Hr3). injection Hr3 as <-.
    eexists. split; [rewrite !elem_of_app; right; right; by left|done].
  - intros Hguard. unfold trySameNode in Hr2.
    assert (Hfire : negb (isCTC (criterionType (opt_ d)))
                    || negb (prevBlank prevHyp) = true).
    { destruct Hguard as [->| ->]; [done|]. by rewrite orb_true_r. }
    rewrite Hfire in Hr2.
    apply bind_Some in Hr2 as (sc & _ & Hr2). injection Hr2 as <-.
    eexists. split; [rewrite !elem_of_app; right; left; by left|done].
Qed.

End DecoderProperties.

(** * The properties at the example instances *)

Lemma lastWordLM_order : @LMOrder lastWordLM.
Proof. split; simpl; intros; lia. Qed.

Lemma prune_insufficient_history_witness :
  nDecodedFrames_ afterFirstX - nPrunedFrames_ afterFirstX - 3 < 1
  ∧ prune 3 afterFirstX = Some afterFirstX.
Proof.
  split; [by vm_compute|].
  apply (prune_insufficient_history 3 afterFirstX). by vm_compute.
Defined.

Lemma prune_no_ancestor_witness :
  1 ≤ currentFrame exhaustedDecoder - 1
  ∧ hyp_ exhaustedDecoder !! currentFrame exhaustedDecoder = Some []
  ∧ prune 1 exhaustedDecoder = Some exhaustedDecoder.
Proof.
  split; [by vm_compute|]. split; [by vm_compute|].
  apply (prune_no_ancestor 1 exhaustedDecoder []); [by vm_compute..|done].
Defined.

(** C1 fails on the code: under CTC, [prevHyp] is the state of frame 1 that
    has just emitted word 7 on token x (prevBlank false), and x comes again.
    Its lex, the root, has a child under x, and that child has children of
    its own.  "(1) Try children" still offers the word candidate for label 7
    of the child, only the continue-spelling candidate is withheld; the best
    hypothesis of the two frames x, x carries word 7 twice. *)
Theorem ctc_repeated_token_emits_word_again :
  let prevHyp := mkState lastWordLM 7 100 (Some 0%nat) 0.375%float 2 7 false in
  criterionType (opt_ afterFirstX) = CTC
  ∧ hyp_at 1 (hyp_ afterFirstX) !! 0%nat = Some prevHyp
  ∧ prevBlank prevHyp = false
  ∧ (nodes xTrie !! lex prevHyp) ≫= (λ node, children node !! token prevHyp)
    = Some 101
  ∧ @tryChildren lastWordLM afterFirstX xxEmissions 1 3 0 prevHyp 0%float
      (token prevHyp)
    = Some [ mkState lastWordLM 7 100 (Some 0%nat) 0.75%float 2 7 false ]
  ∧ res_words
      <$> (@decode lastWordLM seriesLibm insertionSort [Step xxEmissions 2 3] newDecoder
             ≫= getBestHypothesis 0)
    = Some [-1; 7; 7]
  ∧ res_tokens
      <$> (@decode lastWordLM seriesLibm insertionSort [Step xxEmissions 2 3] newDecoder
             ≫= getBestHypothesis 0)
    = Some [0; 2; 2].
Proof. cbv zeta. split_and!; by vm_compute. Qed.

Lemma ctc_blank_candidate_witness :
  let d := decodeBegin newDecoder in
  let prevHyp := mkState lastWordLM (-1) 100 None 0%float 0 (-1) false in
  criterionType (opt_ d) = CTC
  ∧ ∃ offered,
      @expandHyp lastWordLM d xxEmissions 0 3 [0; 1; 2] 0 prevHyp
      = Some offered
      ∧ filter (λ c, prevBlank c = true) offered
        = [ mkState lastWordLM (-1) 100 (Some 0%nat) (-5)%float 1 (-1) true ].
Proof.
  cbv zeta. split; [done|].
  destruct (@expandHyp lastWordLM (decodeBegin newDecoder) xxEmissions 0 3
              [0; 1; 2] 0
              (mkState lastWordLM (-1) 100 None 0%float 0 (-1) false))
    as [offered|] eqn:Hoffered; [|by vm_compute in Hoffered].
  exists offered. split; [done|].
  destruct (@ctc_blank_candidate lastWordLM (decodeBegin newDecoder)
              xxEmissions 0 3 [0; 1; 2] 0 _ offered eq_refl Hoffered)
    as (e & He & _ & ->).
  vm_compute in He. by injection He as <-.
Defined.

Lemma produced_frame_size_witness :
  0 < beamSize (opt_ (decodeBegin newDecoder))
  ∧ @runCall lastWordLM seriesLibm insertionSort (Step xxEmissions 2 3)
      (decodeBegin newDecoder) = Some afterTwoX
  ∧ producedFrame (Step xxEmissions 2 3) (decodeBegin newDecoder) 2
  ∧ ∃ frame, hyp_ afterTwoX !! 2 = Some frame
             ∧ Z.of_nat (length frame) ≤ 4.
Proof.
  split; [by vm_compute|]. split; [by vm_compute|].
  split; [by vm_compute|].
  apply (@produced_frame_size lastWordLM seriesLibm insertionSort insertionSort_spec (Step xxEmissions 2 3)
           (decodeBegin newDecoder) afterTwoX 2); by vm_compute.
Defined.

Lemma produced_frame_keys_unique_witness :
  @runCall lastWordLM seriesLibm insertionSort (Step xxEmissions 2 3)
    (decodeBegin newDecoder) = Some afterTwoX
  ∧ ∃ frame, hyp_ afterTwoX !! 2 = Some frame ∧ keysUnique frame.
Proof.
  split; [by vm_compute|].
  apply (proj2 (@produced_frame_keys_unique lastWordLM seriesLibm insertionSort insertionSort_spec
                  lastWordLM_order)
           (Step xxEmissions 2 3) (decodeBegin newDecoder) afterTwoX 2);
    by vm_compute.
Defined.

Lemma merge_two_candidates_witness :
  candidatePtrs_ mergingDecoder = [pathA; pathB]
  ∧ sameKey pathA pathB
  ∧ ∃ d' m,
      @mergeCandidates lastWordLM seriesLibm insertionSort mergingDecoder = Some d'
      ∧ candidatePtrs_ d' = [m]
      ∧ score m
        = PrimFloat.add (-1)%float (log1p_series (exp_series 10 (-0)%float))
      ∧ PrimFloat.ltb (-0.3125)%float (score m) = true
      ∧ PrimFloat.ltb (score m) (-0.296875)%float = true.
Proof.
  assert (Hkey : sameKey pathA pathB) by (by repeat split).
  split; [done|]. split; [done|].
  destruct (@merge_two_candidates lastWordLM seriesLibm insertionSort insertionSort_spec lastWordLM_order
              mergingDecoder pathA pathB eq_refl Hkey)
    as (d' & hi & lo & m & Hmerge & Hptrs & _ & _ & _ & _ & _ & Hscore).
  exists d', m. split; [done|]. split; [done|].
  rewrite (Hscore eq_refl eq_refl). split_and!; by vm_compute.
Defined.


Lemma decode_two_runs_witness :
  sameConfig newDecoder usedDecoder
  ∧ sameOutcome
      (@decode lastWordLM seriesLibm insertionSort [Step xxEmissions 2 3; End_]
         newDecoder)
      (@decode lastWordLM seriesLibm insertionSort [Step xxEmissions 2 3; End_]
         usedDecoder)
  ∧ @std_sort insertionSort _ compareNodesShortList [pathA; staleState]
    = @std_sort lastInsertionSort _ compareNodesShortList [pathA; staleState].
Proof.
  assert (Hcfg : sameConfig newDecoder usedDecoder).
  { repeat split; reflexivity. }
  assert (Htotal : ∀ (i j : nat) (a b : @LexiconDecoderState lastWordLM),
            [pathA; staleState] !! i = Some a →
            [pathA; staleState] !! j = Some b → i ≠ j →
            compareNodesShortList a b = true
            ∨ compareNodesShortList b a = true).
  { intros [|[|i]] [|[|j]] a b Hi Hj Hij; try discriminate Hi;
      try discriminate Hj; try (exfalso; apply Hij; reflexivity);
      injection Hi as <-; injection Hj as <-;
      [left|right]; vm_compute; reflexivity. }
  destruct (@decode_two_runs lastWordLM seriesLibm insertionSort
              [Step xxEmissions 2 3; End_] newDecoder usedDecoder)
    as (Hruns & _ & Hsort).
  split; [exact Hcfg|]. split; [exact (Hruns Hcfg)|].
  exact (Hsort lastWordLM_order insertionSort lastInsertionSort
           [pathA; staleState] insertionSort_spec lastInsertionSort_spec
           Htotal).
Defined.

(** Against C6 as stated: the merge comparator is no total order, and the
    beams depend on how [std::sort] places the candidates it leaves
    unordered.  After the first x of [xxEmissions] the state that emitted
    word 7 offers [tieWord] (word 7 again) and [tieStay] (no word) for the
    second x, with the same key and the same score; neither goes before the
    other.  Of two insertion sorts that both meet the standard, one lets
    [tieWord] give the merged state its word and the other [tieStay], and
    the same calls on the same decoder end in different beams and different
    best hypotheses. *)
Lemma decode_two_runs_counterexample :
  @AlgorithmSpec insertionSort ∧ @AlgorithmSpec lastInsertionSort
  ∧ (@expandHyp lastWordLM
       (default tieDecoder
          (@decode lastWordLM seriesLibm insertionSort
             [Step (take 3 xxEmissions) 1 3] tieDecoder))
       xxEmissions 1 3 [0; 1; 2] 0
       (mkState lastWordLM 7 100 (Some 0%nat) (-0.125)%float 2 7 false)
     = Some [tieWord; tieStay;
             mkState lastWordLM 7 100 (Some 0%nat) (-5.125)%float 1 (-1) true])
  ∧ tieWord ≠ tieStay
  ∧ sameKey tieWord tieStay
  ∧ compareNodesShortList tieWord tieStay = false
  ∧ compareNodesShortList tieStay tieWord = false
  ∧ res_words
      <$> (@decode lastWordLM seriesLibm insertionSort [Step xxEmissions 2 3]
             tieDecoder ≫= getBestHypothesis 0)
    = Some [-1; 7; 7]
  ∧ res_words
      <$> (@decode lastWordLM seriesLibm lastInsertionSort
             [Step xxEmissions 2 3] tieDecoder ≫= getBestHypothesis 0)
    = Some [-1; 7; -1]
  ∧ (hyp_ <$> @decode lastWordLM seriesLibm insertionSort
                [Step xxEmissions 2 3] tieDecoder)
    ≠ (hyp_ <$> @decode lastWordLM seriesLibm lastInsertionSort
                  [Step xxEmissions 2 3] tieDecoder).
Proof.
  split; [exact insertionSort_spec|]. split; [exact lastInsertionSort_spec|].
  split; [vm_compute; reflexivity|]. split; [discriminate|].
  split; [repeat split|].
  split; [vm_compute; reflexivity|]. split; [vm_compute; reflexivity|].
  split; [vm_compute; reflexivity|]. split; [vm_compute; reflexivity|].
  intros Heq.
  apply (f_equal
           (λ r : option (gmap Z (list (@LexiconDecoderState lastWordLM))),
              match r with
              | Some h => match h !! 2 with
                          | Some (m :: _) => word m
                          | _ => 0
                          end
              | None => 0
              end)) in Heq.
  vm_compute in Heq. discriminate Heq.
Qed.

Lemma exhausted_beam_witness :
  hyp_ exhaustedDecoder !! currentFrame exhaustedDecoder = Some []
  ∧ Forall (wellFormedCall exhaustedDecoder) [Step xxEmissions 2 3; End_]
  ∧ ∃ d', forM (@runCall lastWordLM seriesLibm insertionSort) [Step xxEmissions 2 3; End_]
            exhaustedDecoder = Some d'
          ∧ ∀ lookBack, getBestHypothesis lookBack d' = Some emptyDecodeResult.
Proof.
  assert (Hempty : hyp_ exhaustedDecoder !! currentFrame exhaustedDecoder
                   = Some []) by (vm_compute; reflexivity).
  assert (Hwf : Forall (wellFormedCall exhaustedDecoder)
                  [Step xxEmissions 2 3; End_]).
  { repeat constructor; vm_compute; congruence. }
  split; [exact Hempty|]. split; [exact Hwf|].
  destruct (proj2 (@exhausted_beam lastWordLM seriesLibm insertionSort insertionSort_spec
                     [Step xxEmissions 2 3; End_] exhaustedDecoder Hempty Hwf))
    as (d' & Hrun & _ & Hbest).
  exists d'. split; [exact Hrun|exact Hbest].
Defined.

Lemma xTrie_closed : closedTrie xTrie.
Proof.
  split; [eexists; by vm_compute|].
  intros a node n c Ha Hc. unfold xTrie in *. simpl in *.
  repeat (apply lookup_insert_Some in Ha as [[<- <-]|[_ Ha]];
          [simpl in Hc;
           try (apply lookup_singleton_Some in Hc as [_ <-];
                eexists; by vm_compute);
           done|]).
  apply lookup_singleton_Some in Ha as [_ <-]. done.
Qed.

Lemma exactDecoder_wellFormed : wellFormedDecoder 3 exactDecoder.
Proof.
  split; [exact xTrie_closed|]. simpl.
  split_and!; try done; try lia.
  apply soundThreshold_zero.
Qed.

Lemma decode_returns_witness :
  wellFormedDecoder 3 exactDecoder
  ∧ Forall (completeCall 3) [Step xxEmissions 2 3; End_]
  ∧ is_Some (@decode lastWordLM seriesLibm insertionSort [Step xxEmissions 2 3; End_]
               exactDecoder).
Proof.
  assert (Hcalls : Forall (completeCall 3) [Step xxEmissions 2 3; End_]).
  { repeat constructor; simpl; lia. }
  split; [exact exactDecoder_wellFormed|]. split; [exact Hcalls|].
  exact (@decode_returns lastWordLM seriesLibm insertionSort insertionSort_spec 3 _ exactDecoder
           exactDecoder_wellFormed Hcalls).
Defined.

Lemma decode_frame_count_witness :
  Forall indicesInInt [Step xxEmissions 2 3; End_]
  ∧ totalFrames [Step xxEmissions 2 3; End_] + 2 ≤ INT_MAX
  ∧ @decode lastWordLM seriesLibm insertionSort [Step xxEmissions 2 3; End_]
      newDecoder
    = Some afterEnd
  ∧ nDecodedFrames_ afterEnd = totalFrames [Step xxEmissions 2 3; End_]
  ∧ nPrunedFrames_ afterEnd = 0
  ∧ nDecodedFramesInBuffer afterEnd
    = totalFrames [Step xxEmissions 2 3; End_] + 1
  ∧ sameConfig newDecoder afterEnd.
Proof.
  assert (Hcalls : Forall indicesInInt [Step xxEmissions 2 3; End_]).
  { repeat constructor; unfold INT_MAX; lia. }
  assert (Htotal : totalFrames [Step xxEmissions 2 3; End_] + 2 ≤ INT_MAX).
  { vm_compute. discriminate. }
  assert (Hrun : @decode lastWordLM seriesLibm insertionSort
                   [Step xxEmissions 2 3; End_] newDecoder = Some afterEnd)
    by (vm_compute; reflexivity).
  split; [exact Hcalls|]. split; [exact Htotal|]. split; [exact Hrun|].
  exact (@decode_frame_count lastWordLM seriesLibm insertionSort
           insertionSort_spec _ _ _ Hcalls Htotal Hrun).
Defined.

Lemma decode_buffer_complete_witness :
  @decode lastWordLM seriesLibm insertionSort [Step xxEmissions 2 3; End_] newDecoder
  = Some afterEnd
  ∧ 0 ≤ totalFrames [Step xxEmissions 2 3; End_]
  ∧ (∀ k, 0 ≤ k ≤ totalFrames [Step xxEmissions 2 3; End_] →
          is_Some (hyp_ afterEnd !! k))
  ∧ is_Some (nHypothesis afterEnd)
  ∧ is_Some (getAllFinalHypothesis afterEnd)
  ∧ ∀ lookBack, is_Some (getBestHypothesis lookBack afterEnd).
Proof.
  assert (Hrun : @decode lastWordLM seriesLibm insertionSort [Step xxEmissions 2 3; End_]
                   newDecoder = Some afterEnd) by (vm_compute; reflexivity).
  assert (Htotal : 0 ≤ totalFrames [Step xxEmissions 2 3; End_])
    by (vm_compute; congruence).
  split; [exact Hrun|]. split; [exact Htotal|].
  exact (@decode_buffer_complete lastWordLM seriesLibm insertionSort insertionSort_spec _ _ _ Hrun Htotal).
Defined.

Lemma earlier_frames_kept_witness :
  Forall (λ c, 0 ≤ framesOf c) [Step xxEmissions 1 3; End_]
  ∧ 1 ≤ currentFrame afterFirstX
  ∧ is_Some (hyp_ afterFirstX !! 1)
  ∧ ∃ d', forM (@runCall lastWordLM seriesLibm insertionSort) [Step xxEmissions 1 3; End_]
            afterFirstX = Some d'
          ∧ hyp_ d' !! 1 = hyp_ afterFirstX !! 1.
Proof.
  assert (Hcalls : Forall (λ c, 0 ≤ framesOf c) [Step xxEmissions 1 3; End_]).
  { repeat constructor; vm_compute; congruence. }
  assert (Hcur : 1 ≤ currentFrame afterFirstX) by (vm_compute; congruence).
  assert (Hsome : is_Some (hyp_ afterFirstX !! 1)).
  { eexists. vm_compute. reflexivity. }
  split; [exact Hcalls|]. split; [exact Hcur|]. split; [exact Hsome|].
  destruct (forM (@runCall lastWordLM seriesLibm insertionSort) [Step xxEmissions 1 3; End_]
              afterFirstX) as [d'|] eqn:Hrun;
    [|vm_compute in Hrun; discriminate Hrun].
  exists d'. split; [reflexivity|].
  exact (proj1 (@earlier_frames_kept lastWordLM seriesLibm insertionSort insertionSort_spec _ _ _ 1 Hcalls
                  Hrun Hcur Hsome)).
Defined.

Lemma decodeStep_no_frames_witness :
  -1 ≤ 0 ∧ 0 ≤ 3
  ∧ inInt (currentFrame afterFirstX) ∧ inInt (currentFrame afterFirstX + -1)
  ∧ inInt (currentFrame afterFirstX + -1 + 2)
  ∧ inInt (nDecodedFrames_ afterFirstX + -1)
  ∧ ∃ d', @decodeStep lastWordLM seriesLibm insertionSort xxEmissions (-1) 3
            afterFirstX
          = Some d'
          ∧ nDecodedFrames_ d' = nDecodedFrames_ afterFirstX + -1
          ∧ ∀ k, hyp_at k (hyp_ d') = hyp_at k (hyp_ afterFirstX).
Proof.
  assert (HT : -1 ≤ 0) by lia. assert (HN : 0 ≤ 3) by lia.
  assert (H0 : inInt (currentFrame afterFirstX))
    by (vm_compute; split; discriminate).
  assert (H1 : inInt (currentFrame afterFirstX + -1))
    by (vm_compute; split; discriminate).
  assert (H2 : inInt (currentFrame afterFirstX + -1 + 2))
    by (vm_compute; split; discriminate).
  assert (H3 : inInt (nDecodedFrames_ afterFirstX + -1))
    by (vm_compute; split; discriminate).
  split; [exact HT|]. split; [exact HN|]. split; [exact H0|].
  split; [exact H1|]. split; [exact H2|]. split; [exact H3|].
  destruct (@decodeStep_no_frames lastWordLM seriesLibm insertionSort
              xxEmissions (-1) 3 afterFirstX HT HN H0 H1 H2 H3)
    as (d' & Hstep & _ & Hn & _ & _ & _ & _ & Hh).
  exists d'. split; [exact Hstep|]. split; [exact Hn|exact Hh].
Defined.

Lemma decodeBegin_queries_witness :
  0 ≤ 2
  ∧ nHypothesis (decodeBegin usedDecoder) = Some 1
  ∧ getAllFinalHypothesis (decodeBegin usedDecoder) = Some []
  ∧ getBestHypothesis 2 (decodeBegin usedDecoder) = Some emptyDecodeResult
  ∧ prune 2 (decodeBegin usedDecoder) = Some (decodeBegin usedDecoder).
Proof.
  assert (Hlook : 0 ≤ 2) by lia. split; [exact Hlook|].
  destruct (@decodeBegin_queries lastWordLM 2 usedDecoder Hlook)
    as (_ & Hn & _ & Hall & Hbest & Hprune).
  split; [exact Hn|]. split; [exact Hall|]. split; [exact Hbest|exact Hprune].
Defined.

Lemma hypotheses_trace_back_witness :
  Forall (λ c, 0 ≤ framesOf c) [Step xxEmissions 2 3]
  ∧ @decode lastWordLM seriesLibm insertionSort [Step xxEmissions 2 3] newDecoder
    = Some afterTwoX
  ∧ 0 ≤ 2 ≤ totalFrames [Step xxEmissions 2 3]
  ∧ hyp_ afterTwoX !! 2 = Some (hyp_at 2 (hyp_ afterTwoX))
  ∧ wordState ∈ hyp_at 2 (hyp_ afterTwoX)
  ∧ ancestor (hyp_ afterTwoX) 2 wordState (Z.to_nat 2)
    = Some (mkState lastWordLM (lm_start false) (getRoot (lexicon_ newDecoder))
              None 0%float (sil_ newDecoder) (-1) false).
Proof.
  assert (Hcalls : Forall (λ c, 0 ≤ framesOf c) [Step xxEmissions 2 3]).
  { repeat constructor; vm_compute; congruence. }
  assert (Hrun : @decode lastWordLM seriesLibm insertionSort [Step xxEmissions 2 3]
                   newDecoder = Some afterTwoX) by (vm_compute; reflexivity).
  assert (Hk : 0 ≤ 2 ≤ totalFrames [Step xxEmissions 2 3])
    by (vm_compute; split; congruence).
  assert (Hframe : hyp_ afterTwoX !! 2 = Some (hyp_at 2 (hyp_ afterTwoX)))
    by (vm_compute; reflexivity).
  assert (Hs : wordState ∈ hyp_at 2 (hyp_ afterTwoX)).
  { apply (list_elem_of_lookup_2 _ 1%nat). vm_compute. reflexivity. }
  split; [exact Hcalls|]. split; [exact Hrun|]. split; [exact Hk|].
  split; [exact Hframe|]. split; [exact Hs|].
  exact (proj2 (@hypotheses_trace_back lastWordLM seriesLibm insertionSort insertionSort_spec _ _ _ 2 _ _
                  Hcalls Hrun Hk Hframe Hs)).
Defined.

Lemma stored_state_lex_witness :
  @runCall lastWordLM seriesLibm insertionSort (Step xxEmissions 2 3)
    (decodeBegin newDecoder) = Some afterTwoX
  ∧ producedFrame (Step xxEmissions 2 3) (decodeBegin newDecoder) 2
  ∧ hyp_ afterTwoX !! 2 = Some (hyp_at 2 (hyp_ afterTwoX))
  ∧ wordState ∈ hyp_at 2 (hyp_ afterTwoX)
  ∧ ∃ prev p,
      hyp_ afterTwoX !! (2 - 1) = Some prev ∧ p ∈ prev
      ∧ (lex wordState = lex p
         ∨ lex wordState = getRoot (lexicon_ (decodeBegin newDecoder))
         ∨ ∃ node,
             nodes (lexicon_ (decodeBegin newDecoder)) !! lex p = Some node
             ∧ children node !! token wordState = Some (lex wordState)).
Proof.
  assert (Hrun : @runCall lastWordLM seriesLibm insertionSort (Step xxEmissions 2 3)
                   (decodeBegin newDecoder) = Some afterTwoX)
    by (vm_compute; reflexivity).
  assert (Hk : producedFrame (Step xxEmissions 2 3) (decodeBegin newDecoder) 2)
    by (vm_compute; split; congruence).
  assert (Hframe : hyp_ afterTwoX !! 2 = Some (hyp_at 2 (hyp_ afterTwoX)))
    by (vm_compute; reflexivity).
  assert (Hs : wordState ∈ hyp_at 2 (hyp_ afterTwoX)).
  { apply (list_elem_of_lookup_2 _ 1%nat). vm_compute. reflexivity. }
  split; [exact Hrun|]. split; [exact Hk|]. split; [exact Hframe|].
  split; [exact Hs|].
  exact (@stored_state_lex lastWordLM seriesLibm insertionSort insertionSort_spec _ _ _ _ _ _
           Hrun Hk Hframe Hs).
Defined.

Lemma stored_state_blank_witness :
  @runCall lastWordLM seriesLibm insertionSort (Step xxEmissions 2 3)
    (decodeBegin newDecoder) = Some afterTwoX
  ∧ producedFrame (Step xxEmissions 2 3) (decodeBegin newDecoder) 2
  ∧ hyp_ afterTwoX !! 2 = Some (hyp_at 2 (hyp_ afterTwoX))
  ∧ blankState ∈ hyp_at 2 (hyp_ afterTwoX)
  ∧ prevBlank blankState = true
  ∧ criterionType (opt_ (decodeBegin newDecoder)) = CTC
  ∧ token blankState = blank_ (decodeBegin newDecoder)
  ∧ word blankState = -1.
Proof.
  assert (Hrun : @runCall lastWordLM seriesLibm insertionSort (Step xxEmissions 2 3)
                   (decodeBegin newDecoder) = Some afterTwoX)
    by (vm_compute; reflexivity).
  assert (Hk : producedFrame (Step xxEmissions 2 3) (decodeBegin newDecoder) 2)
    by (vm_compute; split; congruence).
  assert (Hframe : hyp_ afterTwoX !! 2 = Some (hyp_at 2 (hyp_ afterTwoX)))
    by (vm_compute; reflexivity).
  assert (Hs : blankState ∈ hyp_at 2 (hyp_ afterTwoX)).
  { apply (list_elem_of_lookup_2 _ 3%nat). vm_compute. reflexivity. }
  assert (Hblank : prevBlank blankState = true) by reflexivity.
  split; [exact Hrun|]. split; [exact Hk|]. split; [exact Hframe|].
  split; [exact Hs|]. split; [exact Hblank|].
  destruct (@stored_state_blank lastWordLM seriesLibm insertionSort insertionSort_spec _ _ _ _ _ _
              Hrun Hk Hframe Hs Hblank) as (Hctc & Htok & Hword & _).
  split; [exact Hctc|]. split; [exact Htok|exact Hword].
Defined.

Lemma stored_state_word_witness :
  @runCall lastWordLM seriesLibm insertionSort (Step xxEmissions 2 3)
    (decodeBegin newDecoder) = Some afterTwoX
  ∧ producedFrame (Step xxEmissions 2 3) (decodeBegin newDecoder) 2
  ∧ hyp_ afterTwoX !! 2 = Some (hyp_at 2 (hyp_ afterTwoX))
  ∧ wordState ∈ hyp_at 2 (hyp_ afterTwoX)
  ∧ word wordState ≠ -1
  ∧ lex wordState = getRoot (lexicon_ (decodeBegin newDecoder))
  ∧ prevBlank wordState = false.
Proof.
  assert (Hrun : @runCall lastWordLM seriesLibm insertionSort (Step xxEmissions 2 3)
                   (decodeBegin newDecoder) = Some afterTwoX)
    by (vm_compute; reflexivity).
  assert (Hk : producedFrame (Step xxEmissions 2 3) (decodeBegin newDecoder) 2)
    by (vm_compute; split; congruence).
  assert (Hframe : hyp_ afterTwoX !! 2 = Some (hyp_at 2 (hyp_ afterTwoX)))
    by (vm_compute; reflexivity).
  assert (Hs : wordState ∈ hyp_at 2 (hyp_ afterTwoX)).
  { apply (list_elem_of_lookup_2 _ 1%nat). vm_compute. reflexivity. }
  assert (Hword : word wordState ≠ -1) by (vm_compute; congruence).
  split; [exact Hrun|]. split; [exact Hk|]. split; [exact Hframe|].
  split; [exact Hs|]. split; [exact Hword|].
  destruct (@stored_state_word lastWordLM seriesLibm insertionSort insertionSort_spec _ _ _ _ _ _
              Hrun Hk Hframe Hs Hword) as (Hlex & Hpb & _).
  split; [exact Hlex|exact Hpb].
Defined.

Lemma decodeEnd_frame_witness :
  @decodeEnd lastWordLM seriesLibm insertionSort afterTwoX = Some afterEnd
  ∧ hyp_ afterEnd !! (currentFrame afterTwoX + 1)
    = Some (hyp_at 3 (hyp_ afterEnd))
  ∧ endState ∈ hyp_at 3 (hyp_ afterEnd)
  ∧ token endState = sil_ afterTwoX ∧ word endState = -1
  ∧ prevBlank endState = false.
Proof.
  assert (Hend : @decodeEnd lastWordLM seriesLibm insertionSort afterTwoX = Some afterEnd)
    by (vm_compute; reflexivity).
  assert (Hframe : hyp_ afterEnd !! (currentFrame afterTwoX + 1)
                   = Some (hyp_at 3 (hyp_ afterEnd)))
    by (vm_compute; reflexivity).
  assert (Hs : endState ∈ hyp_at 3 (hyp_ afterEnd)).
  { apply (list_elem_of_lookup_2 _ 1%nat). vm_compute. reflexivity. }
  split; [exact Hend|]. split; [exact Hframe|]. split; [exact Hs|].
  destruct (@decodeEnd_frame lastWordLM seriesLibm insertionSort insertionSort_spec _ _ _ _ Hend Hframe Hs)
    as (Htok & Hword & Hpb & _).
  split; [exact Htok|]. split; [exact Hword|exact Hpb].
Defined.

Lemma mergeCandidates_classes_witness :
  candidatePtrs_ mergingDecoder ≠ []
  ∧ ∃ d', @mergeCandidates lastWordLM seriesLibm insertionSort mergingDecoder
          = Some d'
      ∧ (∀ c, c ∈ candidatePtrs_ mergingDecoder →
              ∃ m, m ∈ candidatePtrs_ d' ∧ sameKey c m)
      ∧ (1 ≤ length (candidatePtrs_ d')
         ≤ length (candidatePtrs_ mergingDecoder))%nat.
Proof.
  assert (Hne : candidatePtrs_ mergingDecoder ≠ []) by (vm_compute; discriminate).
  split; [exact Hne|].
  destruct (@mergeCandidates_classes lastWordLM seriesLibm insertionSort
              insertionSort_spec lastWordLM_order mergingDecoder Hne)
    as (d' & Hmerge & Hkept & _ & Hlen & _).
  exists d'. split; [exact Hmerge|]. split; [exact Hkept|exact Hlen].
Defined.

Lemma mergeCandidates_idempotent_witness :
  @mergeCandidates lastWordLM seriesLibm insertionSort mergingDecoder = Some mergedDecoder
  ∧ StronglySorted keyGt (candidatePtrs_ mergedDecoder)
  ∧ @mergeCandidates lastWordLM seriesLibm insertionSort mergedDecoder = Some mergedDecoder.
Proof.
  assert (Hmerge : @mergeCandidates lastWordLM seriesLibm insertionSort mergingDecoder
                   = Some mergedDecoder) by (vm_compute; reflexivity).
  split; [exact Hmerge|].
  exact (@mergeCandidates_idempotent lastWordLM seriesLibm insertionSort insertionSort_spec lastWordLM_order
           mergingDecoder mergedDecoder Hmerge).
Defined.

Lemma tokenOrder_tried_witness :
  @tokenOrder insertionSort xxEmissions 0 3 2 = Some [2; 0; 1]
  ∧ NoDup (take (Z.to_nat (Z.min 2 3)) [2; 0; 1])
  ∧ (∀ n, n ∈ take (Z.to_nat (Z.min 2 3)) [2; 0; 1] → 0 ≤ n < 3)
  ∧ Z.of_nat (length (take (Z.to_nat (Z.min 2 3)) [2; 0; 1]))
    = Z.max 0 (Z.min 2 3).
Proof.
  assert (Hidx : @tokenOrder insertionSort xxEmissions 0 3 2 = Some [2; 0; 1])
    by (vm_compute; reflexivity).
  split; [exact Hidx|].
  destruct (@tokenOrder_tried insertionSort insertionSort_spec
              xxEmissions 0 3 2 [2; 0; 1] Hidx)
    as (Hnodup & Hrange & Hlen & _).
  split; [exact Hnodup|]. split; [exact Hrange|exact Hlen].
Defined.

Lemma unread_arguments_witness :
  irrelevantFor newDecoder 1 42 [1.5%float]
  ∧ @decode lastWordLM seriesLibm insertionSort [Step xxEmissions 2 3; End_]
      (withArguments 1 42 [1.5%float] newDecoder)
    = withArguments 1 42 [1.5%float]
        <$> @decode lastWordLM seriesLibm insertionSort [Step xxEmissions 2 3; End_]
              newDecoder.
Proof.
  assert (Hirr : irrelevantFor newDecoder 1 42 [1.5%float]).
  { split; [reflexivity|]. split; [discriminate|].
    intros Hunk. vm_compute in Hunk. discriminate Hunk. }
  split; [exact Hirr|].
  exact (@unread_arguments lastWordLM seriesLibm insertionSort insertionSort_spec 1 42 [1.5%float]
           [Step xxEmissions 2 3; End_] newDecoder Hirr).
Defined.

Lemma decodeStep_in_chunks_witness :
  wellFormedDecoder 3 (decodeBegin exactDecoder)
  ∧ 0 ≤ 1 ∧ 0 ≤ 3
  ∧ (1 + 1) * 3 ≤ Z.of_nat (length xxEmissions)
  ∧ Forall (wellFormedState (lexicon_ (decodeBegin exactDecoder)) 3)
      (hyp_at (currentFrame (decodeBegin exactDecoder))
         (hyp_ (decodeBegin exactDecoder)))
  ∧ ∃ whole parts,
      @decodeStep lastWordLM seriesLibm insertionSort xxEmissions (1 + 1) 3
        (decodeBegin exactDecoder) = Some whole
      ∧ @decodeStep lastWordLM seriesLibm insertionSort xxEmissions 1 3
          (decodeBegin exactDecoder)
          ≫= @decodeStep lastWordLM seriesLibm insertionSort
                (drop (Z.to_nat (1 * 3)) xxEmissions) 1 3
        = Some parts
      ∧ sameFrames whole parts.
Proof.
  destruct (@decodeBegin_wellFormed lastWordLM 3 exactDecoder
              exactDecoder_wellFormed) as [Hwf Hframe].
  assert (HT : 0 ≤ 1) by lia. assert (HN : 0 ≤ 3) by lia.
  assert (Hlen : (1 + 1) * 3 ≤ Z.of_nat (length xxEmissions))
    by (vm_compute; congruence).
  split; [exact Hwf|]. split; [exact HT|]. split; [exact HN|].
  split; [exact Hlen|]. split; [exact Hframe|].
  exact (@decodeStep_in_chunks lastWordLM seriesLibm insertionSort insertionSort_spec xxEmissions 1 1 3
           (decodeBegin exactDecoder) Hwf HT HT HN Hlen Hframe).
Defined.

Lemma compareNodesShortList_strict_order_witness :
  (∀ a : @LexiconDecoderState lastWordLM, compareNodesShortList a a = false)
  ∧ (∀ a b : @LexiconDecoderState lastWordLM,
       compareNodesShortList a b = true → compareNodesShortList b a = false)
  ∧ (∀ a b c : @LexiconDecoderState lastWordLM,
       compareNodesShortList a b = true → compareNodesShortList b c = true →
       compareNodesShortList a c = true).
Proof.
  exact (@compareNodesShortList_strict_order lastWordLM lastWordLM_order).
Defined.

Lemma expandHyp_offers_stay_witness :
  let d := decodeBegin newDecoder in
  let prevHyp := mkState lastWordLM (-1) 100 None 0%float 0 (-1) false in
  criterionType (opt_ d) = CTC
  ∧ ∃ offered,
      @expandHyp lastWordLM d xxEmissions 0 3 [0; 1; 2] 0 prevHyp
      = Some offered
      ∧ ∃ c, c ∈ offered ∧ lmState c = lmState prevHyp
             ∧ lex c = lex prevHyp ∧ parent c = Some 0%nat ∧ word c = -1
             ∧ token c = blank_ d ∧ prevBlank c = true.
Proof.
  cbv zeta. split; [reflexivity|].
  destruct (@expandHyp lastWordLM (decodeBegin newDecoder) xxEmissions 0 3
              [0; 1; 2] 0
              (mkState lastWordLM (-1) 100 None 0%float 0 (-1) false))
    as [offered|] eqn:Hoffered; [|vm_compute in Hoffered; discriminate Hoffered].
  exists offered. split; [reflexivity|].
  exact (proj1 (@expandHyp_offers_stay lastWordLM (decodeBegin newDecoder)
                  xxEmissions 0 3 [0; 1; 2] 0 _ offered Hoffered) eq_refl).
Defined.
